(** * The Qwen chat renderer: prompt rendering and streaming function-call extraction

    A shallow embedding of [maga_transformer/openai/renderers/qwen_renderer.py]:
    [make_context], [QwenRenderer.parse_messages], [render_chat],
    [text_complete_last_message], [_parse_function_response],
    [_process_output_ids_tensor] and [render_response_stream].

    Python strings are sequences of Unicode code points, so a [str] is a list
    of code points; [len] is [length].  Exceptions are an explicit result
    type.  The asynchronous generator [render_response_stream] is a fold over
    the list of generation steps that returns the list of yielded objects. *)

From Stdlib Require Import Ascii String NArith ZArith Bool Lia List.
Import ListNotations.

(** ** Python strings *)

Module PyStr.

Definition char := N.
Definition str := list char.

Definition nl : char := 10%N.
Definition sp : char := 32%N.

(** An ASCII literal as a [str]. *)
Definition lit (s : string) : str := map N_of_ascii (list_ascii_of_string s).

Definition char_eqb (a b : char) : bool := N.eqb a b.

Fixpoint str_eqb (a b : str) : bool :=
  match a, b with
  | [], [] => true
  | x :: a', y :: b' => char_eqb x y && str_eqb a' b'
  | _, _ => false
  end.

(** [s.startswith(p)] *)
Fixpoint startswith (s p : str) {struct p} : bool :=
  match p, s with
  | [], _ => true
  | _ :: _, [] => false
  | x :: p', y :: s' => char_eqb x y && startswith s' p'
  end.

(** [s.endswith(p)] *)
Definition endswith (s p : str) : bool := startswith (rev s) (rev p).

(** [sub in s] *)
Fixpoint contains (sub s : str) : bool :=
  startswith s sub ||
  match s with
  | [] => false
  | _ :: s' => contains sub s'
  end.

(** [len(s)] as a Python integer. *)
Definition len {A : Type} (s : list A) : Z := Z.of_nat (length s).

(** Python slicing.  A negative index counts from the end; [firstn] and
    [skipn] clamp what lies beyond the ends, as slicing does. *)
Definition norm_index (n : nat) (i : Z) : nat :=
  if (i <? 0)%Z then Z.to_nat (Z.of_nat n + i) else Z.to_nat i.

(** [s[a:b]], [s[a:]] and [s[:b]] *)
Definition slice {A : Type} (s : list A) (a b : Z) : list A :=
  skipn (norm_index (length s) a) (firstn (norm_index (length s) b) s).
Definition slice_from {A : Type} (s : list A) (a : Z) : list A :=
  skipn (norm_index (length s) a) s.
Definition slice_to {A : Type} (s : list A) (b : Z) : list A :=
  firstn (norm_index (length s) b) s.

Fixpoint dropwhile (f : char -> bool) (s : str) : str :=
  match s with
  | [] => []
  | c :: s' => if f c then dropwhile f s' else s
  end.

(** The characters removed by [str.strip()] with no argument: those for which
    [str.isspace] holds. *)
Definition is_space (c : char) : bool :=
  ((9 <=? c) && (c <=? 13) || (28 <=? c) && (c <=? 32)
   || (c =? 133) || (c =? 160) || (c =? 5760)
   || (8192 <=? c) && (c <=? 8202)
   || (c =? 8232) || (c =? 8233) || (c =? 8239) || (c =? 8287)
   || (c =? 12288))%N.

Definition lstrip_chars (f : char -> bool) (s : str) : str := dropwhile f s.
Definition rstrip_chars (f : char -> bool) (s : str) : str :=
  rev (dropwhile f (rev s)).
Definition strip_chars (f : char -> bool) (s : str) : str :=
  rstrip_chars f (lstrip_chars f s).

Definition is_nl (c : char) : bool := char_eqb c nl.

(** [s.lstrip("\n")], [s.rstrip()], [s.strip()] *)
Definition lstrip_nl (s : str) : str := lstrip_chars is_nl s.
Definition rstrip (s : str) : str := rstrip_chars is_space s.
Definition strip (s : str) : str := strip_chars is_space s.

(** [s.rfind(sub)]: the highest index at which [sub] occurs in [s], or [-1].
    [rfind_from s sub pos] searches [s], whose first character sits at index
    [pos] of the whole string. *)
Fixpoint rfind_from (s sub : str) (pos : nat) : option nat :=
  match s with
  | [] => if startswith [] sub then Some pos else None
  | _ :: s' =>
      match rfind_from s' sub (S pos) with
      | Some i => Some i
      | None => if startswith s sub then Some pos else None
      end
  end.

Definition rfind (s sub : str) : Z :=
  match rfind_from s sub 0 with
  | Some i => Z.of_nat i
  | None => (-1)%Z
  end.

(** [s.replace(old, "")]: occurrences are removed left to right without
    overlap; [skip] counts the characters of a match still to be dropped.
    An empty [old] leaves the string as it is. *)
Fixpoint remove_from (old s : str) (skip : nat) : str :=
  match s with
  | [] => []
  | c :: s' =>
      match skip with
      | S k => remove_from old s' k
      | O =>
          if startswith s old then
            match length old with
            | O => c :: remove_from old s' 0
            | S k => remove_from old s' k
            end
          else c :: remove_from old s' 0
      end
  end.

Definition remove_all (s old : str) : str := remove_from old s 0.

(** [len(re.findall(p, s)) > 0] for the pattern [p] of one or more characters
    in U+4E00..U+9FFF: some character of [s] lies in that block. *)
Definition has_zh (s : str) : bool :=
  existsb (fun c => (19968 <=? c) && (c <=? 40959))%N s.

End PyStr.
Import PyStr.

(** ** Data types of the OpenAI interface

    Modelled from the spec: [api_datatype] and [custom_renderer] declare
    [RoleEnum], [FunctionCall], [ChatMessage], [GPTFunctionDefinition],
    [DeltaMessage], [UsageInfo], [FinisheReason],
    [ChatCompletionResponseStreamChoice] and [StreamResponseObject]; their
    declarations are not among the sources.  The records below carry the
    fields the renderer reads and writes; a field the renderer leaves out of a
    constructor call is [None], except the [usage] of a
    [StreamResponseObject], which is whatever the declaration's default is
    (the variable [default_usage] of the streaming section). *)

Module RoleEnum.
Inductive t := user | assistant | system | function | tool.
End RoleEnum.
Definition RoleEnum := RoleEnum.t.

(** [a == b] on roles. *)
Definition role_eqb (a b : RoleEnum) : bool :=
  match a, b with
  | RoleEnum.user, RoleEnum.user
  | RoleEnum.assistant, RoleEnum.assistant
  | RoleEnum.system, RoleEnum.system
  | RoleEnum.function, RoleEnum.function
  | RoleEnum.tool, RoleEnum.tool => true
  | _, _ => false
  end.

Record FunctionCall := { fc_name : str; fc_arguments : str }.

Record ChatMessage := {
  role : RoleEnum;
  content : option str;
  function_call : option FunctionCall
}.

Inductive FinisheReason := stop | length_reason | function_call_reason.

Record DeltaMessage := {
  dm_role : option RoleEnum;
  dm_content : option str;
  dm_function_call : option FunctionCall
}.

Record UsageInfo := {
  prompt_tokens : Z;
  total_tokens : Z;
  completion_tokens : Z
}.

Record ChatCompletionResponseStreamChoice := {
  c_index : Z;
  c_delta : DeltaMessage;
  c_finish_reason : option FinisheReason
}.

Record StreamResponseObject := {
  choices : list ChatCompletionResponseStreamChoice;
  usage : option UsageInfo
}.

Record ProcessedOutput := {
  output_str : str;
  po_output_token_length : Z;
  po_finish_reason : option FinisheReason
}.

(** ** The marker strings *)

Definition ACTION : str := nl :: lit "Action:".
Definition ACTION_INPUT : str := nl :: lit "Action Input:".
Definition OBSERVATION : str := nl :: lit "Observation:".

(** ** [_parse_function_response] *)

Definition _parse_function_response (response : str) : option DeltaMessage :=
  let i := rfind response ACTION in
  let j := rfind response ACTION_INPUT in
  let k := rfind response OBSERVATION in
  let '(response, func_name, func_args) :=
    if ((0 <=? i) && (i <? j))%Z then
      let response :=
        if (k <? j)%Z then rstrip response ++ OBSERVATION else response in
      let k := rfind response OBSERVATION in
      (response,
       strip (slice response (i + len ACTION) j),
       strip (slice response (j + len ACTION_INPUT) k))
    else (response, [], []) in
  match func_name with
  | [] => None
  | _ :: _ =>
      Some {| dm_role := None;
              dm_content := Some (slice_to response i);
              dm_function_call :=
                Some {| fc_name := func_name; fc_arguments := func_args |} |}
  end.

(** ** [render_response_stream]

    The local variables of the generator are the fields of [StreamState].
    [update] is one pass through the body of the [async for] loop on the
    processed output of one generation step, [finish] is the code after the
    loop; both return the state and the objects yielded, in order. *)

Record StreamState := {
  index : Z;
  output_string : str;
  output_length : Z;
  responded_string : str;
  responded_length : Z;
  output_token_length : Z;
  finish_reason : option FinisheReason;
  generating_function_call : bool
}.

Definition initial_state : StreamState :=
  {| index := 0; output_string := []; output_length := 0;
     responded_string := []; responded_length := 0;
     output_token_length := 0; finish_reason := None;
     generating_function_call := false |}.

Definition set_processed (st : StreamState) (po : ProcessedOutput) : StreamState :=
  {| index := index st;
     output_string := strip (output_str po);
     output_length := len (output_str po);
     responded_string := responded_string st;
     responded_length := responded_length st;
     output_token_length := po_output_token_length po;
     finish_reason := po_finish_reason po;
     generating_function_call := generating_function_call st |}.

Definition set_generating (st : StreamState) (b : bool) : StreamState :=
  {| index := index st;
     output_string := output_string st;
     output_length := output_length st;
     responded_string := responded_string st;
     responded_length := responded_length st;
     output_token_length := output_token_length st;
     finish_reason := finish_reason st;
     generating_function_call := b |}.

Definition set_responded (st : StreamState) (s : str) (n : Z) : StreamState :=
  {| index := index st;
     output_string := output_string st;
     output_length := output_length st;
     responded_string := s;
     responded_length := n;
     output_token_length := output_token_length st;
     finish_reason := finish_reason st;
     generating_function_call := generating_function_call st |}.

Definition set_finish_reason (st : StreamState) (r : option FinisheReason)
  : StreamState :=
  {| index := index st;
     output_string := output_string st;
     output_length := output_length st;
     responded_string := responded_string st;
     responded_length := responded_length st;
     output_token_length := output_token_length st;
     finish_reason := r;
     generating_function_call := generating_function_call st |}.

Definition set_index (st : StreamState) (i : Z) : StreamState :=
  {| index := i;
     output_string := output_string st;
     output_length := output_length st;
     responded_string := responded_string st;
     responded_length := responded_length st;
     output_token_length := output_token_length st;
     finish_reason := finish_reason st;
     generating_function_call := generating_function_call st |}.

Definition content_delta (s : str) : DeltaMessage :=
  {| dm_role := None; dm_content := Some s; dm_function_call := None |}.

Section Streaming.

Variable default_usage : option UsageInfo.
Variable input_token_length : Z.

(** [UsageInfo(prompt_tokens=..., total_tokens=..., completion_tokens=...)]
    as the three later [yield]s build it. *)
Definition usage_of (st : StreamState) : UsageInfo :=
  {| prompt_tokens := input_token_length;
     total_tokens := input_token_length + output_token_length st;
     completion_tokens := output_token_length st |}.

(** The first [yield]: a delta with the role only, and no [usage] argument. *)
Definition role_announcement (st : StreamState) : StreamResponseObject :=
  {| choices :=
       [ {| c_index := index st;
            c_delta := {| dm_role := Some RoleEnum.assistant; dm_content := None;
                          dm_function_call := None |};
            c_finish_reason := None |} ];
     usage := default_usage |}.

Definition respond (st : StreamState) (d : DeltaMessage)
  (r : option FinisheReason) (i : Z) : StreamResponseObject :=
  {| choices := [ {| c_index := i; c_delta := d; c_finish_reason := r |} ];
     usage := Some (usage_of st) |}.

Definition update (st : StreamState) (po : ProcessedOutput)
  : StreamState * list StreamResponseObject :=
  let announce :=
    if (output_token_length st =? 0)%Z then [role_announcement st] else [] in
  let st := set_processed st po in
  if endswith (output_string st) ACTION then
    (set_generating st true, announce)
  else if generating_function_call st then
    (st, announce)
  else if (output_length st >? responded_length st + len ACTION)%Z then
    let delta_string :=
      slice (output_string st) (responded_length st)
            (output_length st - len (lit "Action:")) in
    let responded :=
      slice_to (output_string st) (output_length st - len (lit "Action:")) in
    let st := set_responded st responded (len responded) in
    (st, announce ++ [respond st (content_delta delta_string) None (index st)])
  else
    (st, announce).

Definition finish (st : StreamState) : StreamState * list StreamResponseObject :=
  let '(st, called) :=
    if generating_function_call st then
      match _parse_function_response
              (slice_from (output_string st) (responded_length st)) with
      | None => (st, [])
      | Some function_message =>
          let st := set_finish_reason st (Some function_call_reason) in
          let st := set_responded st (output_string st) (output_length st) in
          (st, [respond st function_message (finish_reason st) (index st)])
      end
    else (st, []) in
  let st :=
    match finish_reason st with
    | None => set_finish_reason st (Some stop)
    | Some _ => st
    end in
  let '(st, flushed) :=
    if (responded_length st <? output_length st)%Z then
      let st := set_index st (index st + 1) in
      (st, [respond st
              (content_delta (slice_from (output_string st) (responded_length st)))
              None (index st)])
    else (st, []) in
  (st, called ++ flushed
       ++ [respond st (content_delta []) (finish_reason st) (index st + 1)]).

(** The loop: the states after each update, and everything yielded. *)
Fixpoint updates (st : StreamState) (pos : list ProcessedOutput)
  : StreamState * list StreamResponseObject :=
  match pos with
  | [] => (st, [])
  | po :: pos' =>
      let '(st1, out1) := update st po in
      let '(st2, out2) := updates st1 pos' in
      (st2, out1 ++ out2)
  end.

Fixpoint states (st : StreamState) (pos : list ProcessedOutput)
  : list StreamState :=
  match pos with
  | [] => []
  | po :: pos' => let st1 := fst (update st po) in st1 :: states st1 pos'
  end.

(** The generator on the processed outputs of the generation steps. *)
Definition stream_processed (pos : list ProcessedOutput)
  : list StreamResponseObject :=
  let '(st, out) := updates initial_state pos in
  out ++ snd (finish st).

(** *** [_process_output_ids_tensor]

    The tokenizer's [decode] and the base class's [eos_token_id],
    [_remove_stop_word_ids], [_check_finish_reason] and [stop_words_list] are
    collaborators declared outside the sources, taken as variables.  The
    tensor is the flat list of its token ids. *)

Variable eos_token_id : Z.
Variable _remove_stop_word_ids : list Z -> list Z.
Variable _check_finish_reason : list Z -> option FinisheReason.
Variable decode : list Z -> str.
Variable stop_words_list : list str.

Definition is_replacement (c : char) : bool := char_eqb c 65533%N.

Definition _process_output_ids_tensor (input_length : Z)
  (output_ids_tensor : list Z) (finished : bool) : ProcessedOutput :=
  let output_ids :=
    filter (fun t => negb (t =? eos_token_id)%Z) output_ids_tensor in
  let reason := if finished then _check_finish_reason output_ids else None in
  let output_ids := slice_from output_ids input_length in
  let output_length := len output_ids in
  let output_ids := _remove_stop_word_ids output_ids in
  let output_str := decode output_ids in
  let output_str := strip_chars is_replacement output_str in
  let output_str := fold_left remove_all stop_words_list output_str in
  {| output_str := output_str;
     po_output_token_length := output_length;
     po_finish_reason := reason |}.

(** The states of the loop after each generation step. *)
Definition stream_states (outputs : list (list Z)) : list StreamState :=
  states initial_state
    (map (fun ids => _process_output_ids_tensor input_token_length ids false)
         outputs).

(** [render_response_stream] on the [output_ids] of the generation steps. *)
Definition render_response_stream (outputs : list (list Z))
  : list StreamResponseObject :=
  stream_processed
    (map (fun ids => _process_output_ids_tensor input_token_length ids false)
         outputs).

End Streaming.

(** ** Exceptions *)

Inductive exn :=
| ValueError (msg : str)
| IndexError
| AssertionError.

Inductive result (A : Type) :=
| Ok (a : A)
| Raise (e : exn).
Arguments Ok {A} a.
Arguments Raise {A} e.

Definition bind {A B : Type} (r : result A) (k : A -> result B) : result B :=
  match r with
  | Ok a => k a
  | Raise e => Raise e
  end.

Notation "x <- r ;; k" := (bind r (fun x => k))
  (at level 61, r at next level, right associativity).
Notation "' p <- r ;; k" := (bind r (fun x => let 'p := x in k))
  (at level 61, p pattern, r at next level, right associativity).

(** ** Template constants *)

Definition join (sep : str) (l : list str) : str :=
  match l with
  | [] => []
  | x :: l' => x ++ flat_map (fun y => sep ++ y) l'
  end.

(** [TOOL_DESC.format(...)] *)
Definition TOOL_DESC (name_for_model name_for_human description_for_model
  parameters : str) : str :=
  name_for_model ++ lit ": Call this tool to interact with the "
  ++ name_for_human ++ lit " API. What is the " ++ name_for_human
  ++ lit " API useful for? " ++ description_for_model
  ++ lit " Parameters: " ++ parameters.

(** [REACT_INSTRUCTION.format(...)] *)
Definition REACT_INSTRUCTION (tools_text tools_name_text : str) : str :=
  lit "Answer the following questions as best you can. You have access to the following APIs:"
  ++ [nl; nl] ++ tools_text ++ [nl; nl]
  ++ lit "Use the following format:" ++ [nl; nl]
  ++ lit "Question: the input question you must answer" ++ [nl]
  ++ lit "Thought: you should always think about what to do" ++ [nl]
  ++ lit "Action: the action to take, should be one of [" ++ tools_name_text
  ++ lit "]" ++ [nl]
  ++ lit "Action Input: the input to the action" ++ [nl]
  ++ lit "Observation: the result of the action" ++ [nl]
  ++ lit "... (this Thought/Action/Action Input/Observation can be repeated zero or more times)"
  ++ [nl]
  ++ lit "Thought: I now know the final answer" ++ [nl]
  ++ lit "Final Answer: the final answer to the original input question"
  ++ [nl; nl] ++ lit "Begin!".

(** [DUMMY_THOUGHT["en"]] and [DUMMY_THOUGHT["zh"]]; the Chinese text is
    given by its code points. *)
Definition DUMMY_THOUGHT_en : str :=
  nl :: lit "Thought: I now know the final answer." ++ nl
     :: lit "Final answer: ".
Definition DUMMY_THOUGHT_zh : str :=
  nl :: lit "Thought: "
     ++ [25105; 20250; 20316; 31572; 20102; 12290]%N ++ nl
     :: lit "Final answer: ".

(** [DUMMY_THOUGHT.values()], in insertion order. *)
Definition DUMMY_THOUGHT_values : list str :=
  [DUMMY_THOUGHT_en; DUMMY_THOUGHT_zh].

Definition default_system : str := lit "You are a helpful assistant.".

(** ** [parse_messages] *)

(** Modelled from the spec: [GPTFunctionDefinition] (name, optional display
    overrides, description, optional model description, parameters); its
    declaration is not among the sources.  [parameters] is an opaque JSON
    value, serialized by [json.dumps], a variable of the section below. *)
Record GPTFunctionDefinition (Json : Type) := {
  fd_name : str;
  name_for_model : option str;
  name_for_human : option str;
  description : str;
  description_for_model : option str;
  parameters : Json
}.
Arguments fd_name {Json} _.
Arguments name_for_model {Json} _.
Arguments name_for_human {Json} _.
Arguments description {Json} _.
Arguments description_for_model {Json} _.
Arguments parameters {Json} _.

(** A normalized message: the [ChatMessage(role=..., content=...)] objects
    the normalizer builds always carry a string content. *)
Record Turn := { t_role : RoleEnum; t_content : str }.

(** The first component of the result: a string or [_TEXT_COMPLETION_CMD]. *)
Inductive Query :=
| _TEXT_COMPLETION_CMD
| QueryStr (s : str).

(** [o or d] for an optional string [o]. *)
Definition or_else (o : option str) (d : str) : str :=
  match o with
  | Some (c :: s) => c :: s
  | _ => d
  end.

(** [messages[-1]], when there is one. *)
Definition last_turn (messages : list Turn) : option Turn :=
  match rev messages with
  | [] => None
  | t :: _ => Some t
  end.

(** [messages[-1].content += s] *)
Fixpoint append_last (messages : list Turn) (s : str) : list Turn :=
  match messages with
  | [] => []
  | [t] => [ {| t_role := t_role t; t_content := t_content t ++ s |} ]
  | t :: messages' => t :: append_last messages' s
  end.

Definition role_name (r : RoleEnum) : str :=
  match r with
  | RoleEnum.user => lit "user"
  | RoleEnum.assistant => lit "assistant"
  | RoleEnum.system => lit "system"
  | RoleEnum.function => lit "function"
  | RoleEnum.tool => lit "tool"
  end.

Definition no_user_error : exn :=
  ValueError (lit "At least one message must be from user.").
Definition function_order_error : exn :=
  ValueError
    (lit "Invalid request: Expecting role assistant before role function.").
Definition assistant_order_error : exn :=
  ValueError
    (lit "Invalid request: Expecting role user before role assistant.").
Definition incorrect_role_error (r : RoleEnum) : exn :=
  ValueError (lit "Invalid request: Incorrect role " ++ role_name r ++ lit ".").
Definition pairing_error : exn :=
  ValueError
    (lit "Invalid request: Expecting exactly one user (or function) role before every assistant role.").

(** The content an assistant message contributes (lines 208 to 220). *)
Definition assistant_content (functions_given : bool) (last_msg : str)
  (content : str) (func_call : option FunctionCall) : str :=
  let last_msg_has_zh := has_zh last_msg in
  match func_call with
  | None =>
      if functions_given then
        (if last_msg_has_zh then DUMMY_THOUGHT_zh else DUMMY_THOUGHT_en)
        ++ content
      else content
  | Some fc =>
      let f_name := fc_name fc in
      let f_args := fc_arguments fc in
      let content :=
        match content with
        | [] =>
            if last_msg_has_zh then
              lit "Thought: " ++ [25105; 21487; 20197; 20351; 29992]%N
              ++ lit " " ++ f_name ++ lit " API" ++ [12290%N]
            else lit "Thought: I can use " ++ f_name ++ lit "."
        | _ :: _ => content
        end in
      nl :: content ++ nl :: lit "Action: " ++ f_name
         ++ nl :: lit "Action Input: " ++ f_args
  end.

(** The loop over the input messages (lines 192 to 232); [messages] is the
    normalized list built so far.  [m_idx == len(_messages) - 1] holds when no
    message follows. *)
Fixpoint normalize (functions_given : bool) (_messages : list ChatMessage)
  (messages : list Turn) : result (list Turn) :=
  match _messages with
  | [] => Ok messages
  | m :: rest =>
      let content := match content m with Some s => s | None => [] end in
      match role m with
      | RoleEnum.function =>
          match last_turn messages with
          | None => Raise function_order_error
          | Some l =>
              if negb (role_eqb (t_role l) RoleEnum.assistant)
              then Raise function_order_error
              else
                let messages :=
                  append_last messages (nl :: lit "Observation: " ++ content) in
                let messages :=
                  match rest with
                  | [] => append_last messages (nl :: lit "Thought:")
                  | _ :: _ => messages
                  end in
                normalize functions_given rest messages
          end
      | RoleEnum.assistant =>
          match last_turn messages with
          | None => Raise assistant_order_error
          | Some l =>
              let content :=
                assistant_content functions_given (t_content l) content
                                  (function_call m) in
              let messages :=
                if role_eqb (t_role l) RoleEnum.user then
                  messages ++ [ {| t_role := RoleEnum.assistant;
                                   t_content := rstrip (lstrip_nl content) |} ]
                else append_last messages content in
              normalize functions_given rest messages
          end
      | RoleEnum.user =>
          normalize functions_given rest
            (messages ++ [ {| t_role := RoleEnum.user;
                              t_content := rstrip (lstrip_nl content) |} ])
      | r => Raise (incorrect_role_error r)
      end
  end.

(** The body of the loop over [DUMMY_THOUGHT.values()] (lines 248 to 250). *)
Definition drop_dummy_thought (bot_msg t : str) : str :=
  let t := lstrip_nl t in
  if startswith bot_msg t && contains (nl :: lit "Action: ") bot_msg
  then slice_from bot_msg (len t)
  else bot_msg.

Definition strip_dummy_thought (bot_msg : str) : str :=
  fold_left drop_dummy_thought DUMMY_THOUGHT_values bot_msg.

(** [f"{system}\n\nQuestion: {text}"] *)
Definition with_question (system text : str) : str :=
  system ++ [nl; nl] ++ lit "Question: " ++ text.

(** The loop [for i in range(0, len(messages), 2)] (lines 240 to 255) on the
    messages from index [i] on.  [messages[i + 1]] is evaluated only when
    [messages[i].role == "user"], and raises [IndexError] when [i] is the last
    index; [i == len(messages) - 2] holds when nothing follows the pair. *)
Fixpoint pair_up (messages : list Turn) (system : str)
  (history : list (str * str)) : result (str * list (str * str)) :=
  match messages with
  | [] => Ok (system, history)
  | mi :: after =>
      if role_eqb (t_role mi) RoleEnum.user then
        match after with
        | [] => Raise IndexError
        | mi1 :: rest =>
            if role_eqb (t_role mi1) RoleEnum.assistant then
              let usr_msg := rstrip (lstrip_nl (t_content mi)) in
              let bot_msg := rstrip (lstrip_nl (t_content mi1)) in
              let is_last_pair := match rest with [] => true | _ => false end in
              let '(usr_msg, system) :=
                match system with
                | _ :: _ =>
                    if is_last_pair
                    then (with_question system usr_msg, [])
                    else (usr_msg, system)
                | [] => (usr_msg, system)
                end in
              let bot_msg := strip_dummy_thought bot_msg in
              pair_up rest system (history ++ [(usr_msg, bot_msg)])
            else Raise pairing_error
        end
      else Raise pairing_error
  end.

(** The system text and the messages left after lines 154 to 160: a leading
    system message is popped; the default system text counts as empty; a
    system message without content fails the assertion. *)
Definition extract_system (messages : list ChatMessage)
  : result (str * list ChatMessage) :=
  match messages with
  | [] => Raise IndexError
  | m0 :: rest =>
      if role_eqb (role m0) RoleEnum.system then
        match content m0 with
        | None => Raise AssertionError
        | Some s => Ok (if str_eqb s default_system then [] else s, rest)
        end
      else Ok ([], messages)
  end.

(** Lines 234 to 261 on the normalized messages: the query, the history and
    what happens to a system text that the history loop left over. *)
Definition extract_history (system : str) (messages : list Turn)
  : result (Query * list (str * str)) :=
  '(query, messages) <-
    match last_turn messages with
    | None => Raise IndexError
    | Some l =>
        if role_eqb (t_role l) RoleEnum.user
        then Ok (QueryStr (t_content l), removelast messages)
        else Ok (_TEXT_COMPLETION_CMD, messages)
    end ;;
  '(system, history) <- pair_up messages system [] ;;
  match system with
  | [] => Ok (query, history)
  | _ :: _ =>
      match query with
      | _TEXT_COMPLETION_CMD => Raise AssertionError
      | QueryStr q => Ok (QueryStr (with_question system q), history)
      end
  end.

Section Normalizer.

Variable Json : Type.
Variable json_dumps : Json -> str.

(** The system text after the tool descriptions are folded in (lines 162
    to 188). *)
Definition fold_functions (system : str)
  (functions : option (list (GPTFunctionDefinition Json))) : str :=
  match functions with
  | Some (f :: fs) =>
      let name_m func_info := or_else (name_for_model func_info) (fd_name func_info) in
      let tool func_info :=
        TOOL_DESC (name_m func_info)
          (or_else (name_for_human func_info) (fd_name func_info))
          (or_else (description_for_model func_info) (description func_info))
          (json_dumps (parameters func_info)) in
      let tools_text := join [nl; nl] (map tool (f :: fs)) in
      let tools_name_text := join (lit ", ") (map name_m (f :: fs)) in
      let system :=
        system ++ [nl; nl] ++ REACT_INSTRUCTION tools_text tools_name_text in
      rstrip (lstrip_nl system)
  | _ => system
  end.

Definition functions_given
  (functions : option (list (GPTFunctionDefinition Json))) : bool :=
  match functions with
  | Some (_ :: _) => true
  | _ => false
  end.

Definition parse_messages (messages : list ChatMessage)
  (functions : option (list (GPTFunctionDefinition Json)))
  : result (Query * list (str * str)) :=
  if forallb (fun m => negb (role_eqb (role m) RoleEnum.user)) messages then
    Raise no_user_error
  else
    '(system, messages) <- extract_system messages ;;
    let system := fold_functions system functions in
    messages <- normalize (functions_given functions) messages [] ;;
    extract_history system messages.

End Normalizer.
Arguments fold_functions {Json} json_dumps system functions.
Arguments functions_given {Json} functions.
Arguments parse_messages {Json} json_dumps messages functions.

(** ** [make_context], [text_complete_last_message] and [render_chat] *)

(** Modelled from the spec: the tokenizer capability ([QWenTokenizer] is
    declared outside the sources): the two special-token ids and [encode],
    once with its default arguments and once with [allowed_special=set()]. *)
Record QWenTokenizer := {
  im_start_id : Z;
  im_end_id : Z;
  encode : str -> list Z;
  encode_plain : str -> list Z
}.

Definition im_start : str := lit "<|im_start|>".
Definition im_end : str := lit "<|im_end|>".

Section Renderer.

Variable tokenizer : QWenTokenizer.

Definition im_start_tokens : list Z := [im_start_id tokenizer].
Definition im_end_tokens : list Z := [im_end_id tokenizer].
Definition nl_tokens : list Z := encode tokenizer [nl].

Definition _tokenize_str (role content : str) : str * list Z :=
  (role ++ nl :: content,
   encode_plain tokenizer role ++ nl_tokens ++ encode_plain tokenizer content).

(** [next_context_tokens] and [prev_chat] of one history turn. *)
Definition next_context_tokens (turn : str * str) : list Z :=
  let '(turn_query, turn_response) := turn in
  let query_tokens :=
    im_start_tokens ++ snd (_tokenize_str (lit "user") turn_query)
    ++ im_end_tokens in
  let response_tokens :=
    im_start_tokens ++ snd (_tokenize_str (lit "assistant") turn_response)
    ++ im_end_tokens in
  nl_tokens ++ query_tokens ++ nl_tokens ++ response_tokens.

Definition prev_chat (turn : str * str) : str :=
  let '(turn_query, turn_response) := turn in
  nl :: im_start ++ fst (_tokenize_str (lit "user") turn_query) ++ im_end
     ++ nl :: im_start ++ fst (_tokenize_str (lit "assistant") turn_response)
     ++ im_end.

(** The loop over [reversed(history)] (lines 78 to 98); [turns] are the turns
    still to visit, most recent first; the [else] branch is the [break]. *)
Fixpoint window (system_tokens : list Z) (max_window_size : Z)
  (turns : list (str * str)) (raw_text : str) (context_tokens : list Z)
  : str * list Z :=
  match turns with
  | [] => (raw_text, context_tokens)
  | turn :: older =>
      let current_context_size :=
        (len system_tokens + len (next_context_tokens turn)
         + len context_tokens)%Z in
      if (current_context_size <? max_window_size)%Z then
        window system_tokens max_window_size older
               (prev_chat turn ++ raw_text)
               (next_context_tokens turn ++ context_tokens)
      else (raw_text, context_tokens)
  end.

Definition system_tokens_of (system : str) : list Z :=
  im_start_tokens ++ snd (_tokenize_str (lit "system") system)
  ++ im_end_tokens.

(** What is appended for the query (lines 102 to 111). *)
Definition query_tokens_of (query : str) : list Z :=
  nl_tokens ++ im_start_tokens ++ snd (_tokenize_str (lit "user") query)
  ++ im_end_tokens ++ nl_tokens ++ im_start_tokens
  ++ encode tokenizer (lit "assistant") ++ nl_tokens.

Definition make_context (query : str) (history : list (str * str))
  (system : str) (max_window_size : Z) : str * list Z :=
  let system_text := fst (_tokenize_str (lit "system") system) in
  let system_tokens := system_tokens_of system in
  let '(raw_text, context_tokens) :=
    window system_tokens max_window_size (rev history) [] [] in
  let context_tokens := system_tokens ++ context_tokens in
  let raw_text := im_start ++ system_text ++ im_end ++ raw_text in
  let context_tokens := context_tokens ++ query_tokens_of query in
  let raw_text :=
    raw_text ++ nl :: im_start ++ lit "user" ++ nl :: query ++ im_end
    ++ nl :: im_start ++ lit "assistant" ++ [nl] in
  (raw_text, context_tokens).

(** The prompt of [text_complete_last_message] before it is encoded. *)
Definition text_complete_prompt (history : list (str * str)) : str :=
  let prompt :=
    fold_left
      (fun prompt turn =>
         let query := rstrip (lstrip_nl (fst turn)) in
         let response := rstrip (lstrip_nl (snd turn)) in
         let prompt :=
           prompt ++ nl :: im_start ++ lit "user" ++ nl :: query ++ im_end in
         prompt ++ nl :: im_start ++ lit "assistant" ++ nl :: response
                ++ im_end)
      history
      (im_start ++ lit "system" ++ nl :: default_system ++ im_end) in
  slice_to prompt (- len im_end).

Definition text_complete_last_message (history : list (str * str)) : list Z :=
  encode tokenizer (text_complete_prompt history).

Variable Json : Type.
Variable json_dumps : Json -> str.

(** [render_chat], returning the [input_ids] of the [RenderedInputs]. *)
Definition render_chat (messages : list ChatMessage)
  (functions : option (list (GPTFunctionDefinition Json)))
  : result (list Z) :=
  '(query, history) <- parse_messages json_dumps messages functions ;;
  match query with
  | _TEXT_COMPLETION_CMD => Ok (text_complete_last_message history)
  | QueryStr query =>
      Ok (snd (make_context query history default_system 6144))
  end.

End Renderer.
Arguments render_chat tokenizer {Json} json_dumps messages functions.

(** * Vocabulary of the statements *)

(** No character of [s] is a newline. *)
Definition nl_free (s : str) : bool := forallb (fun c => negb (is_nl c)) s.

(** [m] and [F] differ at a position both have. *)
Fixpoint mismatch (m F : str) : bool :=
  match m, F with
  | c :: m', d :: F' => negb (char_eqb c d) || mismatch m' F'
  | _, _ => false
  end.

(** Some newline of [t] is the last character or is followed by an [A]. *)
Fixpoint nl_gap (t : str) : bool :=
  match t with
  | [] => false
  | c :: t' =>
      (is_nl c && match t' with
                  | [] => true
                  | d :: _ => char_eqb d 65%N
                  end)
      || nl_gap t'
  end.

(** The text contains none of the three markers. *)
Definition marker_free (s : str) : Prop :=
  contains ACTION s = false
  /\ contains ACTION_INPUT s = false
  /\ contains OBSERVATION s = false.

(** The content strings of the deltas of a list of yielded objects. *)
Definition contents (evs : list StreamResponseObject) : list str :=
  flat_map
    (fun ev =>
       flat_map
         (fun c => match dm_content (c_delta c) with
                   | Some s => [s]
                   | None => []
                   end)
         (choices ev))
    evs.

(** The decoded, trimmed output never gets shorter from one step to the
    next; [n] is the length reached before the first step of [pos]. *)
Fixpoint never_shrinks (n : Z) (pos : list ProcessedOutput) : Prop :=
  match pos with
  | [] => True
  | po :: pos' =>
      (n <= len (strip (output_str po)))%Z
      /\ never_shrinks (len (strip (output_str po))) pos'
  end.

(** Every decoded output extends the one before it; [prev] is the output
    before the first step of [pos]. *)
Fixpoint grows (prev : str) (pos : list ProcessedOutput) : Prop :=
  match pos with
  | [] => True
  | po :: pos' =>
      (exists t, output_str po = prev ++ t) /\ grows (output_str po) pos'
  end.

Definition responded_in_range (st : StreamState) : Prop :=
  (0 <= responded_length st <= len (output_string st))%Z.

(** The counters for a completion of [n] tokens. *)
Definition usage_for (input_token_length n : Z) : UsageInfo :=
  {| prompt_tokens := input_token_length;
     total_tokens := input_token_length + n;
     completion_tokens := n |}.

(** A message with a content and no function call. *)
Definition message (r : RoleEnum) (c : str) : ChatMessage :=
  {| role := r; content := Some c; function_call := None |}.

(** A request of three messages: a question, the assistant's function call
    with its content, and the function's result. *)
Definition call_messages (q c name args obs : str) : list ChatMessage :=
  [ message RoleEnum.user q;
    {| role := RoleEnum.assistant; content := Some c;
       function_call := Some {| fc_name := name; fc_arguments := args |} |};
    message RoleEnum.function obs ].

(** The history with the system text prefixed to the user text of its last
    turn. *)
Definition mark_last (system : str) (history : list (str * str))
  : list (str * str) :=
  match rev history with
  | [] => []
  | (u, b) :: earlier => rev earlier ++ [(with_question system u, b)]
  end.

(** What has been delivered so far is the first [responded_length]
    characters of the current output. *)
Definition delivered (st : StreamState) (acc : str) : Prop :=
  (0 <= responded_length st <= len (output_string st))%Z
  /\ (len (output_string st) <= output_length st)%Z
  /\ acc = slice_to (output_string st) (responded_length st).

(** The finish reasons, the function calls and the roles carried by a list of
    yielded objects, in order. *)
Definition reasons (evs : list StreamResponseObject)
  : list (option FinisheReason) :=
  flat_map (fun ev => map c_finish_reason (choices ev)) evs.

Definition calls (evs : list StreamResponseObject) : list FunctionCall :=
  flat_map
    (fun ev =>
       flat_map
         (fun c => match dm_function_call (c_delta c) with
                   | Some fc => [fc]
                   | None => []
                   end)
         (choices ev))
    evs.

Definition roles (evs : list StreamResponseObject) : list RoleEnum :=
  flat_map
    (fun ev =>
       flat_map
         (fun c => match dm_role (c_delta c) with
                   | Some r => [r]
                   | None => []
                   end)
         (choices ev))
    evs.

(** The roles of [l] alternate, starting with user when [expect_user] holds
    and with assistant otherwise. *)
Fixpoint alternating (expect_user : bool) (l : list Turn) : bool :=
  match l with
  | [] => true
  | t :: l' =>
      role_eqb (t_role t)
               (if expect_user then RoleEnum.user else RoleEnum.assistant)
      && alternating (negb expect_user) l'
  end.

(** Every turn of [l] is a user or an assistant turn and no assistant turn
    follows an assistant turn; [after_assistant] tells whether the turn
    before [l] was one (or whether [l] must not start with one). *)
Fixpoint no_double_assistant (after_assistant : bool) (l : list Turn) : bool :=
  match l with
  | [] => true
  | t :: l' =>
      match t_role t with
      | RoleEnum.user => no_double_assistant false l'
      | RoleEnum.assistant =>
          negb after_assistant && no_double_assistant true l'
      | _ => false
      end
  end.

(** Whether the turn before what follows [l] is an assistant turn. *)
Definition ends_with_assistant (after_assistant : bool) (l : list Turn) : bool :=
  match last_turn l with
  | None => after_assistant
  | Some t => role_eqb (t_role t) RoleEnum.assistant
  end.

(** [messages[-1].role == "user"] for the messages of a request. *)
Definition ends_with_user (messages : list ChatMessage) : bool :=
  match rev messages with
  | m :: _ => role_eqb (role m) RoleEnum.user
  | [] => false
  end.

(** An assistant message that calls a function, with its content. *)
Definition call_message (c name args : str) : ChatMessage :=
  {| role := RoleEnum.assistant; content := Some c;
     function_call := Some {| fc_name := name; fc_arguments := args |} |}.

(** ** A character-level tokenizer

    The simplest collaborators the renderer can be given, used for the
    concrete runs below: a token id is a code point, [decode] maps ids to
    characters, no stop-word ids are configured. *)

Module CharTokenizer.

Definition eos_token_id : Z := 151643.
Definition decode (ids : list Z) : str := map Z.to_N ids.
Definition encode_chars (s : str) : list Z := map Z.of_N s.
Definition _remove_stop_word_ids (ids : list Z) : list Z := ids.
Definition _check_finish_reason (ids : list Z) : option FinisheReason := None.

Definition tokenizer : QWenTokenizer :=
  {| im_start_id := 151644; im_end_id := 151645;
     encode := encode_chars; encode_plain := encode_chars |}.

(** Function definitions without parameters, printed as an empty object. *)
Definition json_dumps (parameters : unit) : str := lit "{}".

(** [render_response_stream] and its states with these collaborators, the
    given stop-word strings, and no default [usage]. *)
Definition stream (stop_words_list : list str) (input_token_length : Z)
  (outputs : list str) : list StreamResponseObject :=
  render_response_stream None input_token_length eos_token_id
    _remove_stop_word_ids _check_finish_reason decode stop_words_list
    (map encode_chars outputs).

Definition trace (stop_words_list : list str) (input_token_length : Z)
  (outputs : list str) : list StreamState :=
  stream_states None input_token_length eos_token_id
    _remove_stop_word_ids _check_finish_reason decode stop_words_list
    (map encode_chars outputs).

End CharTokenizer.

(** Both texts of a history turn are already trimmed the way the renderers
    trim them. *)
Definition trimmed_turn (turn : str * str) : Prop :=
  rstrip (lstrip_nl (fst turn)) = fst turn
  /\ rstrip (lstrip_nl (snd turn)) = snd turn.

(** ** A tokenizer with a decoder

    A character-level tokenizer whose two special tokens have ids of their
    own, which no character has, and the decoder that goes with it. *)

Module TagTokenizer.

Definition tokenizer : QWenTokenizer :=
  {| im_start_id := -1; im_end_id := -2;
     encode := fun s => map Z.of_N s;
     encode_plain := fun s => map Z.of_N s |}.

Definition decode_token (id : Z) : str :=
  if (id =? -1)%Z then im_start
  else if (id =? -2)%Z then im_end
  else [Z.to_N id].

Definition decode (ids : list Z) : str := flat_map decode_token ids.

End TagTokenizer.

(** * Properties *)

(** ** Strings *)

Section StringFacts.

Lemma char_eqb_eq (a b : char) : char_eqb a b = true <-> a = b.
Proof. apply N.eqb_eq. Qed.

Lemma char_eqb_refl (a : char) : char_eqb a a = true.
Proof. apply N.eqb_refl. Qed.

Lemma len_app {A : Type} (a b : list A) : len (a ++ b) = (len a + len b)%Z.
Proof. unfold len. rewrite length_app. lia. Qed.

Lemma len_nonneg {A : Type} (a : list A) : (0 <= len a)%Z.
Proof. unfold len. lia. Qed.

Lemma startswith_app (p t : str) : startswith (p ++ t) p = true.
Proof.
  induction p as [|x p IH]; simpl; [reflexivity|].
  now rewrite char_eqb_refl, IH.
Qed.

Lemma startswith_split (s p : str) :
  startswith s p = true -> exists t, s = p ++ t.
Proof.
  revert s. induction p as [|x p IH]; intros s H.
  - now exists s.
  - destruct s as [|y s]; simpl in H; [discriminate|].
    apply andb_true_iff in H. destruct H as [Hxy H].
    apply char_eqb_eq in Hxy. subst y.
    destruct (IH _ H) as [t ->]. now exists t.
Qed.

Lemma contains_unfold (sub s : str) :
  contains sub s = startswith s sub || contains sub (tl s).
Proof. destruct s; simpl; [now rewrite orb_false_r, orb_diag | reflexivity]. Qed.

Lemma contains_app (sub a b : str) : contains sub (a ++ sub ++ b) = true.
Proof.
  induction a as [|x a IH]; simpl.
  - now rewrite contains_unfold, startswith_app.
  - rewrite IH. apply orb_true_r.
Qed.

Lemma contains_split (sub s : str) :
  contains sub s = true -> exists a b, s = a ++ sub ++ b.
Proof.
  induction s as [|x s IH]; simpl; intros H.
  - rewrite orb_false_r in H. destruct (startswith_split _ _ H) as [t ->].
    now exists [], t.
  - apply orb_true_iff in H. destruct H as [H|H].
    + destruct (startswith_split _ _ H) as [t ->]. now exists [], t.
    + destruct (IH H) as (a & b & ->). now exists (x :: a), b.
Qed.

Lemma contains_false_prefix (sub a b : str) :
  contains sub (a ++ b) = false -> contains sub a = false.
Proof.
  intros H. destruct (contains sub a) eqn:E; [|reflexivity].
  destruct (contains_split _ _ E) as (u & v & ->).
  rewrite <- !app_assoc, contains_app in H. discriminate.
Qed.

Lemma contains_false_suffix (sub a b : str) :
  contains sub (a ++ b) = false -> contains sub b = false.
Proof.
  intros H. destruct (contains sub b) eqn:E; [|reflexivity].
  destruct (contains_split _ _ E) as (u & v & ->).
  rewrite app_assoc, contains_app in H. discriminate.
Qed.

(** *** [rfind] *)

Lemma rfind_from_none (s sub : str) (pos : nat) :
  rfind_from s sub pos = None <-> contains sub s = false.
Proof.
  revert pos. induction s as [|x s IH]; intros pos; simpl.
  - rewrite orb_false_r. destruct sub; simpl; split; congruence.
  - destruct (rfind_from s sub (S pos)) eqn:E.
    + split; [discriminate|]. intros H. apply orb_false_iff in H.
      destruct H as [_ H]. apply (proj2 (IH (S pos))) in H.
      rewrite E in H. discriminate.
    + apply (proj1 (IH (S pos))) in E. rewrite E, orb_false_r.
      destruct (startswith (x :: s) sub); split; congruence.
Qed.

Lemma rfind_from_some (s : str) (c : char) (sub' : str) (pos i : nat) :
  rfind_from s (c :: sub') pos = Some i ->
  exists a b, s = a ++ (c :: sub') ++ b /\ i = pos + length a
              /\ contains (c :: sub') (sub' ++ b) = false.
Proof.
  revert pos. induction s as [|x s IH]; intros pos; simpl.
  - discriminate.
  - destruct (rfind_from s (c :: sub') (S pos)) eqn:E.
    + intros [= ->]. destruct (IH _ E) as (a & b & -> & -> & Hno).
      exists (x :: a), b. simpl. repeat split; [lia | assumption].
    + destruct (char_eqb c x && startswith s sub') eqn:Hs; [|discriminate].
      intros [= <-]. apply andb_true_iff in Hs. destruct Hs as [Hc Hs].
      apply char_eqb_eq in Hc. subst x.
      destruct (startswith_split _ _ Hs) as [b ->].
      exists [], b. simpl. repeat split; [lia|].
      now apply (proj1 (rfind_from_none _ _ _)) in E.
Qed.

Lemma rfind_from_last (a : str) (c : char) (sub' b : str) (pos : nat) :
  contains (c :: sub') (sub' ++ b) = false ->
  rfind_from (a ++ (c :: sub') ++ b) (c :: sub') pos = Some (pos + length a).
Proof.
  intros Hno. revert pos. induction a as [|x a IH]; intros pos.
  - simpl. apply (proj2 (rfind_from_none _ _ (S pos))) in Hno. rewrite Hno.
    rewrite char_eqb_refl, startswith_app. simpl. f_equal. lia.
  - simpl. simpl in IH. rewrite IH. f_equal. lia.
Qed.

Lemma rfind_last (a : str) (c : char) (sub' b : str) :
  contains (c :: sub') (sub' ++ b) = false ->
  rfind (a ++ (c :: sub') ++ b) (c :: sub') = len a.
Proof.
  intros H. unfold rfind. now rewrite (rfind_from_last a c sub' b 0 H).
Qed.

Lemma rfind_nonneg (s : str) (c : char) (sub' : str) :
  (0 <= rfind s (c :: sub'))%Z ->
  exists a b, s = a ++ (c :: sub') ++ b /\ rfind s (c :: sub') = len a
              /\ contains (c :: sub') (sub' ++ b) = false.
Proof.
  unfold rfind. destruct (rfind_from s (c :: sub') 0) eqn:E; [|lia].
  intros _. destruct (rfind_from_some _ _ _ _ _ E) as (a & b & -> & -> & Hno).
  exists a, b. repeat split. assumption.
Qed.

Lemma rfind_absent (s sub : str) :
  contains sub s = false -> rfind s sub = (-1)%Z.
Proof.
  intros H. unfold rfind.
  apply (proj2 (rfind_from_none _ _ 0)) in H. now rewrite H.
Qed.

Lemma rfind_lower (s sub : str) : (-1 <= rfind s sub)%Z.
Proof. unfold rfind. destruct (rfind_from s sub 0); lia. Qed.

(** *** Markers: a newline followed by text without newlines *)

Lemma nl_head_false (c : char) : is_nl c = false -> char_eqb nl c = false.
Proof. unfold is_nl, char_eqb. now rewrite N.eqb_sym. Qed.

Lemma startswith_nl_tail (m x y : str) :
  nl_free m = true -> startswith (x ++ nl :: y) m = startswith x m.
Proof.
  revert x. induction m as [|c m IH]; intros x H; [reflexivity|].
  simpl in H. apply andb_true_iff in H. destruct H as [Hc H].
  apply negb_true_iff in Hc.
  destruct x as [|d x]; cbn [app startswith].
  - unfold is_nl in Hc. now rewrite Hc.
  - now rewrite IH.
Qed.

Lemma contains_nl_free_head (m F z : str) :
  nl_free F = true -> contains (nl :: m) (F ++ z) = contains (nl :: m) z.
Proof.
  induction F as [|c F IH]; intros H; [reflexivity|].
  simpl in H. apply andb_true_iff in H. destruct H as [Hc H].
  apply negb_true_iff in Hc. cbn [app contains startswith].
  now rewrite (nl_head_false _ Hc), IH.
Qed.

Lemma contains_app_nl (m x y : str) :
  nl_free m = true ->
  contains (nl :: m) (x ++ nl :: y)
  = contains (nl :: m) x || contains (nl :: m) (nl :: y).
Proof.
  intros H. induction x as [|c x IH]; [reflexivity|].
  simpl app. cbn [contains]. rewrite IH. cbn [startswith].
  rewrite (startswith_nl_tail _ _ _ H). now rewrite orb_assoc.
Qed.

(** *** Stripping *)

Lemma dropwhile_app_stop (f : char -> bool) (a : str) (c : char) (b : str) :
  f c = false -> dropwhile f (a ++ c :: b) = dropwhile f a ++ c :: b.
Proof.
  intros H. induction a as [|x a IH]; simpl.
  - now rewrite H.
  - destruct (f x); [assumption | reflexivity].
Qed.

Lemma dropwhile_split (f : char -> bool) (s : str) :
  exists w, s = w ++ dropwhile f s /\ forallb f w = true.
Proof.
  induction s as [|x s IH]; simpl.
  - now exists [].
  - destruct (f x) eqn:E.
    + destruct IH as (w & Hw & Hf). exists (x :: w). simpl.
      rewrite E, Hf. split; [now rewrite <- Hw | reflexivity].
    + now exists [].
Qed.

Lemma dropwhile_all (f : char -> bool) (w s : str) :
  forallb f w = true -> dropwhile f (w ++ s) = dropwhile f s.
Proof.
  induction w as [|x w IH]; simpl; [reflexivity|].
  intros H. apply andb_true_iff in H. destruct H as [-> H]. auto.
Qed.

Lemma dropwhile_length (f : char -> bool) (s : str) :
  length (dropwhile f s) <= length s.
Proof.
  induction s as [|x s IH]; simpl; [lia|]. destruct (f x); simpl; lia.
Qed.

Lemma rstrip_chars_keep (f : char -> bool) (x : str) (c : char) (y : str) :
  f c = false -> rstrip_chars f (x ++ c :: y) = x ++ c :: rstrip_chars f y.
Proof.
  intros H. unfold rstrip_chars.
  rewrite rev_app_distr. simpl. rewrite <- app_assoc. simpl.
  rewrite (dropwhile_app_stop f _ c _ H).
  rewrite rev_app_distr. simpl. rewrite rev_involutive, <- app_assoc.
  reflexivity.
Qed.

Lemma rstrip_chars_split (f : char -> bool) (s : str) :
  exists w, s = rstrip_chars f s ++ w /\ forallb f w = true.
Proof.
  unfold rstrip_chars.
  destruct (dropwhile_split f (rev s)) as (w & Hw & Hf).
  exists (rev w). split.
  - rewrite <- rev_app_distr, <- Hw. now rewrite rev_involutive.
  - rewrite forallb_forall in *. intros c Hc. apply Hf. now apply in_rev.
Qed.

Lemma rstrip_chars_length (f : char -> bool) (s : str) :
  length (rstrip_chars f s) <= length s.
Proof.
  unfold rstrip_chars. rewrite length_rev.
  etransitivity; [apply dropwhile_length|]. now rewrite length_rev.
Qed.

Lemma strip_length (s : str) : (len (strip s) <= len s)%Z.
Proof.
  unfold len, strip, strip_chars, lstrip_chars.
  pose proof (rstrip_chars_length is_space (dropwhile is_space s)).
  pose proof (dropwhile_length is_space s). lia.
Qed.

Lemma dropwhile_head (f : char -> bool) (s : str) (c : char) (y : str) :
  dropwhile f s = c :: y -> f c = false.
Proof.
  induction s as [|x s IH]; simpl; [discriminate|].
  destruct (f x) eqn:E; [assumption|]. now intros [= <- _].
Qed.

Lemma rstrip_chars_app_length (f : char -> bool) (x t : str) :
  length (rstrip_chars f x) <= length (rstrip_chars f (x ++ t)).
Proof.
  unfold rstrip_chars. rewrite !length_rev, rev_app_distr.
  destruct (dropwhile_split f (rev x)) as (w & Hx & Hw).
  destruct (dropwhile f (rev x)) as [|e r] eqn:E; [simpl; lia|].
  pose proof (dropwhile_head _ _ _ _ E) as He.
  rewrite Hx, app_assoc, (dropwhile_app_stop f _ e r He), length_app. lia.
Qed.

(** Trimming is monotone in length along extensions of the text. *)
Lemma strip_length_mono (s t : str) : (len (strip s) <= len (strip (s ++ t)))%Z.
Proof.
  unfold len, strip, strip_chars, lstrip_chars.
  destruct (dropwhile_split is_space s) as (w & Hs & Hw).
  destruct (dropwhile is_space s) as [|c y] eqn:E; [simpl; lia|].
  pose proof (dropwhile_head _ _ _ _ E) as Hc.
  rewrite Hs, <- app_assoc, (dropwhile_all _ _ _ Hw).
  cbn [app dropwhile]. rewrite Hc.
  pose proof (rstrip_chars_app_length is_space (c :: y) t) as H.
  cbn [app] in H. lia.
Qed.

(** *** Slices with indices in range *)

Lemma slice_to_nat {A : Type} (s : list A) (n : nat) :
  slice_to s (Z.of_nat n) = firstn n s.
Proof.
  unfold slice_to, norm_index.
  destruct (Z.ltb_spec (Z.of_nat n) 0); [lia|]. now rewrite Nat2Z.id.
Qed.

Lemma slice_from_nat {A : Type} (s : list A) (n : nat) :
  slice_from s (Z.of_nat n) = skipn n s.
Proof.
  unfold slice_from, norm_index.
  destruct (Z.ltb_spec (Z.of_nat n) 0); [lia|]. now rewrite Nat2Z.id.
Qed.

Lemma slice_nat {A : Type} (s : list A) (a b : nat) :
  slice s (Z.of_nat a) (Z.of_nat b) = skipn a (firstn b s).
Proof.
  unfold slice, norm_index.
  destruct (Z.ltb_spec (Z.of_nat a) 0); [lia|].
  destruct (Z.ltb_spec (Z.of_nat b) 0); [lia|]. now rewrite !Nat2Z.id.
Qed.

Lemma slice_to_len {A : Type} (s : list A) (b : Z) :
  (0 <= b)%Z -> len (slice_to s b) = Z.min (len s) b.
Proof.
  intros H. unfold slice_to, norm_index, len.
  destruct (Z.ltb_spec b 0); [lia|]. rewrite length_firstn. lia.
Qed.

Lemma slice_to_len_le {A : Type} (s : list A) (b : Z) :
  (0 <= len (slice_to s b) <= len s)%Z.
Proof.
  unfold slice_to, len. rewrite length_firstn. lia.
Qed.

Lemma dropwhile_idem (f : char -> bool) (s : str) :
  dropwhile f (dropwhile f s) = dropwhile f s.
Proof.
  destruct (dropwhile f s) as [|c y] eqn:E; [reflexivity|].
  simpl. now rewrite (dropwhile_head _ _ _ _ E).
Qed.

Lemma dropwhile_nil (f : char -> bool) (w : str) :
  forallb f w = true -> dropwhile f w = [].
Proof.
  intros H. rewrite <- (app_nil_r w). now rewrite dropwhile_all.
Qed.

Lemma rstrip_chars_all (f : char -> bool) (w : str) :
  forallb f w = true -> rstrip_chars f w = [].
Proof.
  intros H. unfold rstrip_chars. rewrite dropwhile_nil; [reflexivity|].
  rewrite forallb_forall in *. intros c Hc. apply H. now apply in_rev.
Qed.

Lemma rstrip_chars_idem (f : char -> bool) (s : str) :
  rstrip_chars f (rstrip_chars f s) = rstrip_chars f s.
Proof.
  unfold rstrip_chars. now rewrite rev_involutive, dropwhile_idem.
Qed.

End StringFacts.

(** ** The streaming state *)

Section StreamingFacts.

Variable default_usage : option UsageInfo.
Variable input_token_length : Z.

Local Abbreviation update := (update default_usage input_token_length).
Local Abbreviation finish := (finish input_token_length).
Local Abbreviation states := (states default_usage input_token_length).
Local Abbreviation updates := (updates default_usage input_token_length).

Lemma update_output_string (st : StreamState) (po : ProcessedOutput) :
  output_string (fst (update st po)) = strip (output_str po).
Proof.
  unfold update.
  repeat match goal with |- context [if ?b then _ else _] => destruct b end;
    reflexivity.
Qed.

Lemma update_responded_length (st : StreamState) (po : ProcessedOutput) :
  responded_length (fst (update st po)) = responded_length st
  \/ (0 <= responded_length (fst (update st po))
      <= len (strip (output_str po)))%Z.
Proof.
  unfold update.
  repeat match goal with |- context [if ?b then _ else _] => destruct b end;
    cbn; auto; right; apply slice_to_len_le.
Qed.

Lemma update_latch (st : StreamState) (po : ProcessedOutput) :
  generating_function_call st = true ->
  generating_function_call (fst (update st po)) = true.
Proof.
  intros H. unfold update.
  destruct (endswith _ _); [reflexivity|].
  cbn [set_processed generating_function_call]. now rewrite H.
Qed.

Lemma states_generating (st : StreamState) (pos : list ProcessedOutput) :
  generating_function_call st = true ->
  Forall (fun s => generating_function_call s = true) (states st pos).
Proof.
  revert st. induction pos as [|po pos IH]; intros st H; simpl.
  - constructor.
  - constructor; [|apply IH]; now apply update_latch.
Qed.

Lemma states_in_range (n : Z) (st : StreamState) (pos : list ProcessedOutput) :
  (0 <= responded_length st <= n)%Z ->
  never_shrinks n pos ->
  Forall responded_in_range (states st pos).
Proof.
  revert n st. induction pos as [|po pos IH]; intros n st Hst Hmono; simpl.
  - constructor.
  - destruct Hmono as [Hn Hmono].
    assert (Hr : (0 <= responded_length (fst (update st po))
                  <= len (strip (output_str po)))%Z).
    { destruct (update_responded_length st po) as [-> | H]; lia. }
    constructor.
    + unfold responded_in_range. now rewrite update_output_string.
    + now apply (IH (len (strip (output_str po)))).
Qed.

Lemma states_latch (st : StreamState) (pos : list ProcessedOutput)
  (i j : nat) (a b : StreamState) :
  i <= j ->
  nth_error (states st pos) i = Some a ->
  nth_error (states st pos) j = Some b ->
  generating_function_call a = true ->
  generating_function_call b = true.
Proof.
  revert st i j. induction pos as [|po pos IH]; intros st i j Hij Ha Hb Hg.
  - destruct i; discriminate.
  - simpl in Ha, Hb. destruct i as [|i].
    + injection Ha as <-. destruct j as [|j].
      * now injection Hb as <-.
      * simpl in Hb. apply nth_error_In in Hb.
        pose proof (states_generating _ pos Hg) as Hall.
        rewrite Forall_forall in Hall. now apply Hall.
    + destruct j as [|j]; [lia|]. simpl in Ha, Hb.
      apply (IH (fst (update st po)) i j); [lia | assumption ..].
Qed.

(** Outputs that extend one another never shrink once trimmed. *)
Lemma grows_never_shrinks (prev : str) (pos : list ProcessedOutput) :
  grows prev pos -> never_shrinks (len (strip prev)) pos.
Proof.
  revert prev. induction pos as [|po pos IH]; intros prev H; simpl; [exact I|].
  destruct H as [[t Ht] H]. split; [|now apply IH].
  rewrite Ht. apply strip_length_mono.
Qed.

(** C8 (as amended).  While the trimmed output never shrinks between steps,
    [0 <= responded_length <= len(output_string)] holds after every update;
    and, with no condition on the outputs, once [generating_function_call]
    is true after some update it is true after every later one. *)
Theorem responded_length_in_range_and_latch (pos : list ProcessedOutput) :
  (never_shrinks 0 pos ->
   Forall responded_in_range (states initial_state pos))
  /\ (forall i j a b,
        i <= j ->
        nth_error (states initial_state pos) i = Some a ->
        nth_error (states initial_state pos) j = Some b ->
        generating_function_call a = true ->
        generating_function_call b = true).
Proof.
  split.
  - intros H. apply (states_in_range 0); [cbn; lia | assumption].
  - intros i j a b. apply states_latch.
Qed.

(** The streaming branch of one update: what is yielded, and where
    [responded_length] ends up. *)
Lemma update_streaming (st : StreamState) (po : ProcessedOutput) :
  generating_function_call st = false ->
  endswith (strip (output_str po)) ACTION = false ->
  (len (output_str po) > responded_length st + len ACTION)%Z ->
  let s := strip (output_str po) in
  let bound := (len (output_str po) - len (lit "Action:"))%Z in
  let st' := fst (update st po) in
  snd (update st po)
  = (if (output_token_length st =? 0)%Z
     then [role_announcement default_usage st] else [])
    ++ [respond input_token_length st'
          (content_delta (slice s (responded_length st) bound)) None (index st)]
  /\ output_string st' = s
  /\ responded_string st' = slice_to s bound
  /\ responded_length st' = len (slice_to s bound).
Proof.
  intros Hg He Hlen. unfold update.
  cbn [set_processed output_string generating_function_call output_length
       responded_length].
  rewrite He, Hg.
  destruct (Z.gtb_spec (len (output_str po)) (responded_length st + len ACTION));
    [|lia].
  cbn. repeat split.
Qed.

(** C2 (as amended).  In a streaming update (the latch is off, the output
    does not end with the marker) whose decoded output has no leading or
    trailing whitespace, so that [output_string] is the decoded output
    itself, with [len(output_string) > responded_length + len("\nAction:")],
    the content delta is
    [output_string[responded_length : len(output_string) - len("Action:")]]:
    the last 7 characters are withheld, not 8, and [responded_length]
    advances to [len(output_string) - 7]. *)
Theorem update_withholds_seven (st : StreamState) (po : ProcessedOutput) :
  generating_function_call st = false ->
  strip (output_str po) = output_str po ->
  endswith (strip (output_str po)) ACTION = false ->
  (0 <= responded_length st)%Z ->
  (len (strip (output_str po)) > responded_length st + len ACTION)%Z ->
  let s := strip (output_str po) in
  let st' := fst (update st po) in
  (exists announce,
     snd (update st po)
     = announce
       ++ [respond input_token_length st'
             (content_delta (slice s (responded_length st) (len s - 7)))
             None (index st)]
     /\ contents announce = [])
  /\ output_string st' = s
  /\ responded_string st' = slice_to s (len s - 7)
  /\ responded_length st' = (len s - 7)%Z
  /\ len (slice_from s (responded_length st')) = 7%Z.
Proof.
  intros Hg Heq He Hr Hlen s st'.
  assert (Hl : len (output_str po) = len s) by (subst s; now rewrite Heq).
  assert (Hlen' : (len (output_str po) > responded_length st + len ACTION)%Z)
    by (rewrite Hl; exact Hlen).
  destruct (update_streaming st po Hg He Hlen') as (Hout & Hos & Hrs & Hrl).
  change (len (lit "Action:")) with 7%Z in *.
  change (len ACTION) with 8%Z in Hlen.
  fold s in Hlen. fold s st' in Hout, Hos, Hrs, Hrl.
  rewrite Hl in Hout, Hrs, Hrl.
  assert (Hnew : responded_length st' = (len s - 7)%Z).
  { rewrite Hrl, slice_to_len; lia. }
  repeat split.
  - eexists. split; [exact Hout|].
    destruct (output_token_length st =? 0)%Z; reflexivity.
  - exact Hos.
  - exact Hrs.
  - exact Hnew.
  - rewrite Hnew. unfold slice_from, norm_index, len in *.
    destruct (Z.ltb_spec (Z.of_nat (length s) - 7) 0); [lia|].
    rewrite length_skipn. lia.
Qed.

End StreamingFacts.

(** A run on which C2 as the spec words it fails: twelve characters arrive in
    the first step; the delta is the first five, with seven characters
    withheld; withholding [len("\nAction:") = 8] would give four. *)
Lemma update_withholds_eight_fails :
  let out := lit "abcdefghijkl" in
  generating_function_call initial_state = false
  /\ endswith (strip out) ACTION = false
  /\ (len (strip out) > responded_length initial_state + len ACTION)%Z
  /\ contents (CharTokenizer.stream [] 0 [out])
     = [lit "abcde"; lit "fghijkl"; []]
  /\ slice (strip out) (responded_length initial_state)
           (len (strip out) - len ACTION) = lit "abcd"
  /\ map responded_length (CharTokenizer.trace [] 0 [out]) = [5%Z]
  /\ (len (strip out) - len ACTION = 4)%Z.
Proof. vm_compute. repeat split. Qed.

(** Why the amended C2 speaks of outputs without surrounding whitespace
    only.  The decoded output starts with seven spaces: the trimmed string is
    sliced with the length of the untrimmed one (lines 332, 333 and 345), so
    the whole trimmed text is delivered and nothing is withheld; when the
    colon arrives the latch goes on, the extractor finds no marker in what is
    left, and the marker has reached the client as text. *)
Lemma trimming_defeats_lookahead :
  let out1 := lit "       abc" ++ nl :: lit "Action" in
  let out2 := out1 ++ lit ":" in
  generating_function_call initial_state = false
  /\ endswith (strip out1) ACTION = false
  /\ (len (strip out1) > responded_length initial_state + len ACTION)%Z
  /\ strip out1 <> out1
  /\ contents (CharTokenizer.stream [] 0 [out1])
     = [lit "abc" ++ nl :: lit "Action"; []; []]
  /\ map responded_length (CharTokenizer.trace [] 0 [out1])
     = [len (strip out1)]
  /\ contents (CharTokenizer.stream [] 0 [out1; out2])
     = [lit "abc" ++ nl :: lit "Action"; lit ":"; []]
  /\ calls (CharTokenizer.stream [] 0 [out1; out2]) = [].
Proof. vm_compute. repeat split; discriminate. Qed.

Lemma update_withholds_seven_witness :
  let st := initial_state in
  let po := {| output_str := lit "abcdefghijkl";
               po_output_token_length := 3;
               po_finish_reason := None |} in
  (exists announce,
     snd (update None 0 st po)
     = announce
       ++ [respond 0 (fst (update None 0 st po))
             (content_delta (lit "abcde")) None 0]
     /\ contents announce = [])
  /\ responded_length (fst (update None 0 st po)) = 5%Z.
Proof.
  intros st po.
  destruct (update_withholds_seven None 0 st po) as (H1 & _ & _ & H2 & _).
  - reflexivity.
  - reflexivity.
  - reflexivity.
  - vm_compute. discriminate.
  - reflexivity.
  - split; [exact H1 | exact H2].
Defined.

(** A run on which the first half of C8 as the spec words it fails.  The
    token history only grows, but the stop word [Observation:] is removed
    from the decoded text once its last character arrives: the output
    shrinks below what has been responded. *)
Lemma responded_length_exceeds_output :
  let outputs := [lit "abcdefghijklmnopqrst Observation";
                  lit "abcdefghijklmnopqrst Observation:"] in
  map (fun st => (responded_length st, len (output_string st)))
      (CharTokenizer.trace [lit "Observation:"] 0 outputs)
  = [(25%Z, 32%Z); (25%Z, 20%Z)]
  /\ ~ Forall responded_in_range
         (CharTokenizer.trace [lit "Observation:"] 0 outputs).
Proof.
  split; [vm_compute; reflexivity|].
  intros H. apply Forall_inv_tail, Forall_inv in H.
  vm_compute in H. destruct H as [_ H]. now apply H.
Qed.

Lemma responded_length_in_range_and_latch_witness :
  let pos := [ {| output_str := lit "abcdefghijkl";
                  po_output_token_length := 3; po_finish_reason := None |};
               {| output_str := lit "abcdefghijkl" ++ ACTION;
                  po_output_token_length := 5; po_finish_reason := None |} ] in
  never_shrinks 0 pos
  /\ Forall responded_in_range (states None 0 initial_state pos).
Proof.
  intros pos.
  assert (H : never_shrinks 0 pos).
  { vm_compute. repeat split; discriminate. }
  split; [exact H|].
  exact (proj1 (responded_length_in_range_and_latch None 0 pos) H).
Defined.

(** ** Usage counters *)

Section UsageFacts.

Variable default_usage : option UsageInfo.
Variable input_token_length : Z.

Local Abbreviation update := (update default_usage input_token_length).
Local Abbreviation finish := (finish input_token_length).
Local Abbreviation updates := (updates default_usage input_token_length).

Lemma update_token_length (st : StreamState) (po : ProcessedOutput) :
  output_token_length (fst (update st po)) = po_output_token_length po.
Proof.
  unfold update.
  repeat match goal with |- context [if ?b then _ else _] => destruct b end;
    reflexivity.
Qed.

Lemma update_usage (st : StreamState) (po : ProcessedOutput)
  (ev : StreamResponseObject) :
  In ev (snd (update st po)) ->
  ev = role_announcement default_usage st
  \/ usage ev = Some (usage_for input_token_length (po_output_token_length po)).
Proof.
  unfold update.
  repeat match goal with |- context [if ?b then _ else _] => destruct b end;
    cbn; intuition (subst; auto).
Qed.

Lemma finish_usage (st : StreamState) (ev : StreamResponseObject) :
  In ev (snd (finish st)) ->
  usage ev = Some (usage_for input_token_length (output_token_length st)).
Proof.
  unfold finish.
  destruct (generating_function_call st);
    [destruct (_parse_function_response _)|];
    destruct (finish_reason st);
    repeat match goal with |- context [if ?b then _ else _] => destruct b end;
    cbn; intuition (subst; auto).
Qed.

(** C9 (as amended).  The objects yielded while one generation step is
    processed are a role announcement, when the completion-token count was
    still zero as the step began (the first step, and any step after a step
    that reported no completion token), followed by objects that all carry
    [prompt_tokens = input_token_length], [completion_tokens] = the step's
    completion-token count and [total_tokens] = their sum.  The count the
    next step starts from is this step's count.  Every object yielded after
    the loop carries the counters of the count reached, that of the last
    step.  The role announcement is built without usage counters. *)
Theorem yielded_usage (st : StreamState) (po : ProcessedOutput) :
  (exists tail,
     snd (update st po)
     = (if (output_token_length st =? 0)%Z
        then [role_announcement default_usage st] else [])
       ++ tail
     /\ Forall
          (fun ev =>
             usage ev
             = Some (usage_for input_token_length (po_output_token_length po)))
          tail)
  /\ output_token_length (fst (update st po)) = po_output_token_length po
  /\ Forall
       (fun ev =>
          usage ev
          = Some (usage_for input_token_length (output_token_length st)))
       (snd (finish st))
  /\ usage (role_announcement default_usage st) = default_usage.
Proof.
  split; [|split; [apply update_token_length|split; [|reflexivity]]].
  - unfold update. cbv zeta.
    repeat match goal with
           | |- context [if ?b then (_, _) else _] => destruct b
           end;
      cbn [snd]; eexists;
      (split; [try (rewrite app_nil_r; reflexivity); reflexivity|]);
      repeat constructor.
  - apply Forall_forall. intros ev. apply finish_usage.
Qed.

(** The same over a whole run: every yielded object is a role announcement
    or carries counters whose prompt count is [input_token_length] and whose
    total is the sum. *)
Lemma updates_usage (st : StreamState) (pos : list ProcessedOutput)
  (ev : StreamResponseObject) :
  In ev (snd (updates st pos)) ->
  (exists st', ev = role_announcement default_usage st')
  \/ exists n, usage ev = Some (usage_for input_token_length n).
Proof.
  revert st. induction pos as [|po pos IH]; intros st; simpl.
  - intros [].
  - destruct (update st po) as [st1 out1] eqn:E1.
    destruct (updates st1 pos) as [st2 out2] eqn:E2.
    simpl. intros H. apply in_app_or in H. destruct H as [H|H].
    + assert (H' : In ev (snd (update st po))) by now rewrite E1.
      destruct (update_usage _ _ _ H') as [->|Hu]; eauto.
    + apply (IH st1). now rewrite E2.
Qed.

Lemma stream_processed_usage (pos : list ProcessedOutput)
  (ev : StreamResponseObject) :
  In ev (stream_processed default_usage input_token_length pos) ->
  (exists st', ev = role_announcement default_usage st')
  \/ exists n, usage ev = Some (usage_for input_token_length n).
Proof.
  unfold stream_processed.
  destruct (updates initial_state pos) as [st out] eqn:E.
  intros H. apply in_app_or in H. destruct H as [H|H].
  - apply (updates_usage initial_state pos). now rewrite E.
  - right. exists (output_token_length st). now apply finish_usage.
Qed.

End UsageFacts.

(** C9 as the spec words it fails whatever the default [usage] of a
    [StreamResponseObject] is: the role announcement of the first step is
    built before any counter is computed, so its [usage] cannot follow the
    prompt length of the request. *)
Lemma role_announcement_has_no_usage :
  ~ exists default_usage,
      forall input_token_length pos ev,
        In ev (stream_processed default_usage input_token_length pos) ->
        exists u, usage ev = Some u /\ prompt_tokens u = input_token_length.
Proof.
  intros [du H].
  set (po := {| output_str := lit "hi"; po_output_token_length := 1;
                po_finish_reason := None |}).
  set (n := match du with Some u => (prompt_tokens u + 1)%Z | None => 0%Z end).
  destruct (H n [po] (role_announcement du initial_state)) as (u & Hu & Hp).
  - left. reflexivity.
  - cbn in Hu. subst n. rewrite Hu in Hp. lia.
Qed.

(** Why the amended C9 exempts every role announcement, not the first
    object only: the first step decodes no token, so the count is still zero
    when the second step begins and the role is announced again; both
    announcements lack the counters. *)
Lemma role_announced_again_without_usage :
  let evs := CharTokenizer.stream [] 0 [[]; lit "Hello there, world"] in
  map usage evs
  = [None; None;
     Some (usage_for 0 18); Some (usage_for 0 18); Some (usage_for 0 18)]
  /\ roles evs = [RoleEnum.assistant; RoleEnum.assistant]
  /\ contents evs = [lit "Hello there"; lit ", world"; []].
Proof. vm_compute. repeat split. Qed.

(** ** What the function-call extractor returns as content *)

Section ExtractorFacts.

Lemma firstn_app_prefix {A : Type} (a b : list A) :
  firstn (length a) (a ++ b) = a.
Proof.
  rewrite firstn_app, Nat.sub_diag, firstn_all. simpl. apply app_nil_r.
Qed.

Lemma firstn_app_short {A : Type} (n : nat) (x y z : list A) :
  n <= length x -> firstn n (x ++ y) = firstn n (x ++ z).
Proof.
  intros H. rewrite !firstn_app.
  replace (n - length x) with 0 by lia. reflexivity.
Qed.

Lemma colon_not_space : is_space 58%N = false.
Proof. reflexivity. Qed.

Lemma rstrip_chars_keep_last (f : char -> bool) (a p : str) (c : char)
  (b : str) :
  f c = false ->
  rstrip_chars f (a ++ (p ++ [c]) ++ b) = a ++ (p ++ [c]) ++ rstrip_chars f b.
Proof.
  intros H.
  replace (a ++ (p ++ [c]) ++ b) with ((a ++ p) ++ c :: b)
    by (now rewrite <- !app_assoc).
  rewrite (rstrip_chars_keep _ _ _ _ H). now rewrite <- !app_assoc.
Qed.

(** [rstrip] cannot remove an [Action Input:] marker, which ends in a colon. *)
Lemma rstrip_keeps_action_input (a b : str) :
  rstrip (a ++ ACTION_INPUT ++ b) = a ++ ACTION_INPUT ++ rstrip b.
Proof.
  unfold rstrip.
  change ACTION_INPUT with ((nl :: lit "Action Input") ++ [58%N]).
  apply (rstrip_chars_keep_last _ _ _ _ _ colon_not_space).
Qed.

Lemma extractor_content (r : str) (fm : DeltaMessage) :
  _parse_function_response r = Some fm ->
  exists content rest,
    dm_content fm = Some content
    /\ r = content ++ ACTION ++ rest
    /\ contains ACTION rest = false.
Proof.
  unfold _parse_function_response.
  destruct ((0 <=? rfind r ACTION) && (rfind r ACTION <? rfind r ACTION_INPUT))%Z
    eqn:C; [|discriminate].
  apply andb_true_iff in C. destruct C as [Hi Hij].
  apply Z.leb_le in Hi. apply Z.ltb_lt in Hij.
  destruct (rfind_nonneg r nl (lit "Action:") Hi) as (a & b & Hr & Hia & Hno).
  assert (Hj : (0 <= rfind r (nl :: lit "Action Input:"))%Z)
    by (unfold ACTION, ACTION_INPUT in *; lia).
  destruct (rfind_nonneg r nl (lit "Action Input:") Hj)
    as (a' & b' & Hr' & Hja & _).
  match goal with
  | |- context [strip (slice ?resp ?x ?y)] =>
      destruct (strip (slice resp x y)); [discriminate|]
  end.
  intros [= <-]. cbn [dm_content].
  exists a, b. repeat split.
  - f_equal. unfold ACTION in *. rewrite Hia. unfold len.
    rewrite slice_to_nat.
    destruct (rfind r OBSERVATION <? rfind r ACTION_INPUT)%Z.
    + assert (Hlen : length a <= length (rstrip r)).
      { rewrite Hr' at 1.
        change (nl :: lit "Action Input:") with ACTION_INPUT.
        rewrite rstrip_keeps_action_input, length_app.
        unfold ACTION_INPUT in Hij. rewrite Hia, Hja in Hij.
        unfold len in Hij. lia. }
      destruct (rstrip_chars_split is_space r) as (w & Hw & _).
      fold (rstrip r) in Hw.
      rewrite (firstn_app_short _ _ _ w Hlen), <- Hw.
      rewrite Hr at 1. apply firstn_app_prefix.
    + rewrite Hr at 1. apply firstn_app_prefix.
  - exact Hr.
  - unfold ACTION.
    now rewrite <- (contains_nl_free_head (lit "Action:") (lit "Action:") b).
Qed.

End ExtractorFacts.

(** ** What reaches the client once the latch is on *)

Section BufferingFacts.

Variable default_usage : option UsageInfo.
Variable input_token_length : Z.

Local Abbreviation update := (update default_usage input_token_length).
Local Abbreviation finish := (finish input_token_length).
Local Abbreviation updates := (updates default_usage input_token_length).

Lemma contents_app (a b : list StreamResponseObject) :
  contents (a ++ b) = contents a ++ contents b.
Proof. apply flat_map_app. Qed.

Lemma update_silent (st : StreamState) (po : ProcessedOutput) :
  generating_function_call (fst (update st po)) = true ->
  contents (snd (update st po)) = [].
Proof.
  unfold update.
  destruct (output_token_length st =? 0)%Z;
    destruct (endswith _ _); try reflexivity;
    cbn [set_processed generating_function_call];
    destruct (generating_function_call st) eqn:Hg; try reflexivity;
    destruct (_ >? _)%Z; cbn; congruence.
Qed.

Lemma updates_latch (st : StreamState) (pos : list ProcessedOutput) :
  generating_function_call st = true ->
  generating_function_call (fst (updates st pos)) = true.
Proof.
  revert st. induction pos as [|po pos IH]; intros st H; simpl; [assumption|].
  pose proof (update_latch default_usage input_token_length st po H) as H1.
  specialize (IH _ H1).
  destruct (update st po) as [st1 out1]. cbn [fst] in IH.
  destruct (updates st1 pos) as [st2 out2]. exact IH.
Qed.

Lemma updates_silent (st : StreamState) (pos : list ProcessedOutput) :
  generating_function_call st = true ->
  contents (snd (updates st pos)) = [].
Proof.
  revert st. induction pos as [|po pos IH]; intros st H; simpl; [reflexivity|].
  pose proof (update_latch default_usage input_token_length st po H) as H1.
  pose proof (update_silent st po H1) as H2.
  specialize (IH _ H1).
  destruct (update st po) as [st1 out1]. cbn [fst snd] in IH, H2.
  destruct (updates st1 pos) as [st2 out2].
  cbn [snd] in *. now rewrite contents_app, H2, IH.
Qed.

Lemma finish_contents (st : StreamState) :
  generating_function_call st = true ->
  let suffix := slice_from (output_string st) (responded_length st) in
  match _parse_function_response suffix with
  | Some _ =>
      exists content rest,
        suffix = content ++ ACTION ++ rest
        /\ contains ACTION rest = false
        /\ contents (snd (finish st)) = [content; []]
  | None =>
      contents (snd (finish st))
      = (if (responded_length st <? output_length st)%Z then [suffix] else [])
        ++ [[]]
  end.
Proof.
  intros Hg suffix. unfold finish. rewrite Hg. fold suffix.
  destruct (_parse_function_response suffix) as [fm|] eqn:E.
  - destruct (extractor_content _ _ E) as (content & rest & Hc & Hs & Hno).
    exists content, rest. repeat split; [assumption ..|].
    cbn [set_responded set_finish_reason finish_reason responded_length
         output_length].
    rewrite Z.ltb_irrefl. cbn. now rewrite Hc.
  - destruct (finish_reason st);
      destruct (responded_length st <? output_length st)%Z eqn:C;
      cbn; rewrite ?C; reflexivity.
Qed.

(** C1 (as amended).  From the update that leaves the latch on, no update
    yields a content delta.  After the loop, when the extractor succeeds on
    the unflushed suffix, the only contents yielded are the suffix cut before
    its last [\nAction:] (in the function-call delta) and the empty terminal
    content, and no final flush follows; when it fails, the final flush
    yields the unflushed suffix as it is.  Nothing is said of the deltas
    yielded before the latch went on. *)
Theorem buffered_text_release (st0 : StreamState) (po : ProcessedOutput)
  (pos : list ProcessedOutput) :
  generating_function_call (fst (update st0 po)) = true ->
  let st := fst (update st0 po) in
  let st_end := fst (updates st pos) in
  let suffix := slice_from (output_string st_end) (responded_length st_end) in
  contents (snd (update st0 po)) = []
  /\ contents (snd (updates st pos)) = []
  /\ match _parse_function_response suffix with
     | Some _ =>
         exists content rest,
           suffix = content ++ ACTION ++ rest
           /\ contains ACTION rest = false
           /\ contents (snd (finish st_end)) = [content; []]
     | None =>
         contents (snd (finish st_end))
         = (if (responded_length st_end <? output_length st_end)%Z
            then [suffix] else [])
           ++ [[]]
     end.
Proof.
  intros H st st_end suffix. split; [|split].
  - now apply update_silent.
  - now apply updates_silent.
  - apply finish_contents. now apply updates_latch.
Qed.

End BufferingFacts.

(** A run on which C1 as the spec words it fails: the model writes
    [\nAction:], the latch goes on, and the stream ends without an
    [Action Input:].  Extraction fails and the final flush yields the
    buffered text, marker included. *)
Lemma marker_leaks_when_extraction_fails :
  let outputs := [lit "Hi" ++ ACTION; lit "Hi" ++ ACTION ++ lit " search"] in
  map generating_function_call (CharTokenizer.trace [] 0 outputs)
  = [true; true]
  /\ contents (CharTokenizer.stream [] 0 outputs)
     = [lit "Hi" ++ ACTION ++ lit " search"; []]
  /\ contains ACTION (lit "Hi" ++ ACTION ++ lit " search") = true.
Proof. vm_compute. repeat split. Qed.

Lemma buffered_text_release_witness :
  let po := {| output_str := lit "Hi" ++ ACTION; po_output_token_length := 3;
               po_finish_reason := None |} in
  let po' := {| output_str := lit "Hi" ++ ACTION ++ lit " f" ++ ACTION_INPUT
                              ++ lit " {}";
                po_output_token_length := 9; po_finish_reason := None |} in
  generating_function_call (fst (update None 0 initial_state po)) = true
  /\ contents (snd (update None 0 initial_state po)) = []
  /\ contents (snd (updates None 0 (fst (update None 0 initial_state po))
                      [po'])) = [].
Proof.
  intros po po'.
  assert (H : generating_function_call (fst (update None 0 initial_state po))
              = true) by reflexivity.
  destruct (buffered_text_release None 0 initial_state po [po'] H)
    as (H1 & H2 & _).
  exact (conj H (conj H1 H2)).
Defined.

(** ** The last normalized message *)

Section TurnFacts.

Lemma last_turn_snoc (l : list Turn) (t : Turn) : last_turn (l ++ [t]) = Some t.
Proof. unfold last_turn. now rewrite rev_app_distr. Qed.

Lemma last_turn_cons (t : Turn) (l : list Turn) :
  last_turn (t :: l)
  = match last_turn l with None => Some t | Some u => Some u end.
Proof.
  unfold last_turn. simpl. destruct (rev l); reflexivity.
Qed.

Lemma append_last_roles (l : list Turn) (s : str) :
  map t_role (append_last l s) = map t_role l.
Proof.
  induction l as [|t l IH]; [reflexivity|].
  destruct l as [|u l]; [reflexivity|].
  cbn [append_last map] in *. now rewrite IH.
Qed.

Lemma last_turn_app (x y : list Turn) :
  y <> [] -> last_turn (x ++ y) = last_turn y.
Proof.
  intros H. unfold last_turn. rewrite rev_app_distr.
  destruct (rev y) as [|t r] eqn:E; [|reflexivity].
  apply (f_equal (@rev Turn)) in E. rewrite rev_involutive in E.
  now contradiction H.
Qed.

Lemma last_turn_split (l : list Turn) (t : Turn) :
  last_turn l = Some t -> exists front, l = front ++ [t].
Proof.
  unfold last_turn. destruct (rev l) as [|u r] eqn:E; [discriminate|].
  intros [= ->]. exists (rev r).
  apply (f_equal (@rev Turn)) in E. now rewrite rev_involutive in E.
Qed.

Lemma append_last_snoc (x : list Turn) (t : Turn) (s : str) :
  append_last (x ++ [t]) s
  = x ++ [ {| t_role := t_role t; t_content := t_content t ++ s |} ].
Proof.
  induction x as [|u x IH]; [reflexivity|].
  cbn [app append_last]. rewrite IH. now destruct x.
Qed.

Lemma append_last_app (x y : list Turn) (s : str) :
  y <> [] -> append_last (x ++ y) s = x ++ append_last y s.
Proof.
  intros H. destruct (rev y) as [|t r] eqn:E.
  - apply (f_equal (@rev Turn)) in E. rewrite rev_involutive in E.
    now contradiction H.
  - apply (f_equal (@rev Turn)) in E. rewrite rev_involutive in E.
    simpl in E. subst y.
    now rewrite app_assoc, !append_last_snoc, app_assoc.
Qed.

Lemma append_last_last (l : list Turn) (t : Turn) (s : str) :
  last_turn l = Some t ->
  last_turn (append_last l s)
  = Some {| t_role := t_role t; t_content := t_content t ++ s |}.
Proof.
  intros H. destruct (last_turn_split _ _ H) as [front ->].
  now rewrite append_last_snoc, last_turn_snoc.
Qed.

(** The system text left over by the history loop: all of it when there was
    no pair, none otherwise. *)
Lemma pair_up_leftover (n : nat) :
  forall (messages : list Turn) (system : str) (h0 : list (str * str))
         (left_over : str) (h : list (str * str)),
    length messages <= n ->
    pair_up messages system h0 = Ok (left_over, h) ->
    left_over = match messages with [] => system | _ :: _ => [] end.
Proof.
  induction n as [|n IH]; intros messages system h0 left_over h Hn H.
  - destruct messages; [|simpl in Hn; lia].
    simpl in H. now injection H as <- _.
  - destruct messages as [|mi [|mi1 rest]].
    + simpl in H. now injection H as <- _.
    + simpl in H. destruct (role_eqb (t_role mi) RoleEnum.user); discriminate.
    + cbn [pair_up] in H.
      destruct (role_eqb (t_role mi) RoleEnum.user); [|discriminate].
      destruct (role_eqb (t_role mi1) RoleEnum.assistant); [|discriminate].
      simpl in Hn.
      destruct system as [|c system]; [|destruct rest as [|r rest]].
      * apply IH in H; [|lia]. rewrite H. now destruct rest.
      * simpl in H. now injection H as <- _.
      * apply IH in H; [|simpl in Hn |- *; lia]. exact H.
Qed.

Lemma pair_up_accepts (n : nat) :
  forall (messages : list Turn) (system : str) (h0 : list (str * str)),
    length messages <= n ->
    (exists left_over h, pair_up messages system h0 = Ok (left_over, h))
    <-> alternating true messages = true
        /\ Nat.even (length messages) = true.
Proof.
  induction n as [|n IH]; intros messages system h0 Hn.
  - destruct messages; [|simpl in Hn; lia].
    split; [now split | intros _; simpl; eauto].
  - destruct messages as [|mi [|mi1 rest]].
    + split; [now split | intros _; simpl; eauto].
    + split.
      * intros (s & h & H). simpl in H.
        destruct (role_eqb (t_role mi) RoleEnum.user); discriminate.
      * intros [_ H]. discriminate.
    + cbn [pair_up alternating negb length Nat.even].
      destruct (role_eqb (t_role mi) RoleEnum.user);
        [|split; [intros (s & h & H); discriminate | intros [H _]; discriminate]].
      destruct (role_eqb (t_role mi1) RoleEnum.assistant);
        [|split; [intros (s & h & H); discriminate | intros [H _]; discriminate]].
      cbn [andb]. simpl in Hn.
      destruct system as [|c system]; [|destruct rest as [|r rest]];
        apply IH; simpl in Hn |- *; lia.
Qed.

Lemma alternating_snoc (b : bool) (l : list Turn) (t : Turn) :
  alternating b (l ++ [t])
  = alternating b l
    && role_eqb (t_role t)
         (if Bool.eqb (Nat.even (length l)) b
          then RoleEnum.user else RoleEnum.assistant).
Proof.
  revert b. induction l as [|x l IH]; intros b.
  - cbn. destruct b; now rewrite andb_true_r.
  - cbn [app alternating length]. rewrite IH, Nat.even_succ, <- Nat.negb_even.
    rewrite andb_assoc. do 2 f_equal.
    destruct (Nat.even (length l)), b; reflexivity.
Qed.

(** The history is extracted exactly from non-empty messages whose roles
    alternate, user first. *)
Lemma extract_history_accepts (system : str) (messages : list Turn) :
  (exists query history,
     extract_history system messages = Ok (query, history))
  <-> messages <> [] /\ alternating true messages = true.
Proof.
  destruct (rev messages) as [|t rl] eqn:E.
  - apply (f_equal (@rev Turn)) in E. rewrite rev_involutive in E.
    simpl in E. subst messages. split.
    + intros (q & h & H). discriminate.
    + intros [H _]. congruence.
  - apply (f_equal (@rev Turn)) in E. rewrite rev_involutive in E.
    simpl in E. set (l := rev rl) in *. subst messages.
    unfold extract_history. rewrite last_turn_snoc, removelast_last.
    rewrite alternating_snoc.
    destruct (role_eqb (t_role t) RoleEnum.user) eqn:Er; cbn [bind].
    + assert (Ht : t_role t = RoleEnum.user)
        by (destruct (t_role t); try discriminate Er; reflexivity).
      rewrite Ht. split.
      * intros (q & h & H). split; [now destruct l|].
        destruct (pair_up l system []) as [[s' h']|e] eqn:Ep; [|discriminate].
        destruct (proj1 (pair_up_accepts _ l system [] (le_n _))
                    (ex_intro _ s' (ex_intro _ h' Ep))) as [Ha He].
        rewrite Ha, He. reflexivity.
      * intros [_ H]. apply andb_true_iff in H. destruct H as [Ha Hr].
        destruct (Nat.even (length l)) eqn:He; [|discriminate].
        destruct (proj2 (pair_up_accepts _ l system [] (le_n _))
                    (conj Ha He)) as (s' & h' & Ep).
        rewrite Ep. cbn [bind].
        destruct s'; eexists; eexists; reflexivity.
    + split.
      * intros (q & h & H). split; [now destruct l|].
        destruct (pair_up (l ++ [t]) system []) as [[s' h']|e] eqn:Ep;
          [|discriminate].
        destruct (proj1 (pair_up_accepts _ (l ++ [t]) system [] (le_n _))
                    (ex_intro _ s' (ex_intro _ h' Ep))) as [Ha He].
        rewrite alternating_snoc in Ha. exact Ha.
      * intros [_ H]. pose proof H as H'.
        apply andb_true_iff in H'. destruct H' as [Ha Hr].
        destruct (Nat.even (length l)) eqn:He;
          [cbn in Hr; congruence|].
        assert (Hev : Nat.even (length (l ++ [t])) = true).
        { rewrite length_app. cbn [length].
          replace (length l + 1) with (S (length l)) by lia.
          now rewrite Nat.even_succ, <- Nat.negb_even, He. }
        assert (Hal : alternating true (l ++ [t]) = true).
        { rewrite alternating_snoc, He. exact H. }
        destruct (proj2 (pair_up_accepts _ (l ++ [t]) system [] (le_n _))
                    (conj Hal Hev)) as (s' & h' & Ep).
        rewrite Ep. cbn [bind].
        pose proof (pair_up_leftover _ _ _ _ _ _ (le_n _) Ep) as Hs.
        destruct (l ++ [t]) eqn:El; [now destruct l|]. subst s'.
        eexists. eexists. reflexivity.
Qed.

End TurnFacts.

(** ** The normalizer: rejected conversations *)

Section RejectionFacts.

Variable tokenizer : QWenTokenizer.
Variable Json : Type.
Variable json_dumps : Json -> str.

(** C10.  The empty message list is rejected with the error "At least one
    message must be from user.": the [all(...)] test holds vacuously over the
    empty list and raises first; [messages[0]], which would raise an
    [IndexError] on the empty list, is never read, so the failure is this
    [ValueError], from [parse_messages] and from [render_chat] alike. *)
Theorem empty_messages_rejected
  (functions : option (list (GPTFunctionDefinition Json))) :
  forallb (fun m => negb (role_eqb (role m) RoleEnum.user)) [] = true
  /\ extract_system [] = Raise IndexError
  /\ parse_messages json_dumps [] functions
     = Raise (ValueError (lit "At least one message must be from user."))
  /\ render_chat tokenizer json_dumps [] functions
     = Raise (ValueError (lit "At least one message must be from user.")).
Proof.
  split; [reflexivity|]. split; [reflexivity|].
  assert (H : parse_messages json_dumps [] functions = Raise no_user_error).
  { unfold parse_messages. cbn [forallb]. reflexivity. }
  split; [exact H|]. unfold render_chat. now rewrite H.
Qed.

Lemma parse_messages_requires_user (messages : list ChatMessage)
  (functions : option (list (GPTFunctionDefinition Json))) :
  forallb (fun m => negb (role_eqb (role m) RoleEnum.user)) messages = true ->
  parse_messages json_dumps messages functions = Raise no_user_error.
Proof. intros H. unfold parse_messages. now rewrite H. Qed.

Lemma trim_idem (s : str) :
  rstrip (lstrip_nl (rstrip (lstrip_nl s))) = rstrip (lstrip_nl s).
Proof.
  unfold lstrip_nl, lstrip_chars, rstrip.
  destruct (rstrip_chars is_space (dropwhile is_nl s)) as [|c y] eqn:Ey;
    [reflexivity|].
  destruct (rstrip_chars_split is_space (dropwhile is_nl s)) as (w & Hx & _).
  rewrite Ey in Hx.
  cbn [dropwhile]. rewrite (dropwhile_head is_nl s c (y ++ w) Hx).
  rewrite <- Ey. apply rstrip_chars_idem.
Qed.

Lemma ends_with_user_cons (m x : ChatMessage) (rest : list ChatMessage) :
  ends_with_user (m :: x :: rest) = ends_with_user (x :: rest).
Proof.
  unfold ends_with_user. cbn [rev].
  destruct (rev rest ++ [x]) as [|y l] eqn:E; [|reflexivity].
  now destruct (rev rest).
Qed.

(** The last normalized message is a user message exactly when the last
    message of the request is one. *)
Lemma normalize_last_role (fg : bool) (messages : list ChatMessage) :
  forall acc out,
    messages <> [] ->
    normalize fg messages acc = Ok out ->
    exists l,
      last_turn out = Some l
      /\ role_eqb (t_role l) RoleEnum.user = ends_with_user messages.
Proof.
  induction messages as [|m rest IH]; intros acc out Hne H; [congruence|].
  destruct rest as [|x rest].
  - clear IH Hne. unfold ends_with_user. cbn [rev app normalize] in *.
    destruct (role m).
    + injection H as <-. eexists. split; [apply last_turn_snoc | reflexivity].
    + destruct (last_turn acc) as [l|] eqn:El; [|discriminate].
      injection H as <-.
      destruct (role_eqb (t_role l) RoleEnum.user) eqn:Er.
      * eexists. split; [apply last_turn_snoc | reflexivity].
      * eexists. split; [apply (append_last_last _ _ _ El) | exact Er].
    + discriminate.
    + destruct (last_turn acc) as [l|] eqn:El; [|discriminate].
      destruct (role_eqb (t_role l) RoleEnum.assistant) eqn:Er;
        [|discriminate].
      injection H as <-.
      eexists. split.
      * apply append_last_last. apply (append_last_last _ _ _ El).
      * cbn [t_role]. now destruct (t_role l).
    + discriminate.
  - rewrite ends_with_user_cons.
    change (normalize fg (m :: x :: rest) acc) with
      (let content := match content m with Some s => s | None => [] end in
       match role m with
       | RoleEnum.function =>
           match last_turn acc with
           | None => Raise function_order_error
           | Some l =>
               if negb (role_eqb (t_role l) RoleEnum.assistant)
               then Raise function_order_error
               else
                 normalize fg (x :: rest)
                   (append_last acc (nl :: lit "Observation: " ++ content))
           end
       | RoleEnum.assistant =>
           match last_turn acc with
           | None => Raise assistant_order_error
           | Some l =>
               let content :=
                 assistant_content fg (t_content l) content
                                   (function_call m) in
               normalize fg (x :: rest)
                 (if role_eqb (t_role l) RoleEnum.user then
                    acc ++ [ {| t_role := RoleEnum.assistant;
                                t_content := rstrip (lstrip_nl content) |} ]
                  else append_last acc content)
           end
       | RoleEnum.user =>
           normalize fg (x :: rest)
             (acc ++ [ {| t_role := RoleEnum.user;
                          t_content := rstrip (lstrip_nl content) |} ])
       | r => Raise (incorrect_role_error r)
       end) in H.
    cbv zeta in H. destruct (role m).
    + now apply IH in H.
    + destruct (last_turn acc); [|discriminate]. now apply IH in H.
    + discriminate.
    + destruct (last_turn acc) as [l|]; [|discriminate].
      destruct (negb (role_eqb (t_role l) RoleEnum.assistant));
        [discriminate|].
      now apply IH in H.
    + discriminate.
Qed.

(** A request that is accepted yields a query exactly when its last message
    is a user message. *)
Lemma parse_messages_query (messages : list ChatMessage)
  (functions : option (list (GPTFunctionDefinition Json)))
  (query : Query) (history : list (str * str)) :
  parse_messages json_dumps messages functions = Ok (query, history) ->
  match query with
  | QueryStr _ => ends_with_user messages = true
  | _TEXT_COMPLETION_CMD => ends_with_user messages = false
  end.
Proof.
  unfold parse_messages.
  destruct (forallb _ messages); [discriminate|].
  destruct (extract_system messages) as [[s0 rest]|e] eqn:Es; [|discriminate].
  cbn [bind].
  destruct (normalize (functions_given functions) rest []) as [out|e] eqn:En;
    [|discriminate].
  cbn [bind]. intros H.
  assert (Hrest : rest <> []).
  { intros ->. simpl in En. injection En as <-. discriminate H. }
  assert (He : ends_with_user messages = ends_with_user rest).
  { unfold extract_system in Es. destruct messages as [|m0 tl]; [discriminate|].
    destruct (role_eqb (role m0) RoleEnum.system).
    - destruct (content m0); [|discriminate]. injection Es as _ <-.
      destruct tl as [|x tl]; [congruence|]. apply ends_with_user_cons.
    - now injection Es as _ <-. }
  destruct (normalize_last_role _ _ _ _ Hrest En) as (l & Hl & Hr).
  rewrite He, <- Hr. unfold extract_history in H. rewrite Hl in H.
  destruct (role_eqb (t_role l) RoleEnum.user); cbn [bind] in H.
  - destruct (pair_up (removelast out) _ []) as [[s' h']|e];
      [|discriminate].
    cbn [bind] in H. destruct s'; injection H as <- _; reflexivity.
  - destruct (pair_up out _ []) as [[s' h']|e]; [|discriminate].
    cbn [bind] in H. destruct s'; [|discriminate].
    injection H as <- _. reflexivity.
Qed.

(** C6 (as amended).  A message list without a user message, such as
    [[assistant("partial answer")]], makes [render_chat] fail with "At least
    one message must be from user." before either rendering path is chosen.
    For a request that [parse_messages] accepts, the path is chosen by the
    last message: when it is a user message the result is a query and
    [render_chat] returns the tokens of [make_context]; when it is not (an
    assistant or function message) the result is the text-completion command
    and [render_chat] returns [text_complete_last_message] of the history.
    So [[user(q), assistant(a)]] with no functions is rendered by
    continuation, from the one turn [(q, a)] with both texts trimmed. *)
Theorem render_chat_requires_user (messages : list ChatMessage)
  (functions : option (list (GPTFunctionDefinition Json))) :
  (forallb (fun m => negb (role_eqb (role m) RoleEnum.user)) messages = true ->
   render_chat tokenizer json_dumps messages functions = Raise no_user_error)
  /\ (forall query history,
        parse_messages json_dumps messages functions = Ok (query, history) ->
        if ends_with_user messages then
          exists q,
            query = QueryStr q
            /\ render_chat tokenizer json_dumps messages functions
               = Ok (snd (make_context tokenizer q history default_system 6144))
        else
          query = _TEXT_COMPLETION_CMD
          /\ render_chat tokenizer json_dumps messages functions
             = Ok (text_complete_last_message tokenizer history))
  /\ (forall q a,
        render_chat tokenizer json_dumps
          [message RoleEnum.user q; message RoleEnum.assistant a] None
        = Ok (text_complete_last_message tokenizer
                [(rstrip (lstrip_nl q),
                  strip_dummy_thought (rstrip (lstrip_nl a)))])).
Proof.
  split; [|split].
  - intros H. unfold render_chat.
    now rewrite (parse_messages_requires_user _ _ H).
  - intros query history H.
    pose proof (parse_messages_query _ _ _ _ H) as Hq.
    unfold render_chat. rewrite H. cbn [bind].
    destruct query as [|q]; rewrite Hq.
    + now split.
    + now exists q.
  - intros q a. unfold render_chat, parse_messages.
    cbn [forallb message role role_eqb negb andb extract_system bind
         content fold_functions functions_given normalize last_turn rev app
         function_call assistant_content t_role].
    unfold extract_history.
    cbn [last_turn rev app t_role role_eqb bind pair_up t_content].
    now rewrite !trim_idem.
Qed.

(** C7, the failing case.  Two user messages in a row at the end leave one
    unpaired user message after the query is taken off; the history loop
    then reads [messages[i + 1]] past the end of the list, and the request
    fails with [IndexError], not with the [ValueError] of a pairing mismatch. *)
Theorem unpaired_user_raises_index_error
  (functions : option (list (GPTFunctionDefinition Json))) (a b : str) :
  parse_messages json_dumps
    [message RoleEnum.user a; message RoleEnum.user b] functions
  = Raise IndexError.
Proof.
  unfold parse_messages.
  cbn [forallb message role role_eqb negb andb extract_system bind content].
  cbn [normalize message role content app]. cbn [bind].
  unfold extract_history.
  cbn [last_turn rev app t_role role_eqb bind removelast pair_up]. reflexivity.
Qed.

(** The history loop fails in no other way than these two. *)
Lemma pair_up_raises (n : nat) :
  forall (messages : list Turn) (system : str) (history : list (str * str))
         (e : exn),
    List.length messages <= n ->
    pair_up messages system history = Raise e ->
    e = IndexError \/ e = pairing_error.
Proof.
  induction n as [|n IH]; intros messages system history e Hn H.
  - destruct messages; [discriminate | simpl in Hn; lia].
  - destruct messages as [|mi [|mi1 rest]]; simpl in H.
    + discriminate.
    + destruct (role_eqb (t_role mi) RoleEnum.user); injection H as <-; auto.
    + destruct (role_eqb (t_role mi) RoleEnum.user);
        [|injection H as <-; auto].
      destruct (role_eqb (t_role mi1) RoleEnum.assistant);
        [|injection H as <-; auto].
      simpl in Hn.
      destruct system as [|c system']; [|destruct rest];
        (eapply IH; [|exact H]; simpl in *; lia).
Qed.

End RejectionFacts.

(** C6 as the spec words it fails: the lone assistant message is rejected,
    so [render_chat] returns no prompt at all, by continuation or otherwise. *)
Lemma lone_assistant_message_rejected :
  let messages := [message RoleEnum.assistant (lit "partial answer")] in
  render_chat CharTokenizer.tokenizer CharTokenizer.json_dumps messages None
  = Raise (ValueError (lit "At least one message must be from user."))
  /\ ~ exists history,
         render_chat CharTokenizer.tokenizer CharTokenizer.json_dumps
                     messages None
         = Ok (text_complete_last_message CharTokenizer.tokenizer history).
Proof.
  split; [reflexivity|]. intros [history H]. discriminate H.
Qed.

Lemma render_chat_requires_user_witness :
  render_chat CharTokenizer.tokenizer CharTokenizer.json_dumps
    [message RoleEnum.assistant (lit "partial answer")] None
  = Raise no_user_error
  /\ render_chat CharTokenizer.tokenizer CharTokenizer.json_dumps
       [message RoleEnum.user (lit "Tell me a story");
        message RoleEnum.assistant (lit "Once upon a time")] None
     = Ok (text_complete_last_message CharTokenizer.tokenizer
             [(lit "Tell me a story", lit "Once upon a time")]).
Proof.
  split.
  - apply (render_chat_requires_user CharTokenizer.tokenizer
             unit CharTokenizer.json_dumps
             [message RoleEnum.assistant (lit "partial answer")] None).
    reflexivity.
  - refine (proj2
              (proj1 (proj2 (render_chat_requires_user CharTokenizer.tokenizer
                               unit CharTokenizer.json_dumps
                               [message RoleEnum.user (lit "Tell me a story");
                                message RoleEnum.assistant
                                  (lit "Once upon a time")] None))
                     _TEXT_COMPLETION_CMD
                     [(lit "Tell me a story", lit "Once upon a time")] _)).
    reflexivity.
Defined.

(** ** The normalizer: where the system text goes *)

Section SystemFacts.

Lemma mark_last_snoc (system : str) (history : list (str * str)) (u b : str) :
  mark_last system (history ++ [(u, b)])
  = history ++ [(with_question system u, b)].
Proof.
  unfold mark_last. rewrite rev_app_distr. simpl. now rewrite rev_involutive.
Qed.

(** The history loop with a system text, from the history loop without:
    the text is consumed by the last pair and by no other. *)
Lemma pair_up_system (n : nat) :
  forall (messages : list Turn) (h0 : list (str * str))
         (left_over : str) (plain : list (str * str)),
    List.length messages <= n ->
    pair_up messages [] h0 = Ok (left_over, plain) ->
    left_over = []
    /\ (exists new, plain = h0 ++ new /\ (messages <> [] -> new <> []))
    /\ forall c system,
         pair_up messages (c :: system) h0
         = Ok (match messages with
               | [] => (c :: system, h0)
               | _ :: _ => ([], mark_last (c :: system) plain)
               end).
Proof.
  induction n as [|n IH]; intros messages h0 left_over plain Hn H.
  - destruct messages; [|simpl in Hn; lia].
    simpl in H. injection H as <- <-. repeat split.
    exists []. split; [now rewrite app_nil_r | congruence].
  - destruct messages as [|mi [|mi1 rest]].
    + simpl in H. injection H as <- <-. repeat split.
      exists []. split; [now rewrite app_nil_r | congruence].
    + simpl in H. destruct (role_eqb (t_role mi) RoleEnum.user); discriminate.
    + cbn [pair_up] in H |- *.
      destruct (role_eqb (t_role mi) RoleEnum.user); [|discriminate].
      destruct (role_eqb (t_role mi1) RoleEnum.assistant); [|discriminate].
      destruct (IH rest _ _ _ ltac:(simpl in Hn; lia) H)
        as (Hl & (new & Hnew & Hne) & Hsys).
      split; [assumption|]. split.
      * exists ((rstrip (lstrip_nl (t_content mi)),
                 strip_dummy_thought (rstrip (lstrip_nl (t_content mi1))))
                :: new).
        split; [now rewrite Hnew, <- app_assoc | discriminate].
      * intros c system. destruct rest as [|r rest].
        -- simpl in H |- *. injection H as _ <-.
           now rewrite mark_last_snoc.
        -- now rewrite Hsys.
Qed.

Variable Json : Type.
Variable json_dumps : Json -> str.

Lemma extract_history_system (system : str) (messages : list Turn)
  (query : Query) (history : list (str * str)) :
  system <> [] ->
  extract_history [] messages = Ok (query, history) ->
  extract_history system messages
  = Ok (match history with
        | [] =>
            (match query with
             | QueryStr q => QueryStr (with_question system q)
             | _TEXT_COMPLETION_CMD => _TEXT_COMPLETION_CMD
             end, [])
        | _ :: _ => (query, mark_last system history)
        end).
Proof.
  intros Hs. destruct system as [|c system]; [congruence|]. clear Hs.
  unfold extract_history.
  destruct (last_turn messages) as [l|] eqn:El; [|discriminate].
  destruct (role_eqb (t_role l) RoleEnum.user) eqn:Er; cbn [bind].
  - destruct (pair_up (removelast messages) [] []) as [[left_over plain]|e]
      eqn:Ep; [|discriminate].
    destruct (pair_up_system _ _ _ _ _ (le_n _) Ep)
      as (-> & (new & Hnew & Hne) & Hsys).
    cbn [bind]. intros [= <- <-]. rewrite Hsys. cbn [bind].
    destruct (removelast messages) as [|m ms] eqn:Em.
    + simpl in Ep. injection Ep as <-. reflexivity.
    + simpl in Hnew. subst plain.
      destruct new as [|x new]; [now contradiction Hne|]. reflexivity.
  - destruct (pair_up messages [] []) as [[left_over plain]|e] eqn:Ep;
      [|discriminate].
    destruct (pair_up_system _ _ _ _ _ (le_n _) Ep)
      as (-> & (new & Hnew & Hne) & Hsys).
    cbn [bind]. intros [= <- <-]. rewrite Hsys. cbn [bind].
    destruct messages as [|m ms]; [discriminate El|].
    simpl in Hnew. subst plain.
    destruct new as [|x new]; [now contradiction Hne|]. reflexivity.
Qed.

(** C3 (as amended).  Take a conversation that is valid, with [query] and
    [history] as the normalizer builds them when no system text is left, and
    a non-empty system text after the tool descriptions are folded in.  If
    the history is empty the text is prefixed to the query as
    "<system>\n\nQuestion: <query>".  If the history is not empty the text is
    prefixed to the user text of the last history turn, whatever the number
    of turns, and the query is returned as it is; the text then sits before
    the final question only when the conversation ends with an assistant
    turn (no query). *)
Theorem system_prefixed_to_last_turn (messages rest : list ChatMessage)
  (functions : option (list (GPTFunctionDefinition Json)))
  (s0 : str) (normalized : list Turn) (query : Query)
  (history : list (str * str)) :
  forallb (fun m => negb (role_eqb (role m) RoleEnum.user)) messages = false ->
  extract_system messages = Ok (s0, rest) ->
  normalize (functions_given functions) rest [] = Ok normalized ->
  extract_history [] normalized = Ok (query, history) ->
  fold_functions json_dumps s0 functions <> [] ->
  parse_messages json_dumps messages functions
  = Ok (match history with
        | [] =>
            (match query with
             | QueryStr q =>
                 QueryStr
                   (with_question (fold_functions json_dumps s0 functions) q)
             | _TEXT_COMPLETION_CMD => _TEXT_COMPLETION_CMD
             end, [])
        | _ :: _ =>
            (query, mark_last (fold_functions json_dumps s0 functions) history)
        end).
Proof.
  intros Hu Hs Hn Hh Hne. unfold parse_messages.
  rewrite Hu, Hs. cbn [bind]. rewrite Hn. cbn [bind].
  now apply extract_history_system.
Qed.

End SystemFacts.

(** A conversation on which C3 as the spec words it fails: one completed turn
    and a new question.  The system text is prefixed to the question of the
    completed turn; the final question, the query, is rendered without it. *)
Lemma system_not_before_final_question :
  let messages :=
    [message RoleEnum.system (lit "Answer in French.");
     message RoleEnum.user (lit "Hello");
     message RoleEnum.assistant (lit "Bonjour");
     message RoleEnum.user (lit "How are you?")] in
  let history :=
    [(lit "Answer in French." ++ [nl; nl] ++ lit "Question: Hello",
      lit "Bonjour")] in
  parse_messages CharTokenizer.json_dumps messages None
  = Ok (QueryStr (lit "How are you?"), history)
  /\ fst (make_context CharTokenizer.tokenizer (lit "How are you?") history
            default_system 6144)
     = im_start ++ lit "system" ++ nl :: lit "You are a helpful assistant."
       ++ im_end
       ++ nl :: im_start ++ lit "user" ++ nl :: lit "Answer in French."
       ++ [nl; nl] ++ lit "Question: Hello" ++ im_end
       ++ nl :: im_start ++ lit "assistant" ++ nl :: lit "Bonjour" ++ im_end
       ++ nl :: im_start ++ lit "user" ++ nl :: lit "How are you?" ++ im_end
       ++ nl :: im_start ++ lit "assistant" ++ [nl]
  /\ QueryStr (lit "How are you?")
     <> QueryStr (with_question (lit "Answer in French.") (lit "How are you?")).
Proof.
  vm_compute. repeat split. discriminate.
Qed.

Lemma system_prefixed_to_last_turn_witness :
  let messages :=
    [message RoleEnum.system (lit "Answer in French.");
     message RoleEnum.user (lit "Hello");
     message RoleEnum.assistant (lit "Bonjour");
     message RoleEnum.user (lit "How are you?")] in
  parse_messages CharTokenizer.json_dumps messages None
  = Ok (QueryStr (lit "How are you?"),
        mark_last (lit "Answer in French.") [(lit "Hello", lit "Bonjour")]).
Proof.
  intros messages.
  apply (system_prefixed_to_last_turn unit CharTokenizer.json_dumps
           messages (tl messages) None (lit "Answer in French.")
           [ {| t_role := RoleEnum.user; t_content := lit "Hello" |};
             {| t_role := RoleEnum.assistant; t_content := lit "Bonjour" |};
             {| t_role := RoleEnum.user; t_content := lit "How are you?" |} ]
           (QueryStr (lit "How are you?"))
           [(lit "Hello", lit "Bonjour")]).
  - reflexivity.
  - reflexivity.
  - reflexivity.
  - reflexivity.
  - discriminate.
Defined.

(** ** The sliding window of [make_context] *)

Section WindowFacts.

Variable tokenizer : QWenTokenizer.

Local Abbreviation turn_tokens := (next_context_tokens tokenizer).
Local Abbreviation turn_text := (prev_chat tokenizer).

Lemma flat_map_snoc {A B : Type} (f : A -> list B) (l : list A) (x : A) :
  flat_map f (l ++ [x]) = flat_map f l ++ f x.
Proof. rewrite flat_map_app. simpl. now rewrite app_nil_r. Qed.

(** The loop keeps a prefix of the turns it visits (most recent first), each
    of which passed the strict test when it was visited, and stops at the
    first turn that fails it. *)
Lemma window_spec (system_tokens : list Z) (max_window_size : Z)
  (turns : list (str * str)) :
  forall (raw_text : str) (context_tokens : list Z),
  exists kept dropped,
    turns = kept ++ dropped
    /\ window tokenizer system_tokens max_window_size turns
              raw_text context_tokens
       = (flat_map turn_text (rev kept) ++ raw_text,
          flat_map turn_tokens (rev kept) ++ context_tokens)
    /\ (forall before t after,
          kept = before ++ t :: after ->
          (len system_tokens + len (turn_tokens t)
           + (len (flat_map turn_tokens (rev before)) + len context_tokens)
           < max_window_size)%Z)
    /\ (forall t rest,
          dropped = t :: rest ->
          (max_window_size
           <= len system_tokens + len (turn_tokens t)
              + (len (flat_map turn_tokens (rev kept)) + len context_tokens))%Z).
Proof.
  induction turns as [|turn older IH]; intros raw_text context_tokens.
  - exists [], []. repeat split; try reflexivity.
    + intros before t after H. destruct before; discriminate.
    + intros t rest H. discriminate.
  - cbn [window].
    destruct (Z.ltb_spec
                (len system_tokens + len (turn_tokens turn)
                 + len context_tokens) max_window_size) as [Hlt|Hge].
    + destruct (IH (turn_text turn ++ raw_text)
                   (turn_tokens turn ++ context_tokens))
        as (kept & dropped & Hsplit & Hw & Hkept & Hdrop).
      exists (turn :: kept), dropped. repeat split.
      * now rewrite Hsplit.
      * rewrite Hw. cbn [rev]. now rewrite !flat_map_snoc, <- !app_assoc.
      * intros before t after H. destruct before as [|b before].
        -- injection H as <- _. cbn. lia.
        -- injection H as <- H. specialize (Hkept _ _ _ H).
           cbn [rev]. rewrite flat_map_snoc, len_app.
           rewrite len_app in Hkept. lia.
      * intros t rest H. specialize (Hdrop _ _ H).
        cbn [rev]. rewrite flat_map_snoc, len_app.
        rewrite len_app in Hdrop. lia.
    + exists [], (turn :: older). repeat split.
      * intros before t after H. destruct before; discriminate.
      * intros t rest [= <- <-]. cbn. lia.
Qed.

(** C4 (as amended).  [make_context] keeps a suffix of the history, the most
    recent turns, and drops the older ones; each kept turn passed the strict
    test [len(system_tokens) + len(turn tokens) + len(tokens kept so far) <
    max_window_size], the most recent dropped turn failed it; when at least
    one turn is kept, the kept turns' tokens plus the system tokens are
    [< max_window_size] (when none is kept, the system tokens alone may reach
    the budget); the query turn is appended after the kept turns whatever the
    budget. *)
Theorem make_context_window (query : str) (history : list (str * str))
  (system : str) (max_window_size : Z) :
  exists dropped kept,
    history = dropped ++ kept
    /\ snd (make_context tokenizer query history system max_window_size)
       = system_tokens_of tokenizer system ++ flat_map turn_tokens kept
         ++ query_tokens_of tokenizer query
    /\ fst (make_context tokenizer query history system max_window_size)
       = im_start ++ (lit "system" ++ nl :: system) ++ im_end
         ++ flat_map turn_text kept
         ++ nl :: im_start ++ lit "user" ++ nl :: query ++ im_end
         ++ nl :: im_start ++ lit "assistant" ++ [nl]
    /\ (forall older t newer,
          kept = older ++ t :: newer ->
          (len (system_tokens_of tokenizer system) + len (turn_tokens t)
           + len (flat_map turn_tokens newer) < max_window_size)%Z)
    /\ (kept <> [] ->
        (len (system_tokens_of tokenizer system)
         + len (flat_map turn_tokens kept) < max_window_size)%Z)
    /\ (forall older t,
          dropped = older ++ [t] ->
          (max_window_size
           <= len (system_tokens_of tokenizer system) + len (turn_tokens t)
              + len (flat_map turn_tokens kept))%Z).
Proof.
  destruct (window_spec (system_tokens_of tokenizer system) max_window_size
              (rev history) [] [])
    as (kept & dropped & Hsplit & Hw & Hkept & Hdrop).
  assert (Hpass : forall older t newer,
             rev kept = older ++ t :: newer ->
             (len (system_tokens_of tokenizer system) + len (turn_tokens t)
              + len (flat_map turn_tokens newer) < max_window_size)%Z).
  { intros older t newer H.
    assert (H' : kept = rev newer ++ t :: rev older).
    { rewrite <- (rev_involutive kept), H, rev_app_distr. cbn [rev].
      now rewrite <- app_assoc. }
    specialize (Hkept _ _ _ H'). rewrite rev_involutive in Hkept.
    change (len (@nil Z)) with 0%Z in Hkept. lia. }
  exists (rev dropped), (rev kept). repeat split.
  - rewrite <- rev_app_distr, <- Hsplit. now rewrite rev_involutive.
  - unfold make_context. rewrite Hw. cbn [snd]. now rewrite app_nil_r, <- app_assoc.
  - unfold make_context. rewrite Hw. cbn [fst snd _tokenize_str].
    now rewrite app_nil_r, <- !app_assoc.
  - exact Hpass.
  - intros Hne. destruct (rev kept) as [|t newer] eqn:E; [congruence|].
    specialize (Hpass [] t newer eq_refl).
    cbn [flat_map]. rewrite len_app. lia.
  - intros older t H.
    assert (H' : dropped = t :: rev older).
    { rewrite <- (rev_involutive dropped), H, rev_app_distr. reflexivity. }
    specialize (Hdrop _ _ H').
    change (len (@nil Z)) with 0%Z in Hdrop. lia.
Qed.

End WindowFacts.

(** A call on which C4 as the spec words it fails: the one history turn does
    not fit a window of 20 tokens and is dropped, and the system turn alone
    (37 tokens with the character-level tokenizer) is over the budget. *)
Lemma system_alone_exceeds_window :
  let tok := CharTokenizer.tokenizer in
  let history := [(lit "a", lit "b")] in
  (len (flat_map (next_context_tokens tok) history) > 20)%Z
  /\ snd (make_context tok (lit "q") history default_system 20)
     = system_tokens_of tok default_system ++ query_tokens_of tok (lit "q")
  /\ len (system_tokens_of tok default_system) = 37%Z
  /\ ~ (len (system_tokens_of tok default_system) + len (@nil Z) < 20)%Z.
Proof.
  vm_compute. repeat split; discriminate.
Qed.

Lemma make_context_window_witness :
  let tok := CharTokenizer.tokenizer in
  let turn := (lit "a", lit "b") in
  (len (system_tokens_of tok default_system)
   + len (flat_map (next_context_tokens tok) [turn]) < 100)%Z.
Proof.
  intros tok turn.
  destruct (make_context_window tok (lit "q") [turn] default_system 100)
    as (dropped & kept & Hsplit & _ & _ & _ & Hbound & Hdrop).
  destruct dropped as [|d dropped].
  - simpl in Hsplit. subst kept. apply Hbound. discriminate.
  - injection Hsplit as <- Hsplit.
    symmetry in Hsplit. apply app_eq_nil in Hsplit. destruct Hsplit as [-> ->].
    specialize (Hdrop [] turn eq_refl). vm_compute in Hdrop.
    now contradiction Hdrop.
Defined.

(** ** Folding a function call and extracting it again *)

Section RoundTripFacts.

(** *** More on stripping *)

Lemma lstrip_rstrip_comm (f : char -> bool) (s : str) :
  lstrip_chars f (rstrip_chars f s) = rstrip_chars f (lstrip_chars f s).
Proof.
  unfold lstrip_chars.
  destruct (dropwhile_split f s) as (w & Hs & Hw).
  destruct (dropwhile f s) as [|c y] eqn:E.
  - rewrite app_nil_r in Hs. subst w.
    now rewrite (rstrip_chars_all _ _ Hw).
  - pose proof (dropwhile_head _ _ _ _ E) as Hc.
    rewrite Hs at 1. rewrite (rstrip_chars_keep _ _ _ _ Hc).
    rewrite (dropwhile_all _ _ _ Hw). cbn [dropwhile]. rewrite Hc.
    symmetry. exact (rstrip_chars_keep f [] c y Hc).
Qed.

Lemma strip_rstrip (s : str) : strip (rstrip s) = strip s.
Proof.
  unfold strip, strip_chars, rstrip.
  now rewrite lstrip_rstrip_comm, rstrip_chars_idem.
Qed.

Lemma strip_cons_space (s : str) : strip (sp :: s) = strip s.
Proof. reflexivity. Qed.

Lemma rstrip_ends_with_colon (x : str) : rstrip (x ++ [58%N]) = x ++ [58%N].
Proof. unfold rstrip. now rewrite (rstrip_chars_keep _ _ _ _ colon_not_space). Qed.

(** *** Markers against fixed text *)

Lemma startswith_mismatch (m F y : str) :
  mismatch m F = true -> startswith (F ++ y) m = false.
Proof.
  revert F. induction m as [|c m IH]; intros F H; [discriminate|].
  destruct F as [|d F]; [discriminate|].
  cbn [mismatch] in H. cbn [app startswith].
  destruct (char_eqb c d); [|reflexivity].
  simpl in H. now rewrite IH.
Qed.

Lemma contains_app_marker (m x F y : str) :
  nl_free m = true ->
  contains (nl :: m) (x ++ (nl :: F) ++ y)
  = contains (nl :: m) x || contains (nl :: m) ((nl :: F) ++ y).
Proof. intros H. exact (contains_app_nl m x (F ++ y) H). Qed.

Lemma contains_other_marker (m F y : str) :
  nl_free F = true -> mismatch m F = true ->
  contains (nl :: m) ((nl :: F) ++ y) = contains (nl :: m) y.
Proof.
  intros HF Hm. cbn [app contains startswith].
  now rewrite (startswith_mismatch _ _ _ Hm), andb_false_r,
    (contains_nl_free_head _ _ _ HF).
Qed.

Lemma contains_cons_other (m : str) (c : char) (y : str) :
  is_nl c = false -> contains (nl :: m) (c :: y) = contains (nl :: m) y.
Proof.
  intros H. cbn [contains startswith]. now rewrite (nl_head_false _ H).
Qed.

(** *** The extractor on the pattern the normalizer writes *)

Lemma slice_segment (a b c : str) (i j : Z) :
  i = len a -> j = (len a + len b)%Z -> slice (a ++ b ++ c) i j = b.
Proof.
  intros -> ->. unfold len. rewrite <- Nat2Z.inj_add, slice_nat.
  rewrite <- length_app, app_assoc, firstn_app_prefix.
  rewrite skipn_app, skipn_all, Nat.sub_diag. reflexivity.
Qed.

Lemma slice_to_prefix (a b : str) (i : Z) :
  i = len a -> slice_to (a ++ b) i = a.
Proof. intros ->. unfold len. rewrite slice_to_nat. apply firstn_app_prefix. Qed.

Lemma extractor_on_pattern (P name1 args1 tail : str) :
  contains ACTION name1 = false ->
  contains ACTION args1 = false ->
  contains ACTION tail = false ->
  contains ACTION_INPUT args1 = false ->
  contains ACTION_INPUT tail = false ->
  contains OBSERVATION tail = false ->
  strip name1 <> [] ->
  _parse_function_response
    (P ++ ACTION ++ name1 ++ ACTION_INPUT ++ args1 ++ OBSERVATION ++ tail)
  = Some {| dm_role := None;
            dm_content := Some P;
            dm_function_call :=
              Some {| fc_name := strip name1; fc_arguments := strip args1 |} |}.
Proof.
  intros Han Haa Hat Hia Hit Hot Hname.
  set (text := P ++ ACTION ++ name1 ++ ACTION_INPUT ++ args1
               ++ OBSERVATION ++ tail).
  assert (Hi : rfind text ACTION = len P).
  { unfold text, ACTION, ACTION_INPUT, OBSERVATION in *.
    apply rfind_last.
    rewrite (contains_nl_free_head _ (lit "Action:")) by reflexivity.
    rewrite contains_app_marker, Han by reflexivity.
    rewrite contains_other_marker by reflexivity.
    rewrite contains_app_marker, Haa by reflexivity.
    now rewrite contains_other_marker by reflexivity. }
  assert (Hj : rfind text ACTION_INPUT = len (P ++ ACTION ++ name1)).
  { unfold text, ACTION, ACTION_INPUT, OBSERVATION in *.
    replace (P ++ (nl :: lit "Action:") ++ name1
             ++ (nl :: lit "Action Input:") ++ args1
             ++ (nl :: lit "Observation:") ++ tail)
      with ((P ++ (nl :: lit "Action:") ++ name1)
            ++ (nl :: lit "Action Input:")
            ++ (args1 ++ (nl :: lit "Observation:") ++ tail))
      by (now rewrite <- !app_assoc).
    apply rfind_last.
    rewrite (contains_nl_free_head _ (lit "Action Input:")) by reflexivity.
    rewrite contains_app_marker, Hia by reflexivity.
    now rewrite contains_other_marker by reflexivity. }
  assert (Hk : rfind text OBSERVATION
               = len (P ++ ACTION ++ name1 ++ ACTION_INPUT ++ args1)).
  { unfold text, ACTION, ACTION_INPUT, OBSERVATION in *.
    replace (P ++ (nl :: lit "Action:") ++ name1
             ++ (nl :: lit "Action Input:") ++ args1
             ++ (nl :: lit "Observation:") ++ tail)
      with ((P ++ (nl :: lit "Action:") ++ name1
             ++ (nl :: lit "Action Input:") ++ args1)
            ++ (nl :: lit "Observation:") ++ tail)
      by (now rewrite <- !app_assoc).
    apply rfind_last.
    now rewrite (contains_nl_free_head _ (lit "Observation:")) by reflexivity. }
  unfold _parse_function_response. fold text. rewrite Hi, Hj, Hk.
  assert (Hc : ((0 <=? len P) && (len P <? len (P ++ ACTION ++ name1)))%Z
               = true).
  { apply andb_true_iff. split; [apply Z.leb_le | apply Z.ltb_lt].
    - apply len_nonneg.
    - rewrite !len_app. change (len ACTION) with 8%Z.
      pose proof (len_nonneg name1). lia. }
  assert (Hkj : (len (P ++ ACTION ++ name1 ++ ACTION_INPUT ++ args1)
                 <? len (P ++ ACTION ++ name1))%Z = false).
  { apply Z.ltb_ge. rewrite !len_app.
    pose proof (len_nonneg args1). pose proof (len_nonneg ACTION_INPUT). lia. }
  rewrite Hc, Hkj. lazy beta iota zeta. rewrite Hk.
  assert (Hn : slice text (len P + len ACTION) (len (P ++ ACTION ++ name1))
               = name1).
  { unfold text.
    replace (P ++ ACTION ++ name1 ++ ACTION_INPUT ++ args1
             ++ OBSERVATION ++ tail)
      with ((P ++ ACTION) ++ name1
            ++ (ACTION_INPUT ++ args1 ++ OBSERVATION ++ tail))
      by (now rewrite <- !app_assoc).
    apply slice_segment; rewrite !len_app; lia. }
  assert (Ha : slice text (len (P ++ ACTION ++ name1) + len ACTION_INPUT)
                     (len (P ++ ACTION ++ name1 ++ ACTION_INPUT ++ args1))
               = args1).
  { unfold text.
    replace (P ++ ACTION ++ name1 ++ ACTION_INPUT ++ args1
             ++ OBSERVATION ++ tail)
      with ((P ++ ACTION ++ name1 ++ ACTION_INPUT) ++ args1
            ++ (OBSERVATION ++ tail))
      by (now rewrite <- !app_assoc).
    apply slice_segment; rewrite !len_app; lia. }
  rewrite Hn, Ha.
  destruct (strip name1) as [|c name'] eqn:E; [congruence|].
  unfold text. now rewrite (slice_to_prefix P _ (len P) eq_refl).
Qed.

End RoundTripFacts.

(** *** The assistant text the normalizer builds for a function call *)

Section FoldingFacts.

Lemma startswith_app_cases (t P Z : str) :
  startswith (P ++ Z) t = true ->
  (exists P', P = t ++ P')
  \/ (exists t', t = P ++ t' /\ t' <> [] /\ startswith Z t' = true).
Proof.
  revert P. induction t as [|c t IH]; intros P H.
  - left. now exists P.
  - destruct P as [|d P].
    + right. exists (c :: t). repeat split; [discriminate | exact H].
    + cbn [app startswith] in H. apply andb_true_iff in H.
      destruct H as [Hc H]. apply char_eqb_eq in Hc. subst d.
      destruct (IH _ H) as [[P' ->] | (t' & -> & Hne & Hs)].
      * left. now exists P'.
      * right. now exists t'.
Qed.

Lemma nl_gap_split (P u : str) :
  (u = [] \/ exists u', u = 65%N :: u') -> nl_gap (P ++ nl :: u) = true.
Proof.
  intros H. induction P as [|c P IH].
  - destruct H as [-> | [u' ->]]; reflexivity.
  - cbn [app nl_gap]. rewrite IH. apply orb_true_r.
Qed.

Lemma skip_prefix (t rest : str) : slice_from (t ++ rest) (len t) = rest.
Proof.
  unfold len. rewrite slice_from_nat, skipn_app, skipn_all, Nat.sub_diag.
  reflexivity.
Qed.

(** Removing a dummy thought leaves the marker and what follows it alone. *)
Lemma dummy_thought_step (t P R : str) :
  nl_gap (lstrip_nl t) = false ->
  exists P', drop_dummy_thought (P ++ ACTION ++ R) t = P' ++ ACTION ++ R.
Proof.
  intros Hgap. unfold drop_dummy_thought. cbv zeta.
  destruct (startswith (P ++ ACTION ++ R) (lstrip_nl t)) eqn:Hs;
    [|now exists P].
  destruct (contains _ _); [|now exists P]. cbn [andb].
  destruct (startswith_app_cases _ _ _ Hs) as [[P' ->] | (t' & Ht' & Hne & Ht)].
  - exists P'. rewrite <- app_assoc. apply skip_prefix.
  - exfalso. destruct t' as [|c u]; [congruence|].
    unfold ACTION in Ht. cbn [app startswith] in Ht.
    apply andb_true_iff in Ht. destruct Ht as [Hc Hu].
    apply char_eqb_eq in Hc. subst c.
    rewrite Ht', nl_gap_split in Hgap; [discriminate|].
    destruct u as [|d u]; [now left|]. right. exists u.
    cbn [lit map list_ascii_of_string app startswith] in Hu.
    apply andb_true_iff in Hu. destruct Hu as [Hd _].
    apply char_eqb_eq in Hd. now subst d.
Qed.

Lemma strip_dummy_thought_shape (P R : str) :
  exists P', strip_dummy_thought (P ++ ACTION ++ R) = P' ++ ACTION ++ R.
Proof.
  unfold strip_dummy_thought. cbn [DUMMY_THOUGHT_values fold_left].
  destruct (dummy_thought_step DUMMY_THOUGHT_en P R eq_refl) as [P1 ->].
  exact (dummy_thought_step DUMMY_THOUGHT_zh P1 R eq_refl).
Qed.

Lemma dropwhile_app_some (f : char -> bool) (c X : str) :
  forallb f c = false ->
  exists d P0,
    f d = false /\ dropwhile f (c ++ X) = (d :: P0) ++ X.
Proof.
  intros H. destruct (dropwhile_split f c) as (w & Hc & Hw).
  destruct (dropwhile f c) as [|d P0] eqn:E.
  - rewrite app_nil_r in Hc. subst w. congruence.
  - exists d, P0. pose proof (dropwhile_head _ _ _ _ E) as Hd.
    split; [assumption|].
    rewrite Hc, <- app_assoc, (dropwhile_all _ _ _ Hw).
    cbn [app dropwhile]. now rewrite Hd.
Qed.

Lemma contains_rstrip_false (m a : str) :
  contains (nl :: m) a = false -> contains (nl :: m) (rstrip (sp :: a)) = false.
Proof.
  intros H. destruct (rstrip_chars_split is_space (sp :: a)) as (w & Hw & _).
  fold (rstrip (sp :: a)) in Hw.
  apply (contains_false_prefix _ _ w). rewrite <- Hw.
  now rewrite contains_cons_other.
Qed.

Lemma contains_tail_false (m obs : str) :
  nl_free m = true ->
  contains (nl :: m) (nl :: lit "Thought:") = false ->
  contains (nl :: m) obs = false ->
  contains (nl :: m) (sp :: obs ++ nl :: lit "Thought:") = false.
Proof.
  intros Hm Ht H. rewrite contains_cons_other by reflexivity.
  now rewrite contains_app_nl, H, Ht.
Qed.

End FoldingFacts.

Section RoundTrip.

Variable Json : Type.
Variable json_dumps : Json -> str.

(** The assistant text of a function call as the normalizer stores it: some
    non-empty thought that does not start with a newline, the action, the
    action input. *)
Lemma folded_call_text (fg : bool) (last_msg c name args : str) :
  c = [] \/ forallb is_nl c = false ->
  exists d P0,
    is_nl d = false
    /\ rstrip (lstrip_nl
                 (assistant_content fg last_msg c
                    (Some {| fc_name := name; fc_arguments := args |})))
       = (d :: P0) ++ ACTION ++ (sp :: name) ++ ACTION_INPUT
         ++ rstrip (sp :: args).
Proof.
  intros Hc. unfold assistant_content. cbn [fc_name fc_arguments].
  match goal with
  | |- context [nl :: ?thought ++ nl :: lit "Action: " ++ _] =>
      set (c' := thought)
  end.
  assert (Hc' : forallb is_nl c' = false).
  { subst c'. destruct c as [|x c].
    - destruct (has_zh last_msg); reflexivity.
    - destruct Hc as [Hc|Hc]; [discriminate | exact Hc]. }
  change (nl :: c' ++ nl :: lit "Action: " ++ name
             ++ nl :: lit "Action Input: " ++ args)
    with (nl :: c' ++ (ACTION ++ (sp :: name) ++ ACTION_INPUT ++ (sp :: args))).
  unfold lstrip_nl, lstrip_chars. cbn [dropwhile].
  change (is_nl nl) with true. cbv iota.
  destruct (dropwhile_app_some is_nl c'
              (ACTION ++ (sp :: name) ++ ACTION_INPUT ++ (sp :: args)) Hc')
    as (d & P0 & Hd & ->).
  exists d, P0. split; [assumption|].
  replace ((d :: P0) ++ ACTION ++ (sp :: name) ++ ACTION_INPUT ++ (sp :: args))
    with (((d :: P0) ++ ACTION ++ (sp :: name)) ++ ACTION_INPUT ++ (sp :: args))
    by (now rewrite <- !app_assoc).
  rewrite rstrip_keeps_action_input. now rewrite <- !app_assoc.
Qed.

(** What the normalizer returns for the three messages of a call. *)
Lemma parse_call_messages
  (functions : option (list (GPTFunctionDefinition Json)))
  (q c name args obs : str) :
  exists usr,
    parse_messages json_dumps (call_messages q c name args obs) functions
    = Ok (_TEXT_COMPLETION_CMD,
          [(usr,
            strip_dummy_thought
              (rstrip
                 (lstrip_nl
                    ((rstrip
                        (lstrip_nl
                           (assistant_content (functions_given functions)
                              (rstrip (lstrip_nl q)) c
                              (Some {| fc_name := name;
                                       fc_arguments := args |})))
                      ++ nl :: lit "Observation: " ++ obs)
                     ++ nl :: lit "Thought:"))))]).
Proof.
  unfold parse_messages, call_messages.
  cbn [forallb message role role_eqb negb andb extract_system bind content].
  cbn [normalize message role content function_call last_turn rev app t_role
       t_content role_eqb negb append_last].
  cbn [bind]. unfold extract_history.
  cbn [last_turn rev app t_role role_eqb bind pair_up t_content].
  destruct (fold_functions json_dumps [] functions); eexists; reflexivity.
Qed.

(** *** A call anywhere in a conversation *)

Lemma normalize_cons_inv (fg : bool) (m : ChatMessage)
  (rest : list ChatMessage) (acc out : list Turn) :
  normalize fg (m :: rest) acc = Ok out ->
  exists acc',
    normalize fg rest acc' = Ok out
    /\ forall front suf,
         acc = front ++ suf -> suf <> [] ->
         exists suf', acc' = front ++ suf' /\ suf' <> [].
Proof.
  assert (Hsnoc : forall t front suf,
             acc = front ++ suf -> suf <> [] ->
             exists suf', acc ++ [t] = front ++ suf' /\ suf' <> []).
  { intros t front suf -> _. exists (suf ++ [t]).
    split; [now rewrite app_assoc | now destruct suf]. }
  assert (Happ : forall s front suf,
             acc = front ++ suf -> suf <> [] ->
             exists suf', append_last acc s = front ++ suf' /\ suf' <> []).
  { intros s front suf -> Hs. exists (append_last suf s).
    split; [now apply append_last_app|].
    intros E. apply (f_equal (map t_role)) in E.
    rewrite append_last_roles in E. now destruct suf. }
  assert (Happ2 : forall s1 s2 front suf,
             acc = front ++ suf -> suf <> [] ->
             exists suf',
               append_last (append_last acc s1) s2 = front ++ suf'
               /\ suf' <> []).
  { intros s1 s2 front suf Hacc Hs.
    destruct (Happ s1 front suf Hacc Hs) as (suf1 & -> & Hs1).
    exists (append_last suf1 s2).
    split; [now apply append_last_app|].
    intros E. apply (f_equal (map t_role)) in E.
    rewrite append_last_roles in E. now destruct suf1. }
  cbn [normalize]. destruct (role m).
  - intros H. eexists. split; [exact H | apply Hsnoc].
  - destruct (last_turn acc) as [l|]; [|discriminate].
    destruct (role_eqb (t_role l) RoleEnum.user); intros H; eexists;
      (split; [exact H|]); [apply Hsnoc | apply Happ].
  - discriminate.
  - destruct (last_turn acc) as [l|]; [|discriminate].
    destruct (negb (role_eqb (t_role l) RoleEnum.assistant)); [discriminate|].
    destruct rest; intros H; eexists; (split; [exact H|]);
      [apply Happ2 | apply Happ].
  - discriminate.
Qed.

(** What the normalizer does to the messages after [earlier], it does from
    some list of normalized messages. *)
Lemma normalize_app (fg : bool) (earlier tail : list ChatMessage) :
  forall acc out,
    normalize fg (earlier ++ tail) acc = Ok out ->
    exists mid, normalize fg tail mid = Ok out.
Proof.
  induction earlier as [|m earlier IH]; intros acc out H; [now exists acc|].
  change ((m :: earlier) ++ tail) with (m :: earlier ++ tail) in H.
  destruct (normalize_cons_inv _ _ _ _ _ H) as (acc' & H' & _).
  exact (IH _ _ H').
Qed.

(** Later messages leave alone every normalized message but the last. *)
Lemma normalize_keeps_prefix (fg : bool) (front : list Turn)
  (messages : list ChatMessage) :
  forall suf out,
    suf <> [] ->
    normalize fg messages (front ++ suf) = Ok out ->
    exists suf', out = front ++ suf' /\ suf' <> [].
Proof.
  induction messages as [|m rest IH]; intros suf out Hs H.
  - simpl in H. injection H as <-. now exists suf.
  - destruct (normalize_cons_inv _ _ _ _ _ H) as (acc' & H' & Hk).
    destruct (Hk front suf eq_refl Hs) as (suf1 & -> & Hs1).
    exact (IH _ _ Hs1 H').
Qed.

Lemma call_content_shape (fg : bool) (last_msg c name args : str) :
  c = [] \/ forallb is_nl c = false ->
  exists c',
    forallb is_nl c' = false
    /\ assistant_content fg last_msg c
         (Some {| fc_name := name; fc_arguments := args |})
       = nl :: c' ++ ACTION ++ (sp :: name) ++ ACTION_INPUT ++ (sp :: args).
Proof.
  intros Hc. unfold assistant_content. cbn [fc_name fc_arguments].
  match goal with
  | |- context [nl :: ?thought ++ nl :: lit "Action: " ++ _] =>
      exists thought
  end.
  split; [|reflexivity].
  destruct c as [|x c].
  - destruct (has_zh last_msg); reflexivity.
  - destruct Hc as [Hc|Hc]; [discriminate | exact Hc].
Qed.

(** The two messages of a call and its result leave one assistant turn at
    the end of the normalized messages, whose text ends with the call. *)
Lemma normalize_call (fg : bool) (c name args obs : str)
  (later : list ChatMessage) (mid out : list Turn) :
  c = [] \/ forallb is_nl c = false ->
  normalize fg
    (call_message c name args :: message RoleEnum.function obs :: later) mid
  = Ok out ->
  exists pre a W args1,
    normalize fg later (pre ++ [a]) = Ok out
    /\ t_role a = RoleEnum.assistant
    /\ forallb is_nl W = false
    /\ (args1 = sp :: args \/ args1 = rstrip (sp :: args))
    /\ t_content a
       = W ++ ACTION ++ (sp :: name) ++ ACTION_INPUT ++ args1
         ++ OBSERVATION ++ (sp :: obs)
         ++ match later with [] => nl :: lit "Thought:" | _ :: _ => [] end.
Proof.
  intros Hc H.
  cbn [normalize call_message message role content function_call] in H.
  destruct (last_turn mid) as [l|] eqn:El; [|discriminate].
  destruct (role_eqb (t_role l) RoleEnum.user) eqn:Er.
  - destruct (folded_call_text fg (t_content l) c name args Hc)
      as (d & P0 & Hd & Hfold).
    rewrite Hfold in H. rewrite last_turn_snoc in H.
    cbn [t_role role_eqb negb] in H. rewrite !append_last_snoc in H.
    cbn [t_role t_content] in H.
    destruct later; eexists mid, _, (d :: P0), (rstrip (sp :: args));
      (split; [exact H|]); (split; [reflexivity|]);
      (split; [cbn [forallb]; now rewrite Hd|]); (split; [now right|]);
      cbn [t_content];
      repeat (progress (cbn [app]) || rewrite <- app_assoc);
      rewrite ?app_nil_r; reflexivity.
  - destruct (call_content_shape fg (t_content l) c name args Hc)
      as (c' & Hc' & Hshape).
    rewrite Hshape in H.
    destruct (last_turn_split _ _ El) as [front ->].
    rewrite append_last_snoc, last_turn_snoc in H. cbn [t_role] in H.
    destruct (role_eqb (t_role l) RoleEnum.assistant) eqn:Ea;
      [|discriminate].
    cbn [negb] in H. rewrite !append_last_snoc in H.
    cbn [t_role t_content] in H.
    assert (HW : forallb is_nl (t_content l ++ nl :: c') = false).
    { rewrite forallb_app. apply andb_false_iff. right.
      cbn [forallb]. apply andb_false_iff. now right. }
    destruct later; eexists front, _, (t_content l ++ nl :: c'), (sp :: args);
      (split; [exact H|]);
      (split; [cbn [t_role]; now destruct (t_role l)|]);
      (split; [exact HW|]); (split; [now left|]);
      cbn [t_content];
      repeat (progress (cbn [app]) || rewrite <- app_assoc);
      rewrite ?app_nil_r; reflexivity.
Qed.

Lemma rstrip_keeps_observation (a b : str) :
  rstrip (a ++ OBSERVATION ++ b) = a ++ OBSERVATION ++ rstrip b.
Proof.
  unfold rstrip.
  change OBSERVATION with ((nl :: lit "Observation") ++ [58%N]).
  apply (rstrip_chars_keep_last _ _ _ _ _ colon_not_space).
Qed.

(** The text of that turn once the history loop has trimmed it. *)
Lemma trimmed_call_text (W name args1 obs : str) (last : bool) :
  forallb is_nl W = false ->
  exists d P0,
    rstrip (lstrip_nl
              (W ++ ACTION ++ (sp :: name) ++ ACTION_INPUT ++ args1
                 ++ OBSERVATION ++ (sp :: obs)
                 ++ if last then nl :: lit "Thought:" else []))
    = (d :: P0) ++ ACTION ++ (sp :: name) ++ ACTION_INPUT ++ args1
      ++ OBSERVATION
      ++ if last then sp :: obs ++ nl :: lit "Thought:"
         else rstrip (sp :: obs).
Proof.
  intros HW. unfold lstrip_nl, lstrip_chars.
  destruct (dropwhile_app_some is_nl W
              (ACTION ++ (sp :: name) ++ ACTION_INPUT ++ args1
                 ++ OBSERVATION ++ (sp :: obs)
                 ++ if last then nl :: lit "Thought:" else []) HW)
    as (d & P0 & Hd & ->).
  exists d, P0. destruct last.
  - replace ((d :: P0) ++ ACTION ++ (sp :: name) ++ ACTION_INPUT ++ args1
               ++ OBSERVATION ++ (sp :: obs) ++ nl :: lit "Thought:")
      with (((d :: P0) ++ ACTION ++ (sp :: name) ++ ACTION_INPUT ++ args1
               ++ OBSERVATION ++ sp :: obs ++ nl :: lit "Thought")
            ++ [58%N]).
    + rewrite rstrip_ends_with_colon.
      repeat (progress (cbn [app]) || rewrite <- app_assoc). reflexivity.
    + repeat (progress (cbn [app]) || rewrite <- app_assoc). reflexivity.
  - rewrite app_nil_r.
    replace ((d :: P0) ++ ACTION ++ (sp :: name) ++ ACTION_INPUT ++ args1
               ++ OBSERVATION ++ (sp :: obs))
      with (((d :: P0) ++ ACTION ++ (sp :: name) ++ ACTION_INPUT ++ args1)
            ++ OBSERVATION ++ (sp :: obs))
      by (now rewrite <- !app_assoc).
    rewrite rstrip_keeps_observation. now rewrite <- !app_assoc.
Qed.

(** The history loop only adds turns to the history it is given. *)
Lemma pair_up_extends (n : nat) :
  forall (messages : list Turn) (system : str) (h0 : list (str * str))
         (left_over : str) (h : list (str * str)),
    length messages <= n ->
    pair_up messages system h0 = Ok (left_over, h) ->
    exists new, h = h0 ++ new /\ (messages = [] -> new = []).
Proof.
  induction n as [|n IH]; intros messages system h0 left_over h Hn H.
  - destruct messages; [|simpl in Hn; lia].
    simpl in H. injection H as _ <-. exists []. now rewrite app_nil_r.
  - destruct messages as [|mi [|mi1 rest]].
    + simpl in H. injection H as _ <-. exists []. now rewrite app_nil_r.
    + simpl in H. destruct (role_eqb (t_role mi) RoleEnum.user); discriminate.
    + cbn [pair_up] in H.
      destruct (role_eqb (t_role mi) RoleEnum.user); [|discriminate].
      destruct (role_eqb (t_role mi1) RoleEnum.assistant); [|discriminate].
      simpl in Hn.
      assert (Hr : length rest <= n) by lia.
      destruct system as [|c system]; [|destruct rest as [|r rest]];
        (apply IH in H; [|exact Hr]);
        destruct H as (new & -> & _);
        eexists; (split; [now rewrite <- app_assoc | discriminate]).
Qed.

(** An assistant turn of the messages the history loop accepts is the
    response of one history turn, trimmed and without dummy thought. *)
Lemma pair_up_turn (n : nat) :
  forall (pre : list Turn) (a : Turn) (suf : list Turn) (system : str)
         (h0 : list (str * str)) (left_over : str) (h : list (str * str)),
    length pre <= n ->
    t_role a = RoleEnum.assistant ->
    pair_up (pre ++ a :: suf) system h0 = Ok (left_over, h) ->
    exists before usr after,
      h = before
          ++ (usr, strip_dummy_thought (rstrip (lstrip_nl (t_content a))))
          :: after
      /\ (suf = [] -> after = []).
Proof.
  induction n as [|n IH]; intros pre a suf system h0 left_over h Hn Ha H.
  - destruct pre; [|simpl in Hn; lia].
    cbn [app pair_up] in H. rewrite Ha in H. discriminate.
  - destruct pre as [|u [|x pre]].
    + cbn [app pair_up] in H. rewrite Ha in H. discriminate.
    + cbn [app pair_up] in H.
      destruct (role_eqb (t_role u) RoleEnum.user); [|discriminate].
      rewrite Ha in H. cbn [role_eqb] in H.
      destruct system as [|c system]; [|destruct suf as [|r suf]];
        (apply (pair_up_extends _ _ _ _ _ _ (le_n _)) in H);
        destruct H as (new & -> & Hnew);
        eexists h0, _, new;
        (split; [now rewrite <- app_assoc|]);
        intros E; try discriminate E; now apply Hnew.
    + cbn [app pair_up] in H.
      destruct (role_eqb (t_role u) RoleEnum.user); [|discriminate].
      destruct (role_eqb (t_role x) RoleEnum.assistant); [|discriminate].
      simpl in Hn. assert (Hp : length pre <= n) by lia.
      destruct system as [|c system];
        [|destruct (pre ++ a :: suf) as [|r rest] eqn:E;
          [now destruct pre|rewrite <- E in H]];
        exact (IH _ _ _ _ _ _ _ Hp Ha H).
Qed.

(** The turn of a call in the history of an accepted request, and what the
    extractor makes of it. *)
Lemma call_is_recovered
  (functions : option (list (GPTFunctionDefinition Json)))
  (earlier later : list ChatMessage) (c name args obs : str)
  (query : Query) (history : list (str * str)) :
  marker_free name -> marker_free args -> marker_free obs ->
  strip name <> [] ->
  c = [] \/ forallb is_nl c = false ->
  match later with
  | [] => True
  | m :: _ => role m = RoleEnum.user
  end ->
  parse_messages json_dumps
    (earlier ++ call_message c name args
       :: message RoleEnum.function obs :: later) functions
  = Ok (query, history) ->
  exists before usr bot after thought args1,
    history = before ++ (usr, bot) :: after
    /\ (later = [] -> after = [] /\ query = _TEXT_COMPLETION_CMD)
    /\ bot = thought ++ ACTION ++ (sp :: name) ++ ACTION_INPUT ++ args1
             ++ OBSERVATION
             ++ match later with
                | [] => sp :: obs ++ nl :: lit "Thought:"
                | _ :: _ => rstrip (sp :: obs)
                end
    /\ (args1 = sp :: args \/ args1 = rstrip (sp :: args))
    /\ _parse_function_response bot
       = Some {| dm_role := None;
                 dm_content := Some thought;
                 dm_function_call :=
                   Some {| fc_name := strip name;
                           fc_arguments := strip args |} |}.
Proof.
  intros (Hn1 & Hn2 & Hn3) (Ha1 & Ha2 & Ha3) (Ho1 & Ho2 & Ho3) Hname Hc
         Hlater.
  unfold parse_messages.
  destruct (forallb (fun m => negb (role_eqb (role m) RoleEnum.user)) _);
    [discriminate|].
  destruct (extract_system _) as [[s0 rest]|e] eqn:Es; [|discriminate].
  cbn [bind].
  destruct (normalize (functions_given functions) rest []) as [out|e] eqn:En;
    [|discriminate].
  cbn [bind]. intros H.
  set (system := fold_functions json_dumps s0 functions) in H.
  assert (Hrest : exists e,
             rest = e ++ call_message c name args
                      :: message RoleEnum.function obs :: later).
  { unfold extract_system in Es. destruct earlier as [|m0 earlier].
    - cbn in Es. injection Es as _ <-. now exists [].
    - cbn [app] in Es. destruct (role_eqb (role m0) RoleEnum.system).
      + destruct (content m0); [|discriminate]. injection Es as _ <-.
        now exists earlier.
      + injection Es as _ <-. now exists (m0 :: earlier). }
  destruct Hrest as [e ->].
  destruct (normalize_app _ _ _ _ _ En) as [mid Hmid].
  destruct (normalize_call _ _ _ _ _ _ _ _ Hc Hmid)
    as (pre & a & W & args1 & Hout & Hrole & HW & Hargs & Htext).
  (* the normalized messages: the turn of the call and what follows it *)
  assert (Hshape : exists suf,
             out = pre ++ a :: suf /\ (later = [] -> suf = [])).
  { destruct later as [|m more].
    - simpl in Hout. injection Hout as <-. now exists [].
    - cbn [normalize] in Hout. rewrite Hlater in Hout.
      match type of Hout with
      | normalize _ _ (_ ++ ?s) = _ =>
          destruct (normalize_keeps_prefix _ (pre ++ [a]) _ s _
                      ltac:(discriminate) Hout)
            as (suf & -> & _)
      end.
      exists suf. split; [now rewrite <- app_assoc | discriminate]. }
  destruct Hshape as (suf & -> & Hsuf).
  (* the history loop *)
  assert (Hhist : exists left_over suf',
             pair_up (pre ++ a :: suf') system [] = Ok (left_over, history)
             /\ (later = [] -> suf' = [] /\ query = _TEXT_COMPLETION_CMD)).
  { unfold extract_history in H.
    destruct (rev suf) as [|z rsuf] eqn:Er.
    - apply (f_equal (@rev Turn)) in Er. rewrite rev_involutive in Er.
      simpl in Er. subst suf.
      change (pre ++ [a]) with (pre ++ [a]) in H.
      rewrite last_turn_snoc, Hrole in H. cbn [role_eqb bind] in H.
      destruct (pair_up (pre ++ [a]) system []) as [[s' h']|e1] eqn:Ep;
        [|discriminate].
      cbn [bind] in H. exists s', [].
      destruct s'; [|discriminate]. injection H as <- <-.
      split; [exact Ep | now split].
    - apply (f_equal (@rev Turn)) in Er. rewrite rev_involutive in Er.
      simpl in Er. subst suf.
      assert (Hl : later <> []).
      { intros E. apply Hsuf in E. now destruct (rev rsuf). }
      replace (pre ++ a :: rev rsuf ++ [z])
        with ((pre ++ a :: rev rsuf) ++ [z]) in H
        by (now rewrite <- app_assoc).
      rewrite last_turn_snoc, removelast_last in H.
      destruct (role_eqb (t_role z) RoleEnum.user); cbn [bind] in H.
      + destruct (pair_up (pre ++ a :: rev rsuf) system [])
          as [[s' h']|e1] eqn:Ep; [|discriminate].
        cbn [bind] in H. exists s', (rev rsuf).
        split; [|now intros E].
        destruct s'; injection H as _ <-; exact Ep.
      + destruct (pair_up ((pre ++ a :: rev rsuf) ++ [z]) system [])
          as [[s' h']|e1] eqn:Ep; [|discriminate].
        cbn [bind] in H. exists s', (rev rsuf ++ [z]).
        split; [|now intros E].
        rewrite <- app_assoc in Ep. cbn [app] in Ep.
        destruct s'; [|discriminate]. injection H as _ <-. exact Ep. }
  destruct Hhist as (left_over & suf' & Hp & Hlast).
  destruct (pair_up_turn _ _ _ _ _ _ _ _ (le_n _) Hrole Hp)
    as (before & usr & after & -> & Hafter).
  (* the text of the turn *)
  rewrite Htext in *.
  destruct (trimmed_call_text W name args1 obs
              (match later with [] => true | _ :: _ => false end) HW)
    as (d & P0 & Htrim).
  assert (Htrim' :
            rstrip (lstrip_nl
                      (W ++ ACTION ++ (sp :: name) ++ ACTION_INPUT ++ args1
                         ++ OBSERVATION ++ (sp :: obs)
                         ++ match later with
                            | [] => nl :: lit "Thought:"
                            | _ :: _ => []
                            end))
            = (d :: P0) ++ ACTION ++ (sp :: name) ++ ACTION_INPUT ++ args1
              ++ OBSERVATION
              ++ match later with
                 | [] => sp :: obs ++ nl :: lit "Thought:"
                 | _ :: _ => rstrip (sp :: obs)
                 end)
    by (destruct later; exact Htrim).
  clear Htrim.
  set (tail := match later with
               | [] => sp :: obs ++ nl :: lit "Thought:"
               | _ :: _ => rstrip (sp :: obs)
               end) in *.
  destruct (strip_dummy_thought_shape (d :: P0)
              ((sp :: name) ++ ACTION_INPUT ++ args1 ++ OBSERVATION ++ tail))
    as [thought Hthought].
  exists before, usr,
    (thought ++ ACTION ++ (sp :: name) ++ ACTION_INPUT ++ args1
       ++ OBSERVATION ++ tail), after, thought, args1.
  split; [now rewrite Htrim', Hthought|].
  split.
  { intros E. destruct (Hlast E) as [-> Hq]. split; [now apply Hafter|exact Hq]. }
  split; [reflexivity|]. split; [exact Hargs|].
  assert (Htail : contains ACTION tail = false
                  /\ contains ACTION_INPUT tail = false
                  /\ contains OBSERVATION tail = false).
  { subst tail. destruct later.
    - repeat split; now apply contains_tail_false.
    - repeat split; now apply contains_rstrip_false. }
  assert (Hargs1 : contains ACTION args1 = false
                   /\ contains ACTION_INPUT args1 = false
                   /\ strip args1 = strip args).
  { destruct Hargs as [-> | ->].
    - unfold ACTION, ACTION_INPUT.
      now rewrite !contains_cons_other, strip_cons_space.
    - repeat split; try now apply contains_rstrip_false.
      now rewrite strip_rstrip, strip_cons_space. }
  destruct Htail as (Ht1 & Ht2 & Ht3). destruct Hargs1 as (Hg1 & Hg2 & Hg3).
  rewrite extractor_on_pattern.
  - now rewrite strip_cons_space, Hg3.
  - unfold ACTION. now rewrite contains_cons_other.
  - exact Hg1.
  - exact Ht1.
  - exact Hg2.
  - exact Ht2.
  - exact Ht3.
  - now rewrite strip_cons_space.
Qed.

(** *** Requests that are accepted *)

Lemma last_turn_role (x : list Turn) :
  option_map t_role (last_turn x) = hd_error (rev (map t_role x)).
Proof.
  unfold last_turn. rewrite <- map_rev. now destruct (rev x).
Qed.

Lemma alternating_roles (b : bool) (x y : list Turn) :
  map t_role x = map t_role y -> alternating b x = alternating b y.
Proof.
  revert b y. induction x as [|t x IH]; intros b [|u y] H; try discriminate.
  - reflexivity.
  - injection H as Ht H. cbn [alternating]. now rewrite Ht, (IH _ y H).
Qed.

(** The roles of the normalized messages do not depend on the contents
    normalized so far, nor on what follows in the request. *)
Lemma normalize_roles_app (fg : bool) (tail : list ChatMessage)
  (messages : list ChatMessage) :
  forall acc1 acc2 out1,
    map t_role acc1 = map t_role acc2 ->
    normalize fg messages acc1 = Ok out1 ->
    exists mid,
      map t_role mid = map t_role out1
      /\ normalize fg (messages ++ tail) acc2 = normalize fg tail mid.
Proof.
  induction messages as [|m rest IH]; intros acc1 acc2 out1 Hr H.
  - simpl in H. injection H as <-. exists acc2. now split.
  - cbn [normalize] in H.
    change ((m :: rest) ++ tail) with (m :: (rest ++ tail)).
    cbn [normalize].
    assert (Hl : option_map t_role (last_turn acc1)
                 = option_map t_role (last_turn acc2))
      by (now rewrite !last_turn_role, Hr).
    destruct (role m).
    + eapply IH; [|exact H]. now rewrite !map_app, Hr.
    + destruct (last_turn acc1) as [l1|]; [|discriminate].
      destruct (last_turn acc2) as [l2|]; [|discriminate Hl].
      cbn in Hl. injection Hl as Hl. rewrite <- Hl.
      destruct (role_eqb (t_role l1) RoleEnum.user);
        (eapply IH; [|exact H]);
        rewrite ?map_app, ?append_last_roles, Hr; reflexivity.
    + discriminate.
    + destruct (last_turn acc1) as [l1|]; [|discriminate].
      destruct (last_turn acc2) as [l2|]; [|discriminate Hl].
      cbn in Hl. injection Hl as Hl. rewrite <- Hl.
      destruct (negb (role_eqb (t_role l1) RoleEnum.assistant));
        [discriminate|].
      eapply IH; [|exact H].
      destruct rest; destruct (_ ++ tail);
        rewrite !append_last_roles; exact Hr.
    + discriminate.
Qed.

Lemma normalize_call_accepts (fg : bool) (c name args obs : str)
  (mid : list Turn) (l : Turn) :
  last_turn mid = Some l ->
  t_role l = RoleEnum.user \/ t_role l = RoleEnum.assistant ->
  exists out,
    normalize fg
      [call_message c name args; message RoleEnum.function obs] mid
    = Ok out
    /\ map t_role out
       = map t_role mid
         ++ if role_eqb (t_role l) RoleEnum.user
            then [RoleEnum.assistant] else [].
Proof.
  intros El Hl.
  cbn [normalize call_message message role content function_call].
  rewrite El. destruct Hl as [Hl | Hl]; rewrite Hl; cbn [role_eqb].
  - rewrite last_turn_snoc. cbn [t_role role_eqb negb].
    eexists. split; [reflexivity|].
    now rewrite !append_last_roles, map_app.
  - rewrite (append_last_last _ _ _ El). cbn [t_role]. rewrite Hl.
    cbn [role_eqb negb]. eexists. split; [reflexivity|].
    now rewrite !append_last_roles, app_nil_r.
Qed.

(** A call and its result appended to an accepted request make an accepted
    request, without query. *)
Lemma call_request_accepted
  (functions : option (list (GPTFunctionDefinition Json)))
  (earlier : list ChatMessage) (c name args obs : str) :
  (exists q0 h0, parse_messages json_dumps earlier functions = Ok (q0, h0)) ->
  exists history,
    parse_messages json_dumps
      (earlier ++ [call_message c name args; message RoleEnum.function obs])
      functions
    = Ok (_TEXT_COMPLETION_CMD, history).
Proof.
  intros (q0 & h0 & H0).
  set (tail := [call_message c name args; message RoleEnum.function obs]).
  assert (H : exists q h,
             parse_messages json_dumps (earlier ++ tail) functions
             = Ok (q, h)).
  { revert H0. unfold parse_messages. rewrite forallb_app.
    destruct (forallb _ earlier); [discriminate|]. cbn [andb].
    destruct (extract_system earlier) as [[s0 rest0]|e] eqn:Es;
      [|discriminate].
    assert (Es' : extract_system (earlier ++ tail) = Ok (s0, rest0 ++ tail)).
    { unfold extract_system in *. destruct earlier as [|m0 earlier];
        [discriminate|].
      cbn [app]. destruct (role_eqb (role m0) RoleEnum.system).
      - destruct (content m0); [|discriminate]. now injection Es as <- <-.
      - now injection Es as <- <-. }
    rewrite Es'. cbn [bind].
    destruct (normalize (functions_given functions) rest0 [])
      as [out1|e] eqn:En; [|discriminate].
    cbn [bind]. intros H0.
    destruct (proj1 (extract_history_accepts _ out1)
                (ex_intro _ q0 (ex_intro _ h0 H0))) as [Hne Halt].
    destruct (normalize_roles_app _ tail _ [] [] _ eq_refl En)
      as (mid & Hroles & ->).
    destruct (rev mid) as [|l rfront] eqn:Er.
    { apply (f_equal (@rev Turn)) in Er. rewrite rev_involutive in Er.
      simpl in Er. subst mid. now destruct out1. }
    apply (f_equal (@rev Turn)) in Er. rewrite rev_involutive in Er.
    simpl in Er. set (front := rev rfront) in *. subst mid.
    rewrite <- (alternating_roles true _ _ Hroles) in Halt.
    rewrite alternating_snoc in Halt. apply andb_true_iff in Halt.
    destruct Halt as [Hfront Hlast].
    assert (Hl : t_role l = RoleEnum.user \/ t_role l = RoleEnum.assistant).
    { destruct (Bool.eqb _ _) in Hlast; destruct (t_role l);
        try discriminate Hlast; auto. }
    unfold tail.
    destruct (normalize_call_accepts (functions_given functions)
                c name args obs _ _ (last_turn_snoc front l) Hl)
      as (out2 & -> & Hroles2).
    cbn [bind]. apply extract_history_accepts. split.
    { intros ->. now destruct front. }
    set (a := {| t_role := RoleEnum.assistant; t_content := [] |}).
    destruct (role_eqb (t_role l) RoleEnum.user) eqn:Eu.
    - assert (Hr2 : map t_role out2 = map t_role ((front ++ [l]) ++ [a]))
        by (now rewrite Hroles2, !map_app).
      rewrite (alternating_roles true _ _ Hr2).
      rewrite !alternating_snoc, Hfront. cbn [andb].
      destruct (Bool.eqb (Nat.even (length front)) true) eqn:Ee.
      + rewrite Eu. cbn [andb].
        rewrite length_app. cbn [length].
        replace (length front + 1) with (S (length front)) by lia.
        rewrite Nat.even_succ, <- Nat.negb_even.
        apply Bool.eqb_prop in Ee. rewrite Ee. reflexivity.
      + destruct (t_role l); discriminate.
    - rewrite app_nil_r in Hroles2.
      rewrite (alternating_roles true _ _ Hroles2).
      now rewrite alternating_snoc, Hfront, Hlast. }
  destruct H as (q & h & H). exists h.
  pose proof (parse_messages_query Json json_dumps _ _ _ _ H) as Hq.
  destruct q as [|q]; [exact H|].
  unfold ends_with_user, tail in Hq. rewrite rev_app_distr in Hq.
  discriminate Hq.
Qed.

(** C5 (as amended).  Take a request in which an assistant message calls a
    function and the function's result follows, after any earlier messages,
    and in which nothing more is folded into the same assistant turn: the
    result ends the request or a user message comes next.  The name is not
    blank, the name, the arguments and the result contain none of the
    markers, and the content sent with the call is empty or has a character
    other than a newline.  When the call and its result end the request and
    the messages before them are an accepted request, the request is
    accepted, without query.  And whenever the request is accepted, one turn
    of the history has as assistant text some thought followed by
    "\nAction: <name>\nAction Input: <arguments>\nObservation: <result>"
    (and "\nThought:" when the result ends the request, in which case the
    turn is the last one and there is no query), and the extractor applied
    to that text returns the name and the arguments that were folded in,
    each trimmed.  It is the last call folded into a turn that is recovered:
    the thought may hold earlier calls of the same turn. *)
Theorem function_call_round_trip
  (functions : option (list (GPTFunctionDefinition Json)))
  (earlier later : list ChatMessage) (c name args obs : str) :
  marker_free name -> marker_free args -> marker_free obs ->
  strip name <> [] ->
  c = [] \/ forallb is_nl c = false ->
  match later with
  | [] => True
  | m :: _ => role m = RoleEnum.user
  end ->
  (later = [] ->
   (exists q0 h0,
      parse_messages json_dumps earlier functions = Ok (q0, h0)) ->
   exists history,
     parse_messages json_dumps
       (earlier ++ call_message c name args
          :: message RoleEnum.function obs :: later) functions
     = Ok (_TEXT_COMPLETION_CMD, history))
  /\ (forall query history,
        parse_messages json_dumps
          (earlier ++ call_message c name args
             :: message RoleEnum.function obs :: later) functions
        = Ok (query, history) ->
        exists before usr bot after thought args1,
          history = before ++ (usr, bot) :: after
          /\ (later = [] -> after = [] /\ query = _TEXT_COMPLETION_CMD)
          /\ bot = thought ++ ACTION ++ (sp :: name) ++ ACTION_INPUT ++ args1
                   ++ OBSERVATION
                   ++ match later with
                      | [] => sp :: obs ++ nl :: lit "Thought:"
                      | _ :: _ => rstrip (sp :: obs)
                      end
          /\ (args1 = sp :: args \/ args1 = rstrip (sp :: args))
          /\ _parse_function_response bot
             = Some {| dm_role := None;
                       dm_content := Some thought;
                       dm_function_call :=
                         Some {| fc_name := strip name;
                                 fc_arguments := strip args |} |}).
Proof.
  intros Hn Ha Ho Hname Hc Hlater. split.
  - intros -> Hacc. now apply call_request_accepted.
  - intros query history H.
    exact (call_is_recovered functions earlier later c name args obs
             query history Hn Ha Ho Hname Hc Hlater H).
Qed.

End RoundTrip.

(** A request on which C5 as the spec words it fails: the name and the
    arguments contain no marker, but the function result quotes a call of its
    own; the extractor looks for the last markers and returns that one. *)
Lemma quoted_call_in_result_is_extracted :
  let name := lit "get_weather" in
  let args := lit "{}" in
  let obs := lit "see" ++ ACTION ++ lit " other" ++ ACTION_INPUT ++ lit " 1" in
  marker_free name /\ marker_free args
  /\ exists usr bot,
       parse_messages CharTokenizer.json_dumps
         (call_messages (lit "Weather?") [] name args obs) None
       = Ok (_TEXT_COMPLETION_CMD, [(usr, bot)])
       /\ option_map dm_function_call (_parse_function_response bot)
          = Some (Some {| fc_name := lit "other";
                          fc_arguments := lit "1" ++ nl :: lit "Thought:" |}).
Proof.
  repeat split. eexists. eexists. split; vm_compute; reflexivity.
Qed.

(** Two more requests the hypotheses of the round trip exclude: a blank name
    is not extracted at all, and a content made of newlines loses the newline
    of the [Action:] marker to [lstrip]. *)
Lemma blank_name_is_not_extracted :
  exists usr bot,
    parse_messages CharTokenizer.json_dumps
      (call_messages (lit "Weather?") [] (lit " ") (lit "{}") (lit "22")) None
    = Ok (_TEXT_COMPLETION_CMD, [(usr, bot)])
    /\ _parse_function_response bot = None.
Proof. eexists. eexists. split; vm_compute; reflexivity. Qed.

Lemma newline_content_loses_marker :
  exists usr bot,
    parse_messages CharTokenizer.json_dumps
      (call_messages (lit "Weather?") [nl] (lit "get_weather") (lit "{}")
                     (lit "22")) None
    = Ok (_TEXT_COMPLETION_CMD, [(usr, bot)])
    /\ bot = lit "Action: get_weather" ++ ACTION_INPUT ++ lit " {}"
             ++ OBSERVATION ++ lit " 22" ++ nl :: lit "Thought:"
    /\ _parse_function_response bot = None.
Proof. eexists. eexists. repeat split; vm_compute; reflexivity. Qed.

(** Why the amended C5 speaks of the last call folded into a turn.  Two
    calls in a row, each followed by its result, are folded into one
    assistant turn; the extractor looks for the last markers and returns the
    second call, with the first one in the content. *)
Lemma earlier_call_of_turn_is_not_recovered :
  let request :=
    [message RoleEnum.user (lit "Weather and time?");
     call_message [] (lit "get_weather") (lit "{}");
     message RoleEnum.function (lit "22");
     call_message [] (lit "get_time") (lit "{}");
     message RoleEnum.function (lit "noon")] in
  exists bot,
    parse_messages CharTokenizer.json_dumps request None
    = Ok (_TEXT_COMPLETION_CMD, [(lit "Weather and time?", bot)])
    /\ bot = lit "Thought: I can use get_weather."
             ++ nl :: lit "Action: get_weather"
             ++ nl :: lit "Action Input: {}"
             ++ nl :: lit "Observation: 22"
             ++ nl :: lit "Thought: I can use get_time."
             ++ nl :: lit "Action: get_time"
             ++ nl :: lit "Action Input: {}"
             ++ nl :: lit "Observation: noon"
             ++ nl :: lit "Thought:"
    /\ option_map dm_function_call (_parse_function_response bot)
       = Some (Some {| fc_name := lit "get_time"; fc_arguments := lit "{}" |}).
Proof. eexists. repeat split; vm_compute; reflexivity. Qed.

Lemma function_call_round_trip_witness :
  let earlier :=
    [message RoleEnum.user (lit "Weather and time?");
     call_message [] (lit "get_weather") (lit "{}");
     message RoleEnum.function (lit "22")] in
  let request :=
    earlier ++ call_message [] (lit "get_time") (lit "{}")
      :: message RoleEnum.function (lit "noon") :: [] in
  exists history before usr bot thought,
    parse_messages CharTokenizer.json_dumps request None
    = Ok (_TEXT_COMPLETION_CMD, history)
    /\ history = before ++ [(usr, bot)]
    /\ _parse_function_response bot
       = Some {| dm_role := None;
                 dm_content := Some thought;
                 dm_function_call :=
                   Some {| fc_name := strip (lit "get_time");
                           fc_arguments := strip (lit "{}") |} |}.
Proof.
  intros earlier request.
  destruct (function_call_round_trip unit CharTokenizer.json_dumps None
              earlier [] [] (lit "get_time") (lit "{}") (lit "noon"))
    as [Haccepted Hrecovered].
  - repeat split; reflexivity.
  - repeat split; reflexivity.
  - repeat split; reflexivity.
  - vm_compute. discriminate.
  - left. reflexivity.
  - exact I.
  - destruct (Haccepted eq_refl) as [history H].
    { eexists. eexists. vm_compute. reflexivity. }
    destruct (Hrecovered _ _ H)
      as (before & usr & bot & after & thought & args1
          & Hh & Hl & _ & _ & Hx).
    destruct (Hl eq_refl) as [-> _].
    exists history, before, usr, bot, thought. repeat split; assumption.
Defined.

(** * Further properties of the renderer *)

(** ** The text a streaming client receives *)

Section DeliveryFacts.

Variable default_usage : option UsageInfo.
Variable input_token_length : Z.

Local Abbreviation update := (update default_usage input_token_length).
Local Abbreviation finish := (finish input_token_length).
Local Abbreviation updates := (updates default_usage input_token_length).

Lemma rstrip_chars_app_prefix (f : char -> bool) (x t : str) :
  exists u, rstrip_chars f (x ++ t) = rstrip_chars f x ++ u.
Proof.
  destruct (rstrip_chars_split f x) as (w & Hx & Hw).
  destruct (rev (rstrip_chars f x)) as [|e r] eqn:E.
  - apply (f_equal (@rev char)) in E. rewrite rev_involutive in E.
    rewrite E. now exists (rstrip_chars f (x ++ t)).
  - assert (He : f e = false).
    { unfold rstrip_chars in E. rewrite rev_involutive in E.
      exact (dropwhile_head _ _ _ _ E). }
    apply (f_equal (@rev char)) in E. rewrite rev_involutive in E.
    simpl in E. exists (rstrip_chars f (w ++ t)).
    rewrite Hx at 1. rewrite E, <- !app_assoc. simpl.
    now rewrite (rstrip_chars_keep _ _ _ _ He).
Qed.

(** Trimming an extended text extends the trimmed text. *)
Lemma strip_prefix_mono (s t : str) : exists u, strip (s ++ t) = strip s ++ u.
Proof.
  unfold strip, strip_chars, lstrip_chars.
  destruct (dropwhile_split is_space s) as (w & Hs & Hw).
  destruct (dropwhile is_space s) as [|c y] eqn:E.
  - now exists (rstrip_chars is_space (dropwhile is_space (s ++ t))).
  - pose proof (dropwhile_head _ _ _ _ E) as Hc.
    rewrite Hs, <- app_assoc, (dropwhile_all _ _ _ Hw).
    cbn [app dropwhile]. rewrite Hc.
    exact (rstrip_chars_app_prefix is_space (c :: y) t).
Qed.

Lemma slice_to_nonneg {A : Type} (s : list A) (b : Z) :
  (0 <= b)%Z -> slice_to s b = firstn (Z.to_nat b) s.
Proof.
  intros H. unfold slice_to, norm_index.
  destruct (Z.ltb_spec b 0); [lia | reflexivity].
Qed.

Lemma slice_from_nonneg {A : Type} (s : list A) (a : Z) :
  (0 <= a)%Z -> slice_from s a = skipn (Z.to_nat a) s.
Proof.
  intros H. unfold slice_from, norm_index.
  destruct (Z.ltb_spec a 0); [lia | reflexivity].
Qed.

Lemma slice_nonneg {A : Type} (s : list A) (a b : Z) :
  (0 <= a)%Z -> (0 <= b)%Z ->
  slice s a b = skipn (Z.to_nat a) (firstn (Z.to_nat b) s).
Proof.
  intros Ha Hb. unfold slice, norm_index.
  destruct (Z.ltb_spec a 0); [lia|].
  destruct (Z.ltb_spec b 0); [lia | reflexivity].
Qed.

Lemma firstn_then_slice {A : Type} (s : list A) (a b : nat) :
  a <= b -> firstn a s ++ skipn a (firstn b s) = firstn b s.
Proof.
  intros H. rewrite <- (firstn_skipn a (firstn b s)) at 2.
  f_equal. rewrite firstn_firstn. f_equal. lia.
Qed.

Lemma firstn_length_firstn {A : Type} (s : list A) (b : nat) :
  firstn (length (firstn b s)) s = firstn b s.
Proof.
  rewrite length_firstn. destruct (Nat.le_ge_cases b (length s)) as [H|H].
  - now rewrite Nat.min_l.
  - rewrite Nat.min_r by assumption. now rewrite !firstn_all2 by lia.
Qed.

Lemma update_delivered (st : StreamState) (po : ProcessedOutput) (acc : str) :
  delivered st acc ->
  (exists u, strip (output_str po) = output_string st ++ u) ->
  delivered (fst (update st po))
            (acc ++ concat (contents (snd (update st po)))).
Proof.
  intros (Hr & _ & Hacc) [u Hu].
  assert (Hkeep : acc = slice_to (strip (output_str po)) (responded_length st)).
  { rewrite Hacc, !slice_to_nonneg by lia. rewrite Hu.
    rewrite firstn_app.
    replace (Z.to_nat (responded_length st) - length (output_string st))
      with 0 by (unfold len in Hr; lia).
    simpl. now rewrite app_nil_r. }
  assert (Hlen : (len (output_string st) <= len (strip (output_str po)))%Z).
  { rewrite Hu, len_app. pose proof (len_nonneg u). lia. }
  pose proof (strip_length (output_str po)) as Hs.
  unfold update.
  cbn [set_processed output_string generating_function_call output_length
       responded_length].
  assert (Hann : contents
                   (if (output_token_length st =? 0)%Z
                    then [role_announcement default_usage st] else []) = []).
  { destruct (output_token_length st =? 0)%Z; reflexivity. }
  destruct (endswith (strip (output_str po)) ACTION).
  { cbn [fst snd]. rewrite Hann. cbn [concat]. rewrite app_nil_r.
    repeat split; cbn; try assumption; lia. }
  destruct (generating_function_call st).
  { cbn [fst snd]. rewrite Hann. cbn [concat]. rewrite app_nil_r.
    repeat split; cbn; try assumption; lia. }
  destruct (Z.gtb_spec (len (output_str po)) (responded_length st + len ACTION))
    as [Hgt|Hle].
  2:{ cbn [fst snd]. rewrite Hann. cbn [concat]. rewrite app_nil_r.
      repeat split; cbn; try assumption; lia. }
  change (len ACTION) with 8%Z in Hgt.
  change (len (lit "Action:")) with 7%Z.
  cbn [fst snd set_responded responded_length output_string output_length].
  rewrite contents_app, Hann. cbn [app contents flat_map respond choices
    c_delta content_delta dm_content concat].
  rewrite !app_nil_r.
  pose proof (slice_to_len_le (strip (output_str po))
                (len (output_str po) - 7)) as Hb.
  repeat split;
    cbn [responded_length output_string output_length set_responded
         set_processed]; try lia.
  rewrite Hkeep, slice_nonneg, !slice_to_nonneg by lia.
  rewrite firstn_then_slice by lia.
  unfold len. rewrite Nat2Z.id. now rewrite firstn_length_firstn.
Qed.

Lemma updates_delivered (pos : list ProcessedOutput) :
  forall (prev : str) (st : StreamState) (acc : str),
    grows prev pos ->
    output_string st = strip prev ->
    delivered st acc ->
    delivered (fst (updates st pos))
              (acc ++ concat (contents (snd (updates st pos)))).
Proof.
  induction pos as [|po pos IH]; intros prev st acc Hg Hs Hd.
  - simpl. now rewrite app_nil_r.
  - destruct Hg as [[t Ht] Hg]. simpl.
    assert (Hext : exists u, strip (output_str po) = output_string st ++ u).
    { rewrite Ht, Hs. apply strip_prefix_mono. }
    pose proof (update_delivered st po acc Hd Hext) as Hd1.
    pose proof (update_output_string default_usage input_token_length st po)
      as Hs1.
    specialize (IH (output_str po) _ _ Hg Hs1 Hd1).
    destruct (update st po) as [st1 out1]. cbn [fst snd] in *.
    destruct (updates st1 pos) as [st2 out2]. cbn [fst snd] in *.
    now rewrite contents_app, concat_app, app_assoc.
Qed.

Lemma finish_contents_plain (st : StreamState) :
  generating_function_call st = false ->
  contents (snd (finish st))
  = (if (responded_length st <? output_length st)%Z
     then [slice_from (output_string st) (responded_length st)] else [])
    ++ [[]].
Proof.
  intros Hg. unfold finish. rewrite Hg.
  destruct (finish_reason st);
    destruct (responded_length st <? output_length st)%Z eqn:C;
    cbn; rewrite ?C; reflexivity.
Qed.

Lemma delivered_all (st : StreamState) (acc : str) :
  delivered st acc ->
  acc ++ concat
           ((if (responded_length st <? output_length st)%Z
             then [slice_from (output_string st) (responded_length st)]
             else []) ++ [[]])
  = output_string st.
Proof.
  intros (Hr & Hl & ->). rewrite slice_to_nonneg by lia.
  destruct (Z.ltb_spec (responded_length st) (output_length st)).
  - cbn. rewrite app_nil_r, slice_from_nonneg by lia. apply firstn_skipn.
  - cbn. rewrite app_nil_r. apply firstn_all2. unfold len in *. lia.
Qed.

(** X1.  When every decoded output extends the one before it, the contents
    yielded over the whole run, concatenated, are the final trimmed output:
    nothing is lost, repeated or reordered.  The one exception is a function
    call that the extractor recognizes: then the contents stop right before
    the last [\nAction:] of the output. *)
Theorem streamed_text_is_output (pos : list ProcessedOutput) :
  grows [] pos ->
  let st := fst (updates initial_state pos) in
  let text :=
    concat (contents (stream_processed default_usage input_token_length pos)) in
  match (if generating_function_call st
         then _parse_function_response
                (slice_from (output_string st) (responded_length st))
         else None) with
  | None => text = output_string st
  | Some _ =>
      exists rest,
        text ++ ACTION ++ rest = output_string st
        /\ contains ACTION rest = false
  end.
Proof.
  intros Hg st text.
  assert (Hd0 : delivered initial_state []).
  { repeat split; cbn; lia. }
  pose proof (updates_delivered pos [] initial_state [] Hg eq_refl Hd0) as Hd.
  cbn [app] in Hd. fold st in Hd.
  assert (Htext : text = concat (contents (snd (updates initial_state pos)))
                         ++ concat (contents (snd (finish st)))).
  { subst text st. unfold stream_processed.
    destruct (updates initial_state pos) as [st1 out1]. cbn [fst snd].
    now rewrite contents_app, concat_app. }
  destruct (generating_function_call st) eqn:Hgen.
  - pose proof (finish_contents input_token_length st Hgen) as Hf.
    cbv zeta in Hf.
    destruct (_parse_function_response
                (slice_from (output_string st) (responded_length st))).
    + destruct Hf as (content & rest & Hsuf & Hno & Hc).
      exists rest. split; [|assumption].
      rewrite Htext, Hc. cbn [concat]. rewrite app_nil_r, <- app_assoc, <- Hsuf.
      destruct Hd as (Hr & _ & ->).
      rewrite slice_to_nonneg, slice_from_nonneg by lia. apply firstn_skipn.
    + rewrite Htext, Hf. now apply delivered_all.
  - rewrite Htext, (finish_contents_plain st Hgen). now apply delivered_all.
Qed.

End DeliveryFacts.

Lemma streamed_text_is_output_witness :
  let pos := [ {| output_str := lit "The weather in Boston";
                  po_output_token_length := 4; po_finish_reason := None |};
               {| output_str := lit "The weather in Boston is sunny today.";
                  po_output_token_length := 8; po_finish_reason := None |} ] in
  grows [] pos
  /\ concat (contents (stream_processed None 0 pos))
     = lit "The weather in Boston is sunny today.".
Proof.
  intros pos.
  assert (H : grows [] pos).
  { split; [now exists (lit "The weather in Boston")|].
    split; [now exists (lit " is sunny today.") | exact I]. }
  split; [exact H|].
  exact (streamed_text_is_output None 0 pos H).
Defined.

(** ** How a stream ends *)

Section EndingFacts.

Variable default_usage : option UsageInfo.
Variable input_token_length : Z.

Local Abbreviation update := (update default_usage input_token_length).
Local Abbreviation finish := (finish input_token_length).
Local Abbreviation updates := (updates default_usage input_token_length).

Lemma reasons_app (a b : list StreamResponseObject) :
  reasons (a ++ b) = reasons a ++ reasons b.
Proof. apply flat_map_app. Qed.

Lemma calls_app (a b : list StreamResponseObject) :
  calls (a ++ b) = calls a ++ calls b.
Proof. apply flat_map_app. Qed.

Lemma roles_app (a b : list StreamResponseObject) :
  roles (a ++ b) = roles a ++ roles b.
Proof. apply flat_map_app. Qed.

Lemma update_finish_reason (st : StreamState) (po : ProcessedOutput) :
  finish_reason (fst (update st po)) = po_finish_reason po.
Proof.
  unfold update.
  repeat match goal with |- context [if ?b then _ else _] => destruct b end;
    reflexivity.
Qed.

Lemma update_quiet (st : StreamState) (po : ProcessedOutput) :
  Forall (eq None) (reasons (snd (update st po)))
  /\ calls (snd (update st po)) = [].
Proof.
  unfold update.
  repeat match goal with |- context [if ?b then _ else _] => destruct b end;
    cbn; repeat constructor.
Qed.

Lemma updates_quiet (pos : list ProcessedOutput) :
  forall st,
    Forall (eq None) (reasons (snd (updates st pos)))
    /\ calls (snd (updates st pos)) = [].
Proof.
  induction pos as [|po pos IH]; intros st; simpl.
  - split; [constructor | reflexivity].
  - destruct (update_quiet st po) as [H1 H2]. specialize (IH (fst (update st po))).
    destruct (update st po) as [st1 out1]. cbn [fst snd] in *.
    destruct (updates st1 pos) as [st2 out2]. cbn [fst snd] in *.
    destruct IH as [H3 H4].
    rewrite reasons_app, calls_app, H2, H4. split; [|reflexivity].
    apply Forall_app. now split.
Qed.

Lemma updates_finish_reason (pos : list ProcessedOutput) :
  forall st,
    finish_reason st = None ->
    Forall (fun po => po_finish_reason po = None) pos ->
    finish_reason (fst (updates st pos)) = None.
Proof.
  induction pos as [|po pos IH]; intros st Hst Hall; simpl; [assumption|].
  apply Forall_cons_iff in Hall. destruct Hall as [Hpo Hall].
  pose proof (update_finish_reason st po) as H1. rewrite Hpo in H1.
  specialize (IH _ H1 Hall).
  destruct (update st po) as [st1 out1]. cbn [fst] in *.
  destruct (updates st1 pos) as [st2 out2]. exact IH.
Qed.

Lemma extractor_returns_call (r : str) (fm : DeltaMessage) :
  _parse_function_response r = Some fm ->
  dm_role fm = None /\ exists fc, dm_function_call fm = Some fc.
Proof.
  unfold _parse_function_response.
  destruct ((0 <=? rfind r ACTION) && (rfind r ACTION <? rfind r ACTION_INPUT))%Z;
    [|discriminate].
  match goal with
  | |- context [strip (slice ?resp ?x ?y)] =>
      destruct (strip (slice resp x y)); [discriminate|]
  end.
  intros [= <-]. split; [reflexivity|]. eexists. reflexivity.
Qed.

Lemma finish_ending (st : StreamState) :
  finish_reason st = None ->
  (exists nones,
     Forall (eq None) nones
     /\ reasons (snd (finish st)) = nones ++ [Some stop]
     /\ calls (snd (finish st)) = [])
  \/ (exists fc,
        reasons (snd (finish st))
        = [Some function_call_reason; Some function_call_reason]
        /\ calls (snd (finish st)) = [fc]).
Proof.
  intros Hr. unfold finish.
  destruct (generating_function_call st).
  - destruct (_parse_function_response _) as [fm|] eqn:E.
    + right. destruct (extractor_returns_call _ _ E) as [_ [fc Hfc]].
      exists fc.
      cbn [set_responded set_finish_reason finish_reason responded_length
           output_length].
      rewrite Z.ltb_irrefl. cbn. now rewrite Hfc.
    + left. rewrite Hr.
      destruct (responded_length st <? output_length st)%Z eqn:C.
      * exists [None]. cbn. rewrite C. cbn. repeat constructor.
      * exists []. cbn. rewrite C. cbn. repeat constructor.
  - left. rewrite Hr.
    destruct (responded_length st <? output_length st)%Z eqn:C.
    + exists [None]. cbn. rewrite C. cbn. repeat constructor.
    + exists []. cbn. rewrite C. cbn. repeat constructor.
Qed.

Variable eos_token_id : Z.
Variable _remove_stop_word_ids : list Z -> list Z.
Variable _check_finish_reason : list Z -> option FinisheReason.
Variable decode : list Z -> str.
Variable stop_words_list : list str.

(** X2.  Whatever the generation steps are, [render_response_stream] ends
    with a delta that carries a finish reason, and the reasons over the whole
    run take one of two shapes: none until a final [stop], with no function
    call yielded; or none until [function_call] twice, on the one function
    call yielded and on the last delta.  It never reports [length] and never
    leaves the last reason unset. *)
Theorem stream_finish_reasons (outputs : list (list Z)) :
  let evs :=
    render_response_stream default_usage input_token_length eos_token_id
      _remove_stop_word_ids _check_finish_reason decode stop_words_list
      outputs in
  exists nones,
    Forall (eq None) nones
    /\ ((reasons evs = nones ++ [Some stop] /\ calls evs = [])
        \/ exists fc,
             reasons evs
             = nones ++ [Some function_call_reason; Some function_call_reason]
             /\ calls evs = [fc]).
Proof.
  intros evs. subst evs. unfold render_response_stream, stream_processed.
  set (pos := map _ outputs).
  assert (Hall : Forall (fun po => po_finish_reason po = None) pos).
  { subst pos. apply Forall_forall. intros po Hin.
    apply in_map_iff in Hin. destruct Hin as (ids & <- & _). reflexivity. }
  pose proof (updates_finish_reason pos initial_state eq_refl Hall) as Hr.
  destruct (updates_quiet pos initial_state) as [Hq Hc].
  destruct (updates initial_state pos) as [st out]. cbn [fst snd] in *.
  rewrite reasons_app, calls_app, Hc. cbn [app].
  destruct (finish_ending st Hr) as [(nones & Hn & He & Hcs) | (fc & He & Hcs)].
  - exists (reasons out ++ nones). split; [apply Forall_app; now split|].
    left. split; [|assumption]. now rewrite He, app_assoc.
  - exists (reasons out). split; [assumption|].
    right. exists fc. split; [|assumption]. now rewrite He.
Qed.

End EndingFacts.

(** ** The role announcement *)

Section RoleFacts.

Variable default_usage : option UsageInfo.
Variable input_token_length : Z.

Local Abbreviation update := (update default_usage input_token_length).
Local Abbreviation finish := (finish input_token_length).
Local Abbreviation updates := (updates default_usage input_token_length).

Lemma update_roles (st : StreamState) (po : ProcessedOutput) :
  roles (snd (update st po))
  = if (output_token_length st =? 0)%Z then [RoleEnum.assistant] else [].
Proof.
  unfold update.
  destruct (output_token_length st =? 0)%Z;
    repeat match goal with |- context [if ?b then _ else _] => destruct b end;
    reflexivity.
Qed.

Lemma updates_roles (pos : list ProcessedOutput) :
  forall st,
    Forall (fun po => po_output_token_length po <> 0%Z) pos ->
    roles (snd (updates st pos))
    = match pos with
      | [] => []
      | _ :: _ =>
          if (output_token_length st =? 0)%Z then [RoleEnum.assistant] else []
      end.
Proof.
  induction pos as [|po pos IH]; intros st Hall; simpl; [reflexivity|].
  apply Forall_cons_iff in Hall. destruct Hall as [Hpo Hall].
  pose proof (update_roles st po) as H1.
  pose proof (update_token_length default_usage input_token_length st po) as Ht.
  specialize (IH (fst (update st po)) Hall).
  destruct (update st po) as [st1 out1]. cbn [fst snd] in *.
  destruct (updates st1 pos) as [st2 out2]. cbn [fst snd] in *.
  rewrite roles_app, H1, IH, Ht.
  destruct pos; [now rewrite app_nil_r|].
  destruct (Z.eqb_spec (po_output_token_length po) 0); [contradiction|].
  now rewrite app_nil_r.
Qed.

Lemma finish_roles (st : StreamState) : roles (snd (finish st)) = [].
Proof.
  unfold finish.
  destruct (generating_function_call st);
    [destruct (_parse_function_response _) as [fm|] eqn:E|].
  - destruct (extractor_returns_call _ _ E) as [Hrole _].
    cbn [set_responded set_finish_reason finish_reason responded_length
         output_length].
    rewrite Z.ltb_irrefl. cbn. now rewrite Hrole.
  - destruct (finish_reason st);
      destruct (responded_length st <? output_length st)%Z eqn:C;
      cbn; rewrite ?C; reflexivity.
  - destruct (finish_reason st);
      destruct (responded_length st <? output_length st)%Z eqn:C;
      cbn; rewrite ?C; reflexivity.
Qed.

(** X3.  When every generation step reports at least one completion token,
    a non-empty stream yields the role [assistant] exactly once, in its very
    first object; a stream without steps yields no role at all. *)
Theorem role_announced_once (pos : list ProcessedOutput) :
  Forall (fun po => po_output_token_length po <> 0%Z) pos ->
  roles (stream_processed default_usage input_token_length pos)
  = match pos with [] => [] | _ :: _ => [RoleEnum.assistant] end
  /\ (pos <> [] ->
      exists evs,
        stream_processed default_usage input_token_length pos
        = role_announcement default_usage initial_state :: evs).
Proof.
  intros Hall. split.
  - pose proof (updates_roles pos initial_state Hall) as H.
    unfold stream_processed.
    destruct (updates initial_state pos) as [st out]. cbn [snd] in H.
    rewrite roles_app, H, finish_roles, app_nil_r.
    destruct pos; reflexivity.
  - intros Hne. destruct pos as [|po pos]; [congruence|].
    unfold stream_processed. simpl.
    assert (H : exists evs,
               snd (update initial_state po)
               = role_announcement default_usage initial_state :: evs).
    { unfold update. cbn [initial_state output_token_length Z.eqb].
      repeat match goal with |- context [if ?b then _ else _] => destruct b end;
        eexists; reflexivity. }
    destruct H as [evs H].
    destruct (update initial_state po) as [st1 out1]. cbn [snd] in H. subst out1.
    destruct (updates st1 pos) as [st2 out2].
    eexists. reflexivity.
Qed.

End RoleFacts.

Lemma role_announced_once_witness :
  let pos := [ {| output_str := lit "Hello"; po_output_token_length := 1;
                  po_finish_reason := None |};
               {| output_str := lit "Hello there, how are you?";
                  po_output_token_length := 6; po_finish_reason := None |} ] in
  roles (stream_processed None 0 pos) = [RoleEnum.assistant].
Proof.
  intros pos.
  apply (role_announced_once None 0 pos).
  repeat constructor; discriminate.
Defined.

(** ** More on the function-call extractor *)

Section ExtractorEdgeFacts.

Lemma rfind_from_before (a b : str) (c : char) (sub' : str) :
  contains (c :: sub') b = false ->
  forall pos i,
    rfind_from (a ++ b) (c :: sub') pos = Some i -> i < pos + length a.
Proof.
  intros Hb. induction a as [|x a IH]; intros pos i H.
  - apply (proj2 (rfind_from_none _ _ pos)) in Hb. simpl in H.
    rewrite Hb in H. discriminate.
  - cbn [app rfind_from] in H.
    destruct (rfind_from (a ++ b) (c :: sub') (S pos)) eqn:E.
    + injection H as <-. specialize (IH _ _ E). simpl. lia.
    + destruct (startswith _ _); [|discriminate].
      injection H as <-. simpl. lia.
Qed.

(** An occurrence found in [a ++ b] starts inside [a] when [b] has none. *)
Lemma rfind_before (a b : str) (c : char) (sub' : str) :
  contains (c :: sub') b = false ->
  (rfind (a ++ b) (c :: sub') < len a)%Z.
Proof.
  intros Hb. unfold rfind, len.
  destruct (rfind_from (a ++ b) (c :: sub') 0) eqn:E; [|lia].
  pose proof (rfind_from_before a b c sub' Hb 0 _ E). lia.
Qed.

Lemma strip_idem (s : str) : strip (strip s) = strip s.
Proof.
  unfold strip, strip_chars.
  rewrite lstrip_rstrip_comm, rstrip_chars_idem.
  unfold lstrip_chars. now rewrite dropwhile_idem.
Qed.

(** The extractor on a call whose [Observation:] stop word was cut off. *)
Lemma extractor_on_cut_pattern (P name1 args1 : str) :
  contains ACTION name1 = false ->
  contains ACTION args1 = false ->
  contains ACTION_INPUT args1 = false ->
  contains OBSERVATION args1 = false ->
  strip name1 <> [] ->
  _parse_function_response (P ++ ACTION ++ name1 ++ ACTION_INPUT ++ args1)
  = Some {| dm_role := None;
            dm_content := Some P;
            dm_function_call :=
              Some {| fc_name := strip name1; fc_arguments := strip args1 |} |}.
Proof.
  intros Han Haa Hia Hoa Hname.
  set (text := P ++ ACTION ++ name1 ++ ACTION_INPUT ++ args1).
  assert (Hi : rfind text ACTION = len P).
  { unfold text, ACTION, ACTION_INPUT in *.
    apply rfind_last.
    rewrite (contains_nl_free_head _ (lit "Action:")) by reflexivity.
    rewrite contains_app_marker, Han by reflexivity.
    now rewrite contains_other_marker by reflexivity. }
  assert (Hj : rfind text ACTION_INPUT = len (P ++ ACTION ++ name1)).
  { unfold text, ACTION, ACTION_INPUT in *.
    replace (P ++ (nl :: lit "Action:") ++ name1
             ++ (nl :: lit "Action Input:") ++ args1)
      with ((P ++ (nl :: lit "Action:") ++ name1)
            ++ (nl :: lit "Action Input:") ++ args1)
      by (now rewrite <- !app_assoc).
    apply rfind_last.
    now rewrite (contains_nl_free_head _ (lit "Action Input:")) by reflexivity. }
  assert (Hk : (rfind text OBSERVATION <? len (P ++ ACTION ++ name1))%Z = true).
  { apply Z.ltb_lt. unfold text, OBSERVATION, ACTION_INPUT in *.
    replace (P ++ ACTION ++ name1 ++ (nl :: lit "Action Input:") ++ args1)
      with ((P ++ ACTION ++ name1) ++ (nl :: lit "Action Input:") ++ args1)
      by (now rewrite <- !app_assoc).
    apply rfind_before.
    now rewrite contains_other_marker by reflexivity. }
  assert (Hstrip : rstrip text
                   = P ++ ACTION ++ name1 ++ ACTION_INPUT ++ rstrip args1).
  { unfold text.
    replace (P ++ ACTION ++ name1 ++ ACTION_INPUT ++ args1)
      with ((P ++ ACTION ++ name1) ++ ACTION_INPUT ++ args1)
      by (now rewrite <- !app_assoc).
    rewrite rstrip_keeps_action_input. now rewrite <- !app_assoc. }
  assert (Hk' : rfind (rstrip text ++ OBSERVATION) OBSERVATION
                = len (rstrip text)).
  { rewrite <- (app_nil_r OBSERVATION) at 1. unfold OBSERVATION.
    apply rfind_last. reflexivity. }
  unfold _parse_function_response. fold text. rewrite Hi, Hj.
  assert (Hc : ((0 <=? len P) && (len P <? len (P ++ ACTION ++ name1)))%Z
               = true).
  { apply andb_true_iff. split; [apply Z.leb_le | apply Z.ltb_lt].
    - apply len_nonneg.
    - rewrite !len_app. change (len ACTION) with 8%Z.
      pose proof (len_nonneg name1). lia. }
  rewrite Hc, Hk. lazy beta iota zeta. rewrite Hk', Hstrip.
  assert (Hn : slice (P ++ ACTION ++ name1 ++ ACTION_INPUT ++ rstrip args1
                        ++ OBSERVATION)
                     (len P + len ACTION) (len (P ++ ACTION ++ name1))
               = name1).
  { replace (P ++ ACTION ++ name1 ++ ACTION_INPUT ++ rstrip args1
               ++ OBSERVATION)
      with ((P ++ ACTION) ++ name1
            ++ (ACTION_INPUT ++ rstrip args1 ++ OBSERVATION))
      by (now rewrite <- !app_assoc).
    apply slice_segment; rewrite !len_app; lia. }
  assert (Ha : slice (P ++ ACTION ++ name1 ++ ACTION_INPUT ++ rstrip args1
                        ++ OBSERVATION)
                     (len (P ++ ACTION ++ name1) + len ACTION_INPUT)
                     (len (P ++ ACTION ++ name1 ++ ACTION_INPUT
                             ++ rstrip args1))
               = rstrip args1).
  { replace (P ++ ACTION ++ name1 ++ ACTION_INPUT ++ rstrip args1
               ++ OBSERVATION)
      with ((P ++ ACTION ++ name1 ++ ACTION_INPUT) ++ rstrip args1
            ++ OBSERVATION)
      by (now rewrite <- !app_assoc).
    apply slice_segment; rewrite !len_app; lia. }
  replace ((P ++ ACTION ++ name1 ++ ACTION_INPUT ++ rstrip args1)
           ++ OBSERVATION)
    with (P ++ ACTION ++ name1 ++ ACTION_INPUT ++ rstrip args1 ++ OBSERVATION)
    by (now rewrite <- !app_assoc).
  rewrite Hn, Ha, strip_rstrip.
  destruct (strip name1) as [|c name'] eqn:E; [congruence|].
  now rewrite (slice_to_prefix P _ (len P) eq_refl).
Qed.

(** X4.  Text that lacks [\nAction:], or lacks [\nAction Input:], or has its
    last [\nAction Input:] before its last [\nAction:], is never taken for a
    function call. *)
Theorem extractor_needs_both_markers (response : str) :
  contains ACTION response = false
  \/ contains ACTION_INPUT response = false
  \/ (rfind response ACTION_INPUT <= rfind response ACTION)%Z ->
  _parse_function_response response = None.
Proof.
  intros H. unfold _parse_function_response.
  assert (Hc : ((0 <=? rfind response ACTION)
                && (rfind response ACTION <? rfind response ACTION_INPUT))%Z
               = false).
  { apply andb_false_iff. destruct H as [H | [H | H]].
    - left. rewrite (rfind_absent _ _ H). reflexivity.
    - right. rewrite (rfind_absent _ _ H). apply Z.ltb_ge.
      apply rfind_lower.
    - right. now apply Z.ltb_ge. }
  now rewrite Hc.
Qed.

(** X5.  What the extractor returns is always a call with a name: no role, a
    function call whose name is not empty, and a name and arguments without
    leading or trailing whitespace. *)
Theorem extractor_result_is_trimmed (response : str) (fm : DeltaMessage) :
  _parse_function_response response = Some fm ->
  dm_role fm = None
  /\ exists fc,
       dm_function_call fm = Some fc
       /\ fc_name fc <> []
       /\ strip (fc_name fc) = fc_name fc
       /\ strip (fc_arguments fc) = fc_arguments fc.
Proof.
  unfold _parse_function_response.
  destruct ((0 <=? rfind response ACTION)
            && (rfind response ACTION <? rfind response ACTION_INPUT))%Z;
    [|discriminate].
  match goal with
  | |- context [match strip (slice ?resp ?x ?y) with _ => _ end] =>
      destruct (strip (slice resp x y)) as [|c name] eqn:E; [discriminate|]
  end.
  intros [= <-]. split; [reflexivity|]. eexists. split; [reflexivity|].
  cbn [fc_name fc_arguments]. repeat split.
  - discriminate.
  - rewrite <- E. apply strip_idem.
  - apply strip_idem.
Qed.

(** X6.  The stop word is restored: a call whose text was cut right before
    [\nObservation:] is extracted exactly as the same text followed by
    [\nObservation:] and anything free of markers. *)
Theorem extractor_restores_observation (P name1 args1 tail : str) :
  contains ACTION name1 = false ->
  marker_free args1 -> marker_free tail ->
  strip name1 <> [] ->
  _parse_function_response (P ++ ACTION ++ name1 ++ ACTION_INPUT ++ args1)
  = _parse_function_response
      (P ++ ACTION ++ name1 ++ ACTION_INPUT ++ args1 ++ OBSERVATION ++ tail)
  /\ _parse_function_response (P ++ ACTION ++ name1 ++ ACTION_INPUT ++ args1)
     = Some {| dm_role := None;
               dm_content := Some P;
               dm_function_call :=
                 Some {| fc_name := strip name1;
                         fc_arguments := strip args1 |} |}.
Proof.
  intros Hn (Ha1 & Ha2 & Ha3) (Ht1 & Ht2 & Ht3) Hname.
  rewrite extractor_on_cut_pattern, extractor_on_pattern by assumption.
  split; reflexivity.
Qed.

End ExtractorEdgeFacts.

Lemma extractor_needs_both_markers_witness :
  _parse_function_response (lit "Final Answer: 22 degrees") = None.
Proof.
  apply extractor_needs_both_markers. left. reflexivity.
Defined.

Lemma extractor_result_is_trimmed_witness :
  let response :=
    lit "Thought: ok" ++ ACTION ++ lit "  get_weather " ++ ACTION_INPUT
    ++ lit " {}  " in
  let fm :=
    {| dm_role := None;
       dm_content := Some (lit "Thought: ok");
       dm_function_call :=
         Some {| fc_name := lit "get_weather"; fc_arguments := lit "{}" |} |} in
  _parse_function_response response = Some fm
  /\ strip (lit "get_weather") = lit "get_weather".
Proof.
  intros response fm.
  assert (E : _parse_function_response response = Some fm)
    by (vm_compute; reflexivity).
  split; [exact E|].
  destruct (extractor_result_is_trimmed response fm E)
    as (_ & fc & Hfc & _ & Hname & _).
  injection Hfc as <-. exact Hname.
Defined.

Lemma extractor_restores_observation_witness :
  _parse_function_response
    (lit "Thought: ok" ++ ACTION ++ lit " get_weather" ++ ACTION_INPUT
     ++ lit " {}")
  = _parse_function_response
      (lit "Thought: ok" ++ ACTION ++ lit " get_weather" ++ ACTION_INPUT
       ++ lit " {}" ++ OBSERVATION ++ lit " 22").
Proof.
  apply (extractor_restores_observation (lit "Thought: ok")
           (lit " get_weather") (lit " {}") (lit " 22")).
  - reflexivity.
  - repeat split; reflexivity.
  - repeat split; reflexivity.
  - vm_compute. discriminate.
Defined.

(** ** A well-formed call at the end of a stream *)

Section CallDeliveryFacts.

Variable input_token_length : Z.

Local Abbreviation finish := (finish input_token_length).

(** X7.  When the latch is on and the text not yet delivered is a thought
    followed by [\nAction: name\nAction Input: arguments], with the stop word
    cut off, the code after the loop yields exactly two contents, the thought
    and the empty content of the last delta; exactly one function call, with
    the trimmed name and arguments; and the finish reason [function_call] on
    both deltas.  No marker is delivered as text. *)
Theorem buffered_call_is_delivered (st : StreamState) (P name1 args1 : str) :
  generating_function_call st = true ->
  slice_from (output_string st) (responded_length st)
  = P ++ ACTION ++ name1 ++ ACTION_INPUT ++ args1 ->
  contains ACTION name1 = false ->
  marker_free args1 ->
  strip name1 <> [] ->
  contents (snd (finish st)) = [P; []]
  /\ calls (snd (finish st))
     = [ {| fc_name := strip name1; fc_arguments := strip args1 |} ]
  /\ reasons (snd (finish st))
     = [Some function_call_reason; Some function_call_reason].
Proof.
  intros Hg Hs Hn (Ha1 & Ha2 & Ha3) Hname.
  unfold finish. rewrite Hg, Hs.
  rewrite (extractor_on_cut_pattern P name1 args1 Hn Ha1 Ha2 Ha3 Hname).
  cbn [set_responded set_finish_reason finish_reason responded_length
       output_length].
  rewrite Z.ltb_irrefl. cbn. repeat split.
Qed.

End CallDeliveryFacts.

Lemma buffered_call_is_delivered_witness :
  let out := lit "I will look it up." ++ ACTION ++ lit " get_weather"
             ++ ACTION_INPUT ++ lit " {}" in
  let st := fst (updates None 0 initial_state
                   [ {| output_str := lit "I will look it up." ++ ACTION;
                        po_output_token_length := 7;
                        po_finish_reason := None |};
                     {| output_str := out; po_output_token_length := 12;
                        po_finish_reason := None |} ]) in
  generating_function_call st = true
  /\ contents (snd (finish 0 st)) = [lit "I will look it up."; []].
Proof.
  intros out st.
  assert (Hg : generating_function_call st = true) by reflexivity.
  split; [exact Hg|].
  apply (buffered_call_is_delivered 0 st (lit "I will look it up.")
           (lit " get_weather") (lit " {}")).
  - exact Hg.
  - vm_compute. reflexivity.
  - reflexivity.
  - repeat split; reflexivity.
  - vm_compute. discriminate.
Defined.

(** ** The normalized conversation *)

Section NormalizedFacts.

Lemma no_double_assistant_app (p : bool) (x y : list Turn) :
  no_double_assistant p (x ++ y)
  = no_double_assistant p x
    && no_double_assistant (ends_with_assistant p x) y.
Proof.
  revert p. induction x as [|t x IH]; intros p; [reflexivity|].
  assert (He : forall q,
             ends_with_assistant q (t :: x)
             = ends_with_assistant (role_eqb (t_role t) RoleEnum.assistant) x).
  { intros q. unfold ends_with_assistant. rewrite last_turn_cons.
    destruct (last_turn x); reflexivity. }
  cbn [app no_double_assistant]. rewrite (He p).
  destruct (t_role t); cbn [role_eqb]; rewrite ?IH;
    try reflexivity; now rewrite andb_assoc.
Qed.

Lemma no_double_assistant_roles (p : bool) (x y : list Turn) :
  map t_role x = map t_role y ->
  no_double_assistant p x = no_double_assistant p y.
Proof.
  revert p y. induction x as [|t x IH]; intros p [|u y] H; try discriminate.
  - reflexivity.
  - injection H as Ht H. cbn [no_double_assistant]. rewrite Ht.
    destruct (t_role u); try reflexivity; now rewrite (IH _ y H).
Qed.

Lemma normalize_keeps_order (fg : bool) (messages : list ChatMessage) :
  forall acc out,
    no_double_assistant true acc = true ->
    normalize fg messages acc = Ok out ->
    no_double_assistant true out = true.
Proof.
  induction messages as [|m rest IH]; intros acc out Hacc H.
  - simpl in H. now injection H as <-.
  - cbn [normalize] in H. destruct (role m).
    + (* user *)
      apply (IH _ _) in H; [assumption|].
      now rewrite no_double_assistant_app, Hacc.
    + (* assistant *)
      destruct (last_turn acc) as [l|] eqn:El; [|discriminate].
      destruct (role_eqb (t_role l) RoleEnum.user) eqn:Er.
      * apply (IH _ _) in H; [assumption|].
        rewrite no_double_assistant_app, Hacc.
        unfold ends_with_assistant. rewrite El.
        destruct (t_role l); try discriminate. reflexivity.
      * apply (IH _ _) in H; [assumption|].
        rewrite (no_double_assistant_roles true _ acc); [assumption|].
        apply append_last_roles.
    + discriminate.
    + (* function *)
      destruct (last_turn acc) as [l|] eqn:El; [|discriminate].
      destruct (negb (role_eqb (t_role l) RoleEnum.assistant)); [discriminate|].
      apply (IH _ _) in H; [assumption|].
      destruct rest;
        rewrite (no_double_assistant_roles true _ acc); try assumption;
        rewrite !append_last_roles; reflexivity.
    + discriminate.
Qed.

(** X8.  Whatever the request, the messages the normalizer builds are user
    and assistant turns only, the first one is a user turn, and no assistant
    turn follows another: consecutive assistant and function messages are
    merged into one turn. *)
Theorem normalized_turns_are_ordered (fg : bool) (messages : list ChatMessage)
  (out : list Turn) :
  normalize fg messages [] = Ok out ->
  no_double_assistant true out = true.
Proof. apply normalize_keeps_order. reflexivity. Qed.

Lemma normalize_raises (fg : bool) (messages : list ChatMessage) :
  forall acc e,
    normalize fg messages acc = Raise e ->
    e = function_order_error \/ e = assistant_order_error
    \/ e = incorrect_role_error RoleEnum.system
    \/ e = incorrect_role_error RoleEnum.tool.
Proof.
  induction messages as [|m rest IH]; intros acc e H; [discriminate|].
  cbn [normalize] in H. destruct (role m).
  - now apply IH in H.
  - destruct (last_turn acc); [now apply IH in H|].
    injection H as <-. auto.
  - injection H as <-. auto.
  - destruct (last_turn acc) as [l|]; [|injection H as <-; auto].
    destruct (negb (role_eqb (t_role l) RoleEnum.assistant));
      [injection H as <-; auto|].
    now apply IH in H.
  - injection H as <-. auto.
Qed.

(** X9.  The history is extracted from the normalized messages exactly when
    they are not empty and their roles alternate strictly, user first:
    user, assistant, user, ...; the system text plays no part in it.  And
    whenever it is extracted, the result is a query when the number of
    messages is odd and the text-completion command when it is even. *)
Theorem history_needs_alternation (system : str) (messages : list Turn) :
  ((exists query history,
      extract_history system messages = Ok (query, history))
   <-> messages <> [] /\ alternating true messages = true)
  /\ (forall query history,
        extract_history system messages = Ok (query, history) ->
        (query = _TEXT_COMPLETION_CMD <-> Nat.even (length messages) = true)).
Proof.
  split; [apply extract_history_accepts|].
  intros query history H.
  destruct (rev messages) as [|t rl] eqn:E.
  - apply (f_equal (@rev Turn)) in E. rewrite rev_involutive in E.
    simpl in E. subst messages. discriminate.
  - apply (f_equal (@rev Turn)) in E. rewrite rev_involutive in E.
    simpl in E. set (l := rev rl) in *. subst messages.
    unfold extract_history in H.
    rewrite last_turn_snoc, removelast_last in H.
    rewrite length_app. cbn [length].
    replace (length l + 1) with (S (length l)) by lia.
    rewrite Nat.even_succ, <- Nat.negb_even.
    destruct (role_eqb (t_role t) RoleEnum.user) eqn:Er; cbn [bind] in H.
    + destruct (pair_up l system []) as [[s' h']|e] eqn:Ep; [|discriminate].
      destruct (proj1 (pair_up_accepts _ l system [] (le_n _))
                  (ex_intro _ s' (ex_intro _ h' Ep))) as [Ha He].
      rewrite He. cbn [bind] in H.
      destruct s'; injection H as <- _; split; intros; discriminate.
    + destruct (pair_up (l ++ [t]) system []) as [[s' h']|e] eqn:Ep;
        [|discriminate].
      destruct (proj1 (pair_up_accepts _ (l ++ [t]) system [] (le_n _))
                  (ex_intro _ s' (ex_intro _ h' Ep))) as [Ha He].
      rewrite length_app in He. cbn [length] in He.
      replace (length l + 1) with (S (length l)) in He by lia.
      rewrite Nat.even_succ, <- Nat.negb_even in He. rewrite He.
      pose proof (pair_up_leftover _ _ _ _ _ _ (le_n _) Ep) as Hs.
      destruct (l ++ [t]) eqn:El; [now destruct l|]. subst s'.
      cbn [bind] in H. injection H as <- _. now split.
Qed.

End NormalizedFacts.

Lemma normalized_turns_are_ordered_witness :
  let messages :=
    [message RoleEnum.user (lit "Weather?");
     {| role := RoleEnum.assistant; content := None;
        function_call := Some {| fc_name := lit "get_weather";
                                 fc_arguments := lit "{}" |} |};
     message RoleEnum.function (lit "22");
     message RoleEnum.assistant (lit "It is 22 degrees.")] in
  exists out,
    normalize false messages [] = Ok out
    /\ map t_role out = [RoleEnum.user; RoleEnum.assistant]
    /\ no_double_assistant true out = true.
Proof.
  intros messages. eexists. split; [vm_compute; reflexivity|].
  split; [reflexivity|].
  refine (normalized_turns_are_ordered false messages _ _).
  vm_compute. reflexivity.
Defined.

Lemma history_needs_alternation_witness :
  let messages :=
    [ {| t_role := RoleEnum.user; t_content := lit "Hello" |};
      {| t_role := RoleEnum.assistant; t_content := lit "Bonjour" |};
      {| t_role := RoleEnum.user; t_content := lit "How are you?" |} ] in
  let query := QueryStr (lit "How are you?") in
  let history := [(lit "Hello", lit "Bonjour")] in
  extract_history [] messages = Ok (query, history)
  /\ (query = _TEXT_COMPLETION_CMD <-> Nat.even (length messages) = true).
Proof.
  intros messages query history.
  assert (H : extract_history [] messages = Ok (query, history))
    by reflexivity.
  split; [exact H|].
  exact (proj2 (history_needs_alternation [] messages) query history H).
Defined.

(** ** The failures of the normalizer *)

Section FailureFacts.

Variable Json : Type.
Variable json_dumps : Json -> str.

Lemma extract_history_raises (system : str) (messages : list Turn) (e : exn) :
  extract_history system messages = Raise e ->
  e = IndexError \/ e = pairing_error.
Proof.
  unfold extract_history.
  destruct (last_turn messages) as [l|] eqn:El;
    [|intros [= <-]; now left].
  assert (Hne : messages <> []) by (intros ->; discriminate El).
  destruct (role_eqb (t_role l) RoleEnum.user); cbn [bind].
  - destruct (pair_up (removelast messages) system []) as [[s' h]|e'] eqn:Ep.
    + cbn [bind]. destruct s'; discriminate.
    + cbn [bind]. intros [= <-]. exact (pair_up_raises _ _ _ _ _ (le_n _) Ep).
  - destruct (pair_up messages system []) as [[s' h]|e'] eqn:Ep.
    + cbn [bind]. pose proof (pair_up_leftover _ _ _ _ _ _ (le_n _) Ep) as Hs.
      destruct messages; [congruence|]. subst s'. discriminate.
    + cbn [bind]. intros [= <-]. exact (pair_up_raises _ _ _ _ _ (le_n _) Ep).
Qed.

(** X10.  The ways [parse_messages] can fail: no user message at all; a
    leading system message without content (the assertion on [system]); a
    function message not preceded by an assistant turn; an assistant message
    before any user message; a system message that is not the first message,
    or a tool message; and, in the history loop, a pairing mismatch or the
    read past the end of the list.  The assertion that the query is not the
    text-completion command when a system text is left over never fails. *)
Theorem parse_messages_failures (messages : list ChatMessage)
  (functions : option (list (GPTFunctionDefinition Json))) (e : exn) :
  parse_messages json_dumps messages functions = Raise e ->
  e = no_user_error
  \/ (e = AssertionError
      /\ exists m rest,
           messages = m :: rest
           /\ role m = RoleEnum.system /\ content m = None)
  \/ e = function_order_error
  \/ e = assistant_order_error
  \/ e = incorrect_role_error RoleEnum.system
  \/ e = incorrect_role_error RoleEnum.tool
  \/ e = pairing_error
  \/ e = IndexError.
Proof.
  unfold parse_messages.
  destruct (forallb _ messages) eqn:Hu; [intros [= <-]; now left|].
  destruct messages as [|m rest]; [discriminate Hu|].
  cbn [extract_system].
  destruct (role_eqb (role m) RoleEnum.system) eqn:Er.
  - destruct (content m) as [s|] eqn:Ec.
    + cbn [bind].
      destruct (normalize _ rest []) as [normalized|e'] eqn:En; cbn [bind].
      * intros H. apply extract_history_raises in H. tauto.
      * intros [= <-]. apply normalize_raises in En. tauto.
    + cbn [bind]. intros [= <-]. right. left. split; [reflexivity|].
      exists m, rest. repeat split; [|assumption].
      destruct (role m); try discriminate Er; reflexivity.
  - cbn [bind].
    destruct (normalize _ (m :: rest) []) as [normalized|e'] eqn:En;
      cbn [bind].
    + intros H. apply extract_history_raises in H. tauto.
    + intros [= <-]. apply normalize_raises in En. tauto.
Qed.

(** X11.  A leading system message that carries the default system text
    changes nothing: the request is parsed as if that message were absent. *)
Theorem default_system_is_dropped (messages : list ChatMessage)
  (functions : option (list (GPTFunctionDefinition Json))) :
  match messages with
  | m :: _ => role_eqb (role m) RoleEnum.system = false
  | [] => True
  end ->
  parse_messages json_dumps
    (message RoleEnum.system default_system :: messages) functions
  = parse_messages json_dumps messages functions.
Proof.
  intros H. unfold parse_messages.
  cbn [forallb message role role_eqb negb andb].
  destruct (forallb _ messages) eqn:Hu; [reflexivity|].
  destruct messages as [|m rest]; [discriminate Hu|].
  cbn [extract_system message role role_eqb content].
  change (str_eqb default_system default_system) with true. cbv iota.
  now rewrite H.
Qed.

(** X12.  A conversation has to open with a user message: when the first
    message, or the first message after a leading system message, is an
    assistant, function, system or tool message, the request fails with the
    error of that role, provided some user message comes later. *)
Theorem conversation_opens_with_user (m : ChatMessage)
  (rest : list ChatMessage)
  (functions : option (list (GPTFunctionDefinition Json))) :
  role_eqb (role m) RoleEnum.user = false ->
  forallb (fun m => negb (role_eqb (role m) RoleEnum.user)) rest = false ->
  let e :=
    match role m with
    | RoleEnum.assistant => assistant_order_error
    | RoleEnum.function => function_order_error
    | r => incorrect_role_error r
    end in
  (forall s,
     parse_messages json_dumps (message RoleEnum.system s :: m :: rest)
                    functions = Raise e)
  /\ (role_eqb (role m) RoleEnum.system = false ->
      parse_messages json_dumps (m :: rest) functions = Raise e).
Proof.
  intros Hm Hu e. split.
  - intros s. unfold parse_messages.
    cbn [forallb message role role_eqb negb andb]. rewrite Hm, Hu.
    cbn [negb andb extract_system message role role_eqb content bind].
    cbn [normalize]. subst e.
    destruct (role m); try discriminate Hm; reflexivity.
  - intros Hs. unfold parse_messages.
    cbn [forallb]. rewrite Hm, Hu.
    cbn [negb andb extract_system]. rewrite Hs. cbn [bind normalize].
    subst e. destruct (role m); try discriminate Hm; try discriminate Hs;
      reflexivity.
Qed.

End FailureFacts.

Lemma parse_messages_failures_witness :
  parse_messages CharTokenizer.json_dumps
    [message RoleEnum.user (lit "a"); message RoleEnum.tool (lit "b")] None
  = Raise (incorrect_role_error RoleEnum.tool)
  /\ incorrect_role_error RoleEnum.tool <> AssertionError.
Proof.
  assert (H : parse_messages CharTokenizer.json_dumps
                [message RoleEnum.user (lit "a");
                 message RoleEnum.tool (lit "b")] None
              = Raise (incorrect_role_error RoleEnum.tool)) by reflexivity.
  split; [exact H|].
  destruct (parse_messages_failures unit CharTokenizer.json_dumps _ _ _ H)
    as [E | [[E _] | E]]; discriminate.
Defined.

Lemma default_system_is_dropped_witness :
  parse_messages CharTokenizer.json_dumps
    [message RoleEnum.system default_system;
     message RoleEnum.user (lit "Hello")] None
  = parse_messages CharTokenizer.json_dumps
      [message RoleEnum.user (lit "Hello")] None.
Proof.
  apply (default_system_is_dropped unit CharTokenizer.json_dumps
           [message RoleEnum.user (lit "Hello")] None).
  reflexivity.
Defined.

Lemma conversation_opens_with_user_witness :
  parse_messages CharTokenizer.json_dumps
    [message RoleEnum.system (lit "Be brief.");
     message RoleEnum.assistant (lit "Hello");
     message RoleEnum.user (lit "Hi")] None
  = Raise assistant_order_error.
Proof.
  apply (conversation_opens_with_user unit CharTokenizer.json_dumps
           (message RoleEnum.assistant (lit "Hello"))
           [message RoleEnum.user (lit "Hi")] None);
    reflexivity.
Defined.

(** ** More on the sliding window *)

Section WindowBudgetFacts.

Variable tokenizer : QWenTokenizer.

Local Abbreviation turn_tokens := (next_context_tokens tokenizer).
Local Abbreviation turn_text := (prev_chat tokenizer).

Lemma len_flat_map_rev {A B : Type} (f : A -> list B) (l : list A) :
  len (flat_map f (rev l)) = len (flat_map f l).
Proof.
  induction l as [|x l IH]; [reflexivity|].
  cbn [rev flat_map]. rewrite flat_map_snoc, !len_app, IH. lia.
Qed.

Lemma window_all_fit (system_tokens : list Z) (max_window_size : Z)
  (turns : list (str * str)) :
  forall (raw_text : str) (context_tokens : list Z),
    (len system_tokens + len (flat_map turn_tokens turns) + len context_tokens
     < max_window_size)%Z ->
    window tokenizer system_tokens max_window_size turns raw_text context_tokens
    = (flat_map turn_text (rev turns) ++ raw_text,
       flat_map turn_tokens (rev turns) ++ context_tokens).
Proof.
  induction turns as [|turn older IH]; intros raw_text context_tokens H.
  - reflexivity.
  - cbn [window flat_map] in *. rewrite len_app in H.
    pose proof (len_nonneg (flat_map turn_tokens older)).
    destruct (Z.ltb_spec
                (len system_tokens + len (turn_tokens turn)
                 + len context_tokens) max_window_size); [|lia].
    rewrite IH by (rewrite len_app; lia).
    cbn [rev]. now rewrite !flat_map_snoc, <- !app_assoc.
Qed.

(** X13.  Nothing is dropped exactly when everything fits: the rendered
    tokens are the system turn, all history turns in their order and the
    query turn when [len(system_tokens)] plus the tokens of all turns is
    [< max_window_size]; otherwise, for a non-empty history, at least the
    oldest turn is left out. *)
Theorem window_keeps_all_when_it_fits (query : str)
  (history : list (str * str)) (system : str) (max_window_size : Z) :
  ((len (system_tokens_of tokenizer system)
    + len (flat_map turn_tokens history) < max_window_size)%Z ->
   snd (make_context tokenizer query history system max_window_size)
   = system_tokens_of tokenizer system ++ flat_map turn_tokens history
     ++ query_tokens_of tokenizer query)
  /\ ((max_window_size
       <= len (system_tokens_of tokenizer system)
          + len (flat_map turn_tokens history))%Z ->
      history <> [] ->
      exists oldest dropped kept,
        history = oldest :: dropped ++ kept
        /\ snd (make_context tokenizer query history system max_window_size)
           = system_tokens_of tokenizer system ++ flat_map turn_tokens kept
             ++ query_tokens_of tokenizer query).
Proof.
  split.
  - intros H. unfold make_context.
    rewrite window_all_fit.
    + cbn [snd]. now rewrite rev_involutive, app_nil_r, <- app_assoc.
    + rewrite len_flat_map_rev. change (len (@nil Z)) with 0%Z. lia.
  - intros H Hne.
    destruct (window_spec tokenizer (system_tokens_of tokenizer system)
                max_window_size (rev history) [] [])
      as (kept & dropped & Hsplit & Hw & Hkept & _).
    assert (Hh : history = rev dropped ++ rev kept).
    { rewrite <- rev_app_distr, <- Hsplit. now rewrite rev_involutive. }
    destruct (rev dropped) as [|oldest dropped'] eqn:Ed.
    + exfalso. simpl in Hh.
      assert (Hk : kept <> []).
      { intros ->. simpl in Hh. congruence. }
      destruct (exists_last Hk) as (before & t & ->).
      specialize (Hkept before t [] eq_refl).
      change (len (@nil Z)) with 0%Z in Hkept.
      rewrite len_flat_map_rev in Hkept.
      rewrite Hh, len_flat_map_rev, flat_map_snoc, len_app in H. lia.
    + exists oldest, dropped', (rev kept). split; [exact Hh|].
      unfold make_context. rewrite Hw. cbn [snd].
      now rewrite app_nil_r, <- app_assoc.
Qed.

End WindowBudgetFacts.

Lemma window_keeps_all_when_it_fits_witness :
  let tok := CharTokenizer.tokenizer in
  let history := [(lit "Hello", lit "Bonjour"); (lit "Thanks", lit "De rien")] in
  snd (make_context tok (lit "Bye") history default_system 6144)
  = system_tokens_of tok default_system
    ++ flat_map (next_context_tokens tok) history
    ++ query_tokens_of tok (lit "Bye").
Proof.
  intros tok history.
  apply (window_keeps_all_when_it_fits tok (lit "Bye") history
           default_system 6144).
  vm_compute. reflexivity.
Defined.

Section WindowGrowthFacts.

Variable tokenizer : QWenTokenizer.

Local Abbreviation turn_tokens := (next_context_tokens tokenizer).
Local Abbreviation turn_text := (prev_chat tokenizer).

Lemma window_grows (system_tokens : list Z) (small large : Z)
  (turns : list (str * str)) :
  (small <= large)%Z ->
  forall (raw_text : str) (context_tokens : list Z),
  exists kept more rest,
    turns = kept ++ more ++ rest
    /\ window tokenizer system_tokens small turns raw_text context_tokens
       = (flat_map turn_text (rev kept) ++ raw_text,
          flat_map turn_tokens (rev kept) ++ context_tokens)
    /\ window tokenizer system_tokens large turns raw_text context_tokens
       = (flat_map turn_text (rev (kept ++ more)) ++ raw_text,
          flat_map turn_tokens (rev (kept ++ more)) ++ context_tokens).
Proof.
  intros Hle. induction turns as [|turn older IH];
    intros raw_text context_tokens.
  - exists [], [], []. repeat split.
  - cbn [window].
    destruct (Z.ltb_spec
                (len system_tokens + len (turn_tokens turn)
                 + len context_tokens) small) as [Hs|Hs];
      destruct (Z.ltb_spec
                  (len system_tokens + len (turn_tokens turn)
                   + len context_tokens) large) as [Hl|Hl]; try lia.
    + destruct (IH (turn_text turn ++ raw_text)
                   (turn_tokens turn ++ context_tokens))
        as (kept & more & rest & Hsplit & H1 & H2).
      exists (turn :: kept), more, rest. repeat split.
      * now rewrite Hsplit.
      * rewrite H1. cbn [rev]. now rewrite !flat_map_snoc, <- !app_assoc.
      * rewrite H2. cbn [app rev].
        now rewrite !flat_map_snoc, <- !app_assoc.
    + destruct (window_spec tokenizer system_tokens large older
                  (turn_text turn ++ raw_text)
                  (turn_tokens turn ++ context_tokens))
        as (kept2 & dropped2 & Hsplit & Hw & _).
      exists [], (turn :: kept2), dropped2. repeat split.
      * now rewrite Hsplit.
      * rewrite Hw. cbn [app rev].
        now rewrite !flat_map_snoc, <- !app_assoc.
    + exists [], [], (turn :: older). repeat split.
Qed.

(** X14.  A larger window never loses a turn: the turns rendered under a
    budget are rendered under every larger budget too, in the same place,
    possibly preceded by older turns. *)
Theorem larger_window_keeps_more (query : str) (history : list (str * str))
  (system : str) (small large : Z) :
  (small <= large)%Z ->
  exists dropped more kept,
    history = dropped ++ more ++ kept
    /\ snd (make_context tokenizer query history system small)
       = system_tokens_of tokenizer system ++ flat_map turn_tokens kept
         ++ query_tokens_of tokenizer query
    /\ snd (make_context tokenizer query history system large)
       = system_tokens_of tokenizer system
         ++ flat_map turn_tokens (more ++ kept)
         ++ query_tokens_of tokenizer query.
Proof.
  intros Hle.
  destruct (window_grows (system_tokens_of tokenizer system) small large
              (rev history) Hle [] [])
    as (kept & more & rest & Hsplit & H1 & H2).
  exists (rev rest), (rev more), (rev kept). repeat split.
  - rewrite <- !rev_app_distr, <- app_assoc, <- Hsplit.
    now rewrite rev_involutive.
  - unfold make_context. rewrite H1. cbn [snd].
    now rewrite app_nil_r, <- app_assoc.
  - unfold make_context. rewrite H2. cbn [snd].
    now rewrite rev_app_distr, app_nil_r, <- app_assoc.
Qed.

(** X15.  Whatever is dropped, the rendered text opens with the system turn
    and ends with the query turn followed by an open assistant turn. *)
Theorem rendered_text_frame (query : str) (history : list (str * str))
  (system : str) (max_window_size : Z) :
  let text := fst (make_context tokenizer query history system max_window_size) in
  startswith text (im_start ++ lit "system" ++ nl :: system ++ im_end) = true
  /\ endswith text
       (nl :: im_start ++ lit "user" ++ nl :: query ++ im_end
           ++ nl :: im_start ++ lit "assistant" ++ [nl]) = true.
Proof.
  intros text. subst text. unfold make_context.
  destruct (window tokenizer _ _ _ _ _) as [raw_text context_tokens].
  cbn [fst _tokenize_str]. split.
  - replace (im_start ++ (lit "system" ++ nl :: system) ++ im_end ++ raw_text)
      with ((im_start ++ lit "system" ++ nl :: system ++ im_end) ++ raw_text).
    + rewrite <- app_assoc. apply startswith_app.
    + rewrite <- !app_assoc. cbn [app]. now rewrite <- !app_assoc.
  - unfold endswith. rewrite rev_app_distr. apply startswith_app.
Qed.

End WindowGrowthFacts.

Lemma larger_window_keeps_more_witness :
  let tok := CharTokenizer.tokenizer in
  let history := [(lit "Hello", lit "Bonjour"); (lit "Thanks", lit "De rien")] in
  exists dropped more kept,
    history = dropped ++ more ++ kept
    /\ snd (make_context tok (lit "Bye") history default_system 70)
       = system_tokens_of tok default_system
         ++ flat_map (next_context_tokens tok) kept
         ++ query_tokens_of tok (lit "Bye")
    /\ snd (make_context tok (lit "Bye") history default_system 6144)
       = system_tokens_of tok default_system
         ++ flat_map (next_context_tokens tok) (more ++ kept)
         ++ query_tokens_of tok (lit "Bye").
Proof.
  intros tok history.
  apply (larger_window_keeps_more tok (lit "Bye") history default_system
           70 6144).
  discriminate.
Defined.

(** ** Text and tokens in lockstep *)

Section LockstepFacts.

Variable tokenizer : QWenTokenizer.
Variable decode : list Z -> str.

Hypothesis decode_app : forall a b, decode (a ++ b) = decode a ++ decode b.
Hypothesis decode_encode : forall s, decode (encode tokenizer s) = s.
Hypothesis decode_encode_plain :
  forall s, decode (encode_plain tokenizer s) = s.
Hypothesis decode_im_start : decode [im_start_id tokenizer] = im_start.
Hypothesis decode_im_end : decode [im_end_id tokenizer] = im_end.

Lemma decode_nil : decode [] = [].
Proof.
  pose proof (decode_app [] []) as H. simpl in H.
  apply (f_equal (@length char)) in H. rewrite length_app in H.
  destruct (decode []); [reflexivity | simpl in H; lia].
Qed.

Lemma decode_tokenize_str (role content : str) :
  decode (snd (_tokenize_str tokenizer role content))
  = fst (_tokenize_str tokenizer role content).
Proof.
  unfold _tokenize_str, nl_tokens. cbn [fst snd].
  now rewrite !decode_app, !decode_encode_plain, decode_encode.
Qed.

Lemma decode_turn (turn : str * str) :
  decode (next_context_tokens tokenizer turn) = prev_chat tokenizer turn.
Proof.
  destruct turn as [q r]. unfold next_context_tokens, prev_chat.
  unfold im_start_tokens, im_end_tokens, nl_tokens.
  rewrite !decode_app, !decode_tokenize_str, !decode_encode,
    !decode_im_start, !decode_im_end.
  repeat (progress (cbn [app]) || rewrite <- app_assoc). reflexivity.
Qed.

Lemma decode_turns (turns : list (str * str)) :
  decode (flat_map (next_context_tokens tokenizer) turns)
  = flat_map (prev_chat tokenizer) turns.
Proof.
  induction turns as [|t turns IH]; [apply decode_nil|].
  cbn [flat_map]. now rewrite decode_app, decode_turn, IH.
Qed.

(** X16.  For a tokenizer whose decoder undoes [encode] on every piece of
    text, turns the two special ids into the two markers and decodes a
    concatenation piece by piece, decoding the rendered tokens gives the
    rendered text, whatever the window drops. *)
Theorem rendered_tokens_decode_to_text (query : str)
  (history : list (str * str)) (system : str) (max_window_size : Z) :
  decode (snd (make_context tokenizer query history system max_window_size))
  = fst (make_context tokenizer query history system max_window_size).
Proof.
  unfold make_context.
  destruct (window_spec tokenizer (system_tokens_of tokenizer system)
              max_window_size (rev history) [] [])
    as (kept & dropped & _ & -> & _).
  cbn [fst snd]. rewrite !app_nil_r.
  unfold system_tokens_of, query_tokens_of, im_start_tokens, im_end_tokens,
    nl_tokens.
  rewrite !decode_app, decode_turns, !decode_tokenize_str, !decode_encode,
    !decode_im_start, !decode_im_end.
  cbn [_tokenize_str fst].
  repeat (progress (cbn [app]) || rewrite <- app_assoc). reflexivity.
Qed.

End LockstepFacts.

Lemma tag_decode_app (a b : list Z) :
  TagTokenizer.decode (a ++ b) = TagTokenizer.decode a ++ TagTokenizer.decode b.
Proof. apply flat_map_app. Qed.

Lemma tag_decode_encode (s : str) :
  TagTokenizer.decode (map Z.of_N s) = s.
Proof.
  induction s as [|c s IH]; [reflexivity|].
  cbn [map TagTokenizer.decode flat_map]. fold (TagTokenizer.decode (map Z.of_N s)).
  rewrite IH. unfold TagTokenizer.decode_token.
  destruct (Z.eqb_spec (Z.of_N c) (-1)); [lia|].
  destruct (Z.eqb_spec (Z.of_N c) (-2)); [lia|].
  now rewrite N2Z.id.
Qed.

Lemma rendered_tokens_decode_to_text_witness :
  let history := [(lit "Hello", lit "Bonjour")] in
  TagTokenizer.decode
    (snd (make_context TagTokenizer.tokenizer (lit "Bye") history
            default_system 6144))
  = fst (make_context TagTokenizer.tokenizer (lit "Bye") history
           default_system 6144).
Proof.
  intros history.
  apply (rendered_tokens_decode_to_text TagTokenizer.tokenizer
           TagTokenizer.decode tag_decode_app tag_decode_encode
           tag_decode_encode eq_refl eq_refl).
Defined.

(** ** Continuation rendering *)

Section ContinuationFacts.

Variable tokenizer : QWenTokenizer.

(** The prompt of [text_complete_last_message] before its last marker is cut
    off. *)
Local Abbreviation full_prompt history :=
  (fold_left
     (fun prompt turn =>
        let query := rstrip (lstrip_nl (fst turn)) in
        let response := rstrip (lstrip_nl (snd turn)) in
        let prompt :=
          prompt ++ nl :: im_start ++ lit "user" ++ nl :: query ++ im_end in
        prompt ++ nl :: im_start ++ lit "assistant" ++ nl :: response
               ++ im_end)
     history
     (im_start ++ lit "system" ++ nl :: default_system ++ im_end)).

Lemma slice_to_drop_im_end (x : str) : slice_to (x ++ im_end) (- len im_end) = x.
Proof.
  unfold slice_to, norm_index, len. rewrite length_app.
  change (length im_end) with 10.
  destruct (Z.ltb_spec (- Z.of_nat 10) 0); [|lia].
  replace (Z.to_nat (Z.of_nat (length x + 10) + - Z.of_nat 10))
    with (length x) by lia.
  apply firstn_app_prefix.
Qed.

Lemma full_prompt_ends (history : list (str * str)) :
  exists x, full_prompt history = x ++ im_end.
Proof.
  destruct (rev history) as [|t rh] eqn:E.
  - apply (f_equal (@rev _)) in E. rewrite rev_involutive in E. subst history.
    now exists (im_start ++ lit "system" ++ nl :: default_system).
  - apply (f_equal (@rev _)) in E. rewrite rev_involutive in E. subst history.
    cbn [rev]. rewrite fold_left_app. cbn [fold_left].
    match goal with
    | |- exists x, ?p ++ nl :: ?a ++ ?b ++ nl :: ?r ++ im_end = _ =>
        exists (p ++ nl :: a ++ b ++ nl :: r)
    end.
    repeat (progress (cbn [app]) || rewrite <- app_assoc). reflexivity.
Qed.

Lemma continuation_plus_marker (history : list (str * str)) :
  text_complete_prompt history ++ im_end = full_prompt history.
Proof.
  unfold text_complete_prompt.
  destruct (full_prompt_ends history) as [x Hx].
  cbv zeta in Hx |- *. rewrite Hx. now rewrite slice_to_drop_im_end.
Qed.

(** X17.  Continuation rendering leaves the last assistant turn open: the
    prompt for a history that ends with the turn [(query, response)] is the
    prompt for the turns before it, closed by its end marker, then the user
    turn, then the assistant turn without end marker, both texts trimmed.
    For an empty history it is the system turn, left open. *)
Theorem continuation_ends_open (history : list (str * str))
  (query response : str) :
  text_complete_prompt (history ++ [(query, response)])
  = text_complete_prompt history ++ im_end
    ++ nl :: im_start ++ lit "user" ++ nl :: rstrip (lstrip_nl query) ++ im_end
    ++ nl :: im_start ++ lit "assistant" ++ nl :: rstrip (lstrip_nl response)
  /\ text_complete_prompt []
     = im_start ++ lit "system" ++ nl :: default_system.
Proof.
  split; [|reflexivity].
  rewrite app_assoc, continuation_plus_marker.
  unfold text_complete_prompt. cbv zeta.
  rewrite fold_left_app. cbn [fold_left fst snd].
  match goal with
  | |- slice_to ?p _ = ?x =>
      replace p with (x ++ im_end);
      [apply slice_to_drop_im_end|]
  end.
  repeat (progress (cbn [app]) || rewrite <- app_assoc). reflexivity.
Qed.

Lemma full_prompt_trimmed (history : list (str * str)) :
  Forall trimmed_turn history ->
  full_prompt history
  = (im_start ++ lit "system" ++ nl :: default_system ++ im_end)
    ++ flat_map (prev_chat tokenizer) history.
Proof.
  generalize (im_start ++ lit "system" ++ nl :: default_system ++ im_end).
  induction history as [|t history IH]; intros acc Hall.
  - simpl. now rewrite app_nil_r.
  - apply Forall_cons_iff in Hall. destruct Hall as [[Hq Hr] Hall].
    cbn [fold_left flat_map]. rewrite IH by assumption.
    rewrite Hq, Hr. destruct t as [q r].
    unfold prev_chat, _tokenize_str. cbn [fst snd].
    repeat (progress (cbn [app]) || rewrite <- app_assoc). reflexivity.
Qed.

(** X18.  The two rendering paths agree on the history: when all turns fit
    the window and their texts are already trimmed, the text rendered for a
    query is the continuation prompt of the history, closed by its end
    marker, followed by the query turn and the open assistant turn. *)
Theorem query_rendering_extends_continuation (query : str)
  (history : list (str * str)) (max_window_size : Z) :
  Forall trimmed_turn history ->
  (len (system_tokens_of tokenizer default_system)
   + len (flat_map (next_context_tokens tokenizer) history)
   < max_window_size)%Z ->
  fst (make_context tokenizer query history default_system max_window_size)
  = text_complete_prompt history ++ im_end
    ++ nl :: im_start ++ lit "user" ++ nl :: query ++ im_end
    ++ nl :: im_start ++ lit "assistant" ++ [nl].
Proof.
  intros Htrim Hfit.
  rewrite app_assoc, continuation_plus_marker, (full_prompt_trimmed _ Htrim).
  unfold make_context. rewrite window_all_fit.
  - cbn [fst _tokenize_str]. rewrite rev_involutive, app_nil_r.
    repeat (progress (cbn [app]) || rewrite <- app_assoc). reflexivity.
  - rewrite len_flat_map_rev. change (len (@nil Z)) with 0%Z. lia.
Qed.

End ContinuationFacts.

Lemma query_rendering_extends_continuation_witness :
  let tok := CharTokenizer.tokenizer in
  let history := [(lit "Hello", lit "Bonjour")] in
  fst (make_context tok (lit "Bye") history default_system 6144)
  = text_complete_prompt history ++ im_end
    ++ nl :: im_start ++ lit "user" ++ nl :: lit "Bye" ++ im_end
    ++ nl :: im_start ++ lit "assistant" ++ [nl].
Proof.
  intros tok history.
  apply (query_rendering_extends_continuation tok (lit "Bye") history 6144).
  - repeat constructor.
  - vm_compute. reflexivity.
Defined.

(** ** The processed output of a generation step *)

Section ProcessedFacts.

Variable eos_token_id : Z.
Variable _remove_stop_word_ids : list Z -> list Z.
Variable _check_finish_reason : list Z -> option FinisheReason.
Variable decode : list Z -> str.
Variable stop_words_list : list str.

Local Abbreviation process :=
  (_process_output_ids_tensor eos_token_id _remove_stop_word_ids
     _check_finish_reason decode stop_words_list).

Lemma startswith_contains (s sub : str) :
  contains sub s = false -> startswith s sub = false.
Proof.
  rewrite contains_unfold. intros H. now apply orb_false_iff in H.
Qed.

Lemma remove_all_absent (s old : str) :
  contains old s = false -> remove_all s old = s.
Proof.
  unfold remove_all. induction s as [|c s IH]; intros H; [reflexivity|].
  cbn [remove_from]. rewrite (startswith_contains _ _ H).
  cbn [contains] in H. apply orb_false_iff in H. destruct H as [_ H].
  now rewrite IH.
Qed.

Lemma remove_all_absent_list (words : list str) (s : str) :
  Forall (fun w => contains w s = false) words ->
  fold_left remove_all words s = s.
Proof.
  induction words as [|w words IH]; intros H; [reflexivity|].
  apply Forall_cons_iff in H. destruct H as [Hw H].
  cbn [fold_left]. rewrite (remove_all_absent _ _ Hw). now apply IH.
Qed.

(** X19.  The completion-token count of a step is the number of ids that
    are not the end-of-sequence id, in the whole tensor, minus the prompt
    length, and never less than zero; it is taken before the stop-word ids
    are removed, so it does not depend on them. *)
Theorem completion_tokens_counted (input_length : Z) (ids : list Z)
  (finished : bool) :
  (0 <= input_length)%Z ->
  po_output_token_length (process input_length ids finished)
  = Z.max 0
      (len (filter (fun t => negb (t =? eos_token_id)%Z) ids) - input_length).
Proof.
  intros H. unfold _process_output_ids_tensor. cbn [po_output_token_length].
  rewrite slice_from_nonneg by assumption.
  unfold len. rewrite length_skipn. lia.
Qed.

(** X20.  Decoded text in which no stop word occurs reaches the stream as it
    was decoded, but for replacement characters at its two ends. *)
Theorem text_without_stop_words_passes (input_length : Z) (ids : list Z)
  (finished : bool) :
  let decoded :=
    decode
      (_remove_stop_word_ids
         (slice_from (filter (fun t => negb (t =? eos_token_id)%Z) ids)
                     input_length)) in
  Forall (fun w => contains w (strip_chars is_replacement decoded) = false)
         stop_words_list ->
  output_str (process input_length ids finished)
  = strip_chars is_replacement decoded.
Proof.
  intros decoded H. unfold _process_output_ids_tensor. cbn [output_str].
  fold decoded. now apply remove_all_absent_list.
Qed.

End ProcessedFacts.

Lemma completion_tokens_counted_witness :
  po_output_token_length
    (_process_output_ids_tensor CharTokenizer.eos_token_id
       CharTokenizer._remove_stop_word_ids CharTokenizer._check_finish_reason
       CharTokenizer.decode [] 2
       [104; 105; 72; 105; 151643; 33; 151643]%Z false)
  = 3%Z.
Proof.
  rewrite completion_tokens_counted; [reflexivity | discriminate].
Defined.

Lemma text_without_stop_words_passes_witness :
  output_str
    (_process_output_ids_tensor CharTokenizer.eos_token_id
       CharTokenizer._remove_stop_word_ids CharTokenizer._check_finish_reason
       CharTokenizer.decode [lit "Observation:"] 0
       (CharTokenizer.encode_chars (lit "Hello")) false)
  = lit "Hello".
Proof.
  rewrite text_without_stop_words_passes; [reflexivity|].
  repeat constructor.
Defined.

(** ** Tool instructions *)

Section ToolFacts.

Variable Json : Type.
Variable json_dumps : Json -> str.

Lemma react_instruction_ends (tools_text tools_name_text : str) :
  exists y, REACT_INSTRUCTION tools_text tools_name_text = y ++ lit "Begin!".
Proof.
  unfold REACT_INSTRUCTION. eexists. rewrite !app_assoc. reflexivity.
Qed.

Lemma fold_functions_ends (system : str) (f : GPTFunctionDefinition Json)
  (fs : list (GPTFunctionDefinition Json)) :
  exists w, fold_functions json_dumps system (Some (f :: fs)) = w ++ lit "Begin!".
Proof.
  unfold fold_functions. cbv zeta.
  destruct (react_instruction_ends
              (join [nl; nl]
                 (map (fun func_info =>
                         TOOL_DESC
                           (or_else (name_for_model func_info) (fd_name func_info))
                           (or_else (name_for_human func_info) (fd_name func_info))
                           (or_else (description_for_model func_info)
                                    (description func_info))
                           (json_dumps (parameters func_info))) (f :: fs)))
              (join (lit ", ")
                 (map (fun func_info =>
                         or_else (name_for_model func_info) (fd_name func_info))
                      (f :: fs)))) as [y ->].
  unfold lstrip_nl, lstrip_chars, rstrip.
  replace (system ++ [nl; nl] ++ y ++ lit "Begin!")
    with ((system ++ [nl; nl] ++ y) ++ 66%N :: lit "egin!")
    by (now rewrite <- !app_assoc).
  rewrite (dropwhile_app_stop is_nl _ 66%N _ eq_refl).
  exists (dropwhile is_nl (system ++ [nl; nl] ++ y)).
  change (66%N :: lit "egin!") with ((lit "Begin" ++ [33%N]) ++ []).
  now rewrite (rstrip_chars_keep_last is_space _ (lit "Begin") 33%N [] eq_refl).
Qed.

(** X21.  When at least one function is defined, the system text after the
    tool descriptions are folded in ends with the last line of the ReAct
    instructions, [Begin!]; in particular it is never empty, so the
    instructions are always placed before a question. *)
Theorem tool_instructions_are_present (system : str)
  (f : GPTFunctionDefinition Json) (fs : list (GPTFunctionDefinition Json)) :
  endswith (fold_functions json_dumps system (Some (f :: fs))) (lit "Begin!")
  = true
  /\ fold_functions json_dumps system (Some (f :: fs)) <> [].
Proof.
  destruct (fold_functions_ends system f fs) as [w ->]. split.
  - unfold endswith. rewrite rev_app_distr. apply startswith_app.
  - destruct w; discriminate.
Qed.

(** X22.  A request that is one user message, with functions defined,
    becomes the query "<instructions>\n\nQuestion: <message>" with an empty
    history, the message trimmed. *)
Theorem first_question_carries_instructions (q : str)
  (f : GPTFunctionDefinition Json) (fs : list (GPTFunctionDefinition Json)) :
  parse_messages json_dumps [message RoleEnum.user q] (Some (f :: fs))
  = Ok (QueryStr
          (with_question (fold_functions json_dumps [] (Some (f :: fs)))
                         (rstrip (lstrip_nl q))),
        []).
Proof.
  unfold parse_messages.
  cbn [forallb message role role_eqb negb andb extract_system bind content].
  cbn [normalize message role content app]. cbn [bind].
  unfold extract_history.
  cbn [last_turn rev app t_role role_eqb bind removelast pair_up t_content].
  destruct (fold_functions_ends [] f fs) as [w ->].
  destruct w; reflexivity.
Qed.

(** X23.  The round of a function call: a user message, an assistant message
    without content that calls [name] with [args], and the function's result
    [obs] are rendered in text-completion mode as one turn whose assistant
    text is the synthesized thought, the action, the action input, the
    observation and an open [Thought:]. *)
Theorem function_round_is_one_turn
  (functions : option (list (GPTFunctionDefinition Json)))
  (q name args obs : str) :
  has_zh (rstrip (lstrip_nl q)) = false ->
  exists usr,
    parse_messages json_dumps (call_messages q [] name args obs) functions
    = Ok (_TEXT_COMPLETION_CMD,
          [(usr,
            lit "Thought: I can use " ++ name ++ lit "."
            ++ nl :: lit "Action: " ++ name
            ++ nl :: lit "Action Input:" ++ rstrip (sp :: args)
            ++ nl :: lit "Observation: " ++ obs
            ++ nl :: lit "Thought:")]).
Proof.
  intros Hzh.
  destruct (parse_call_messages Json json_dumps functions q [] name args obs)
    as [usr ->].
  exists usr. do 3 f_equal. f_equal.
  unfold assistant_content. rewrite Hzh. cbn [fc_name fc_arguments].
  set (thought := lit "Thought: I can use " ++ name ++ lit ".").
  assert (H1 : lstrip_nl
                 (nl :: thought ++ nl :: lit "Action: " ++ name
                     ++ nl :: lit "Action Input: " ++ args)
               = (thought ++ ACTION ++ sp :: name) ++ ACTION_INPUT
                 ++ sp :: args).
  { subst thought. unfold lstrip_nl, lstrip_chars. cbn [dropwhile].
    change (is_nl nl) with true. cbv iota.
    repeat (progress (cbn [app lit map list_ascii_of_string ACTION
                          ACTION_INPUT])
            || rewrite <- app_assoc).
    reflexivity. }
  rewrite H1, rstrip_keeps_action_input.
  set (text := ((thought ++ ACTION ++ sp :: name) ++ ACTION_INPUT
                ++ rstrip (sp :: args))
               ++ nl :: lit "Observation: " ++ obs).
  assert (H2 : lstrip_nl (text ++ nl :: lit "Thought:")
               = text ++ nl :: lit "Thought:").
  { subst text thought. reflexivity. }
  assert (H3 : rstrip (text ++ nl :: lit "Thought:")
               = text ++ nl :: lit "Thought:").
  { replace (text ++ nl :: lit "Thought:")
      with ((text ++ nl :: lit "Thought") ++ [58%N])
      by (now rewrite <- app_assoc).
    apply rstrip_ends_with_colon. }
  rewrite H2, H3.
  assert (H4 : strip_dummy_thought (text ++ nl :: lit "Thought:")
               = text ++ nl :: lit "Thought:").
  { subst text thought. reflexivity. }
  rewrite H4. subst text thought.
  repeat (progress (cbn [app lit map list_ascii_of_string ACTION ACTION_INPUT])
          || rewrite <- app_assoc).
  reflexivity.
Qed.

End ToolFacts.

Lemma function_round_is_one_turn_witness :
  exists usr,
    parse_messages CharTokenizer.json_dumps
      (call_messages (lit "Weather in Boston?") [] (lit "get_weather")
                     (lit "{}") (lit "22")) None
    = Ok (_TEXT_COMPLETION_CMD,
          [(usr,
            lit "Thought: I can use " ++ lit "get_weather" ++ lit "."
            ++ nl :: lit "Action: " ++ lit "get_weather"
            ++ nl :: lit "Action Input:" ++ rstrip (sp :: lit "{}")
            ++ nl :: lit "Observation: " ++ lit "22"
            ++ nl :: lit "Thought:")]).
Proof.
  apply (function_round_is_one_turn unit CharTokenizer.json_dumps None
           (lit "Weather in Boston?") (lit "get_weather") (lit "{}")
           (lit "22")).
  reflexivity.
Defined.
